(** * epub-2bgs: image bit-depth reduction and reference rewriting

    A shallow embedding of [epub-2bgs.py] (and of the pipeline it shares
    with [reduce.py]):

    - the Floyd-Steinberg pass [floyd_steinberg_dither] over an 8-bit
      grayscale raster, with Python's binary64 arithmetic modelled by
      Rocq's primitive floats;
    - the three reference rewriters ([update_xml_references],
      [update_css_references], [update_opf_manifest]) with the regular
      expressions they build and [str.replace];
    - the image loop and the repack step of [process_epub] over a scratch
      tree of files;
    - the package document as [xml.etree.ElementTree] holds it, with the
      paths by which [update_opf_manifest] finds the manifest and its
      items;
    - the loop of [main] and the palette of [reduce.py]. *)

From Stdlib Require Import ZArith Lia List Bool Ascii String.
From Stdlib Require Import Floats.
From stdpp Require Import base option list strings.

Local Open Scope Z_scope.

(** ** Python numbers *)

Module Py.

(** The binary64 nearest to an integer (ties to even). *)
Definition nearest_float (n : Z) : float :=
  SF2Prim (binary_normalize prec emax n 0 false).

(** [float(n)] for a Python [int]: the nearest binary64, and
    [OverflowError] (here [None]) beyond the largest finite one. *)
Definition float_of_int (n : Z) : option float :=
  let f := nearest_float n in
  if is_infinity f then None else Some f.

(** [a / b] on floats raises [ZeroDivisionError] for a zero divisor. *)
Definition truediv (a b : float) : option float :=
  if is_zero b then None else Some (a / b)%float.

(** Sign applied to a magnitude. *)
Definition signed (s : bool) (n : Z) : Z := if s then - n else n.

(** [int(f)]: truncation toward zero; [None] for infinities and NaN
    ([OverflowError], [ValueError]). *)
Definition int_of_float (f : float) : option Z :=
  match Prim2SF f with
  | S754_zero _ => Some 0
  | S754_finite s m e =>
      Some (signed s (if 0 <=? e then Z.pos m * 2 ^ e
                      else Z.pos m / 2 ^ (- e)))
  | _ => None
  end.

(** [round(f)] with one argument: the nearest integer, ties to even. *)
Definition round (f : float) : option Z :=
  match Prim2SF f with
  | S754_zero _ => Some 0
  | S754_finite s m e =>
      Some (signed s
        (if 0 <=? e then Z.pos m * 2 ^ e
         else
           let d := 2 ^ (- e) in
           let q := Z.pos m / d in
           let r := Z.pos m mod d in
           match 2 * r ?= d with
           | Lt => q
           | Gt => q + 1
           | Eq => if Z.even q then q else q + 1
           end))
  | _ => None
  end.

(** [int(max(0, min(255, v)))].  [min(255, v)] is [v] only when
    [v < 255], and [max(0, m)] is [m] only when [m > 0]; the integer
    bounds [255] and [0] are returned as they are, so [int] truncates
    only a float strictly between them. *)
Definition clamp_int (v : float) : Z :=
  if (v <? 255)%float then
    if (0 <? v)%float then default 0 (int_of_float v) else 0
  else 255.

End Py.

(** ** The raster *)

(** A mode-['L'] image: [img.size] and the pixel access object returned
    by [img.load()], stored row by row. *)
Record image := Image {
  width : nat;
  height : nat;
  pixels : list Z
}.

(** The cell of [(x, y)] in a raster [w] pixels wide. *)
Definition index (w x y : nat) : nat := (y * w + x)%nat.

(** [pixels[x, y]] *)
Definition getpixel (img : image) (x y : nat) : Z :=
  default 0 (pixels img !! index (width img) x y).

(** [pixels[x, y] = v] *)
Definition putpixel (img : image) (x y : nat) (v : Z) : image :=
  Image (width img) (height img)
        (<[index (width img) x y := v]> (pixels img)).

(** An 8-bit raster of the stated size. *)
Definition wf_image (img : image) : Prop :=
  length (pixels img) = (width img * height img)%nat /\
  Forall (fun v => 0 <= v <= 255) (pixels img).

(** ** Floyd-Steinberg dithering *)

(** [step = 255.0 / (levels - 1)] *)
Definition quant_step (levels : Z) : option float :=
  d ← Py.float_of_int (levels - 1);
  Py.truediv 255 d.

(** The first statements of the loop body: the value stored at the
    visited pixel and the rounding error.  A pixel of an 8-bit raster
    converts to a float exactly.
<<
    old_pixel = float(pixels[x, y])
    new_pixel = round(old_pixel / step) * step
    pixels[x, y] = int(max(0, min(255, new_pixel)))
    error = old_pixel - new_pixel
>> *)
Definition quantize (step : float) (old : Z) : option (Z * float) :=
  let old_pixel := Py.nearest_float old in
  q ← Py.truediv old_pixel step;
  k ← Py.round q;
  kf ← Py.float_of_int k;
  let new_pixel := (kf * step)%float in
  Some (Py.clamp_int new_pixel, (old_pixel - new_pixel)%float).

(** [int(max(0, min(255, p + error * w / 16)))] for a neighbour holding
    [p]; [error * w / 16] is [(error * w) / 16]. *)
Definition diffused (p : Z) (error w : float) : Z :=
  Py.clamp_int (Py.nearest_float p + error * w / 16)%float.

(** [pixels[x, y] = int(max(0, min(255, float(pixels[x, y]) + error * w / 16)))] *)
Definition diffuse (img : image) (x y : nat) (error w : float) : image :=
  putpixel img x y (diffused (getpixel img x y) error w).

(** The body of the inner loop at [(x, y)], with the locals [width] and
    [height] read from [img.size] before the loops. *)
Definition visit (step : float) (w h : nat) (img : image) (x y : nat)
  : option image :=
  '(q, error) ← quantize step (getpixel img x y);
  let img := putpixel img x y q in
  let img := if (x + 1 <? w)%nat then diffuse img (x + 1) y error 7 else img in
  Some
    (if (y + 1 <? h)%nat then
       let img := if (0 <? x)%nat
                  then diffuse img (x - 1) (y + 1) error 3 else img in
       let img := diffuse img x (y + 1) error 5 in
       if (x + 1 <? w)%nat then diffuse img (x + 1) (y + 1) error 1 else img
     else img).

(** A [for] loop whose body may raise. *)
Fixpoint for_each {A S : Type} (body : S -> A -> option S) (s : S)
    (l : list A) : option S :=
  match l with
  | [] => Some s
  | a :: l => s' ← body s a; for_each body s' l
  end.

(** [for y in range(height): for x in range(width): ...] *)
Definition floyd_steinberg_dither (img : image) (levels : Z) : option image :=
  let w := width img in
  let h := height img in
  step ← quant_step levels;
  for_each
    (fun img y => for_each (fun img x => visit step w h img x y) img (seq 0 w))
    img (seq 0 h).

(** The quantization levels [k * 255 / (N - 1)], [0 <= k <= N - 1], as
    exact numbers: [v] is one of them when [v * (N - 1) = 255 * k]. *)
Definition is_level (N v : Z) : Prop :=
  exists k, 0 <= k <= N - 1 /\ v * (N - 1) = 255 * k.

Definition is_levelb (N v : Z) : bool :=
  existsb (fun k => v * (N - 1) =? 255 * k) (map Z.of_nat (seq 0 (Z.to_nat N))).


Definition good_levels : list Z := [2; 4; 6; 16; 18; 52; 86; 256].

Definition bytes_range : list Z := map Z.of_nat (seq 0 256).

(** Every 8-bit value quantizes, without an exception, to a level. *)
Definition quantize_check (N : Z) : bool :=
  match quant_step N with
  | Some step =>
      forallb (fun old => match quantize step old with
                          | Some (q, _) => is_levelb N q
                          | None => false
                          end) bytes_range
  | None => false
  end.

(** A 3x2 raster whose pixel [(1, 0)] has all four neighbours, and the
    same raster after that pixel has been visited with step 85. *)
Definition sample_raster : image := Image 3 2 [10; 1; 10; 10; 10; 10].
Definition sample_visited : image := Image 3 2 [10; 0; 10; 10; 10; 10].

(** After [n] pixels of [img0] have been visited in row-major order: the
    raster keeps its shape and its 8-bit range, and the visited pixels
    hold levels. *)
Definition dither_inv (N : Z) (img0 : image) (n : nat) (img : image) : Prop :=
  width img = width img0 /\ height img = height img0 /\
  length (pixels img) = (width img0 * height img0)%nat /\
  (forall x y, (x < width img0)%nat -> (y < height img0)%nat ->
     0 <= getpixel img x y <= 255) /\
  (forall x y, (x < width img0)%nat -> (y < height img0)%nat ->
     (index (width img0) x y < n)%nat -> is_level N (getpixel img x y)).

(** What one visit leaves at [(x', y')]: the quantized value at the
    visited pixel, the diffused values at its four neighbours, and the
    old value everywhere else. *)
Definition visited_value (img : image) (x y : nat) (q : Z) (error : float)
    (x' y' : nat) : Z :=
  if decide (x' = x /\ y' = y) then q
  else if decide (x' = x + 1 /\ y' = y)%nat then
    diffused (getpixel img x' y') error 7
  else if decide (x' + 1 = x /\ y' = y + 1)%nat then
    diffused (getpixel img x' y') error 3
  else if decide (x' = x /\ y' = y + 1)%nat then
    diffused (getpixel img x' y') error 5
  else if decide (x' = x + 1 /\ y' = y + 1)%nat then
    diffused (getpixel img x' y') error 1
  else getpixel img x' y'.


(** ** Python strings *)

(** A [str] is modelled by its UTF-8 bytes.  The characters the rewriters
    test for (quotes, parentheses, the slash) are ASCII, and no byte of a
    multi-byte UTF-8 sequence is ASCII, so matching bytes is matching
    characters. *)
Abbreviation str := (list ascii).

Definition lit (s : string) : str := list_ascii_of_string s.

(** The double quote, the single quote and the slash. *)
Definition dq : ascii := "034"%char.
Definition sq : ascii := "039"%char.
Definition slash : ascii := "/"%char.

(** [s.startswith(p)] *)
Fixpoint startswith (p s : str) : bool :=
  match p, s with
  | [], _ => true
  | a :: p', b :: s' => if decide (a = b) then startswith p' s' else false
  | _ :: _, [] => false
  end.

(** [s.endswith(suffix)] *)
Definition endswith (s suffix : str) : bool :=
  startswith (rev suffix) (rev s).

(** The scan of [str.replace] for a non-empty [old]: left to right, the
    occurrences do not overlap.  [skip] counts the characters of an
    occurrence that are still to be passed over. *)
Fixpoint replace_from (old new : str) (skip : nat) (s : str) : str :=
  match s with
  | [] => []
  | c :: s' =>
      match skip with
      | S k => replace_from old new k s'
      | O =>
          if startswith old s
          then new ++ replace_from old new (length old - 1) s'
          else c :: replace_from old new 0 s'
      end
  end.

(** [s.replace(old, new)].  An empty [old] matches before every
    character and at the end. *)
Definition replace (old new s : str) : str :=
  match old with
  | [] => new ++ flat_map (fun c => c :: new) s
  | _ :: _ => replace_from old new 0 s
  end.

(** [os.path.basename(p)]: what follows the last slash. *)
Fixpoint basename (p : str) : str :=
  match p with
  | [] => []
  | c :: p' =>
      if bool_decide (slash ∈ p') then basename p'
      else if decide (c = slash) then p' else p
  end.

(** ** Regular expressions *)

(** The patterns the rewriters build all have the shape
    [pre ( [^c]* body ) post], with literal [pre], [body] and [post]
    ([re.escape] makes the file name literal) and one capture group;
    some have no [[^c]*]. *)
Record pattern := Pattern {
  pre : str;
  star : option ascii;
  body : str;
  post : str
}.

(** What is left of [s] after the literal [p], if [s] starts with it. *)
Fixpoint strip_prefix (p s : str) : option str :=
  match p, s with
  | [], _ => Some s
  | a :: p', b :: s' => if decide (a = b) then strip_prefix p' s' else None
  | _ :: _, [] => None
  end.

(** [[^c]*] followed by the literal [l], at the start of [s]: the star
    is greedy, so the longest run is tried first and a shorter one only
    when the rest does not match.  Returns the run and what follows [l]. *)
Fixpoint star_match (c : ascii) (l s : str) : option (str * str) :=
  match s with
  | [] => r ← strip_prefix l []; Some ([], r)
  | a :: s' =>
      if decide (a = c) then r ← strip_prefix l s; Some ([], r)
      else
        match star_match c l s' with
        | Some (run, r) => Some (a :: run, r)
        | None => r ← strip_prefix l s; Some ([], r)
        end
  end.

(** A match of the whole pattern at the start of [s]: group 1 and the
    text after the match. *)
Definition match_at (p : pattern) (s : str) : option (str * str) :=
  s1 ← strip_prefix (pre p) s;
  match star p with
  | None => r ← strip_prefix (body p ++ post p) s1; Some (body p, r)
  | Some c =>
      '(run, r) ← star_match c (body p ++ post p) s1;
      Some (run ++ body p, r)
  end.

(** The scan of [re.sub]: the leftmost match is replaced and the scan
    resumes after it; [skip] counts the characters of the match that are
    still to be passed over.  (No pattern here matches the empty string.) *)
Fixpoint sub_from (p : pattern) (repl : str -> str) (skip : nat) (s : str)
  : str :=
  match s with
  | [] => []
  | c :: s' =>
      match skip with
      | S k => sub_from p repl k s'
      | O =>
          match match_at p s with
          | Some (g, r) =>
              repl g ++ sub_from p repl (length s - length r - 1) s'
          | None => c :: sub_from p repl 0 s'
          end
      end
  end.

(** [re.sub(pattern, lambda m: repl(m.group(1)), s)] *)
Definition re_sub (p : pattern) (repl : str -> str) (s : str) : str :=
  sub_from p repl 0 s.

(** ** The reference rewriters *)

(** [image_mapping]: a [dict], in insertion order. *)
Abbreviation mapping := (list (str * str)).

(** <<
    new_content = re.sub(pattern, repl, content)
    if new_content != content:
        content = new_content
        modified = True
>> *)
Definition apply_pattern (repl : str -> str) (st : str * bool) (p : pattern)
  : str * bool :=
  let new_content := re_sub p repl (fst st) in
  if decide (new_content <> fst st) then (new_content, true) else st.

(** The five [src] patterns of [update_xml_references]. *)
Definition xml_patterns (old_filename : str) : list pattern :=
  [ Pattern (lit "src=" ++ [dq]) (Some dq) (slash :: old_filename) [dq];
    Pattern (lit "src=" ++ [sq]) (Some sq) (slash :: old_filename) [sq];
    Pattern (lit "src=" ++ [dq]) None (lit "images/" ++ old_filename) [dq];
    Pattern (lit "src=" ++ [dq]) None (lit "../images/" ++ old_filename) [dq];
    Pattern (lit "src=" ++ [dq]) None (lit "./images/" ++ old_filename) [dq] ].

(** [lambda m: f'src="{m.group(1).replace(old_filename, new_filename)}"'] *)
Definition xml_repl (old_filename new_filename g : str) : str :=
  lit "src=" ++ [dq] ++ replace old_filename new_filename g ++ [dq].

(** The loops of a rewriter over the mapping and over the patterns. *)
Definition rewrite_references (patterns : str -> list pattern)
    (repl : str -> str -> str -> str) (content : str)
    (image_mapping : mapping) : str * bool :=
  fold_left
    (fun st '(old_path, new_path) =>
       let old_filename := basename old_path in
       let new_filename := basename new_path in
       fold_left (apply_pattern (repl old_filename new_filename))
                 (patterns old_filename) st)
    image_mapping (content, false).

(** [update_xml_references], on the content of the file: the new content
    and [modified].  The file is written back when [modified] holds. *)
Definition update_xml_references (content : str) (image_mapping : mapping)
  : str * bool :=
  rewrite_references xml_patterns xml_repl content image_mapping.

(** The three [url()] patterns of [update_css_references]. *)
Definition css_patterns (old_filename : str) : list pattern :=
  [ Pattern (lit "url(" ++ [dq]) (Some dq) (slash :: old_filename)
            (dq :: lit ")");
    Pattern (lit "url(" ++ [sq]) (Some sq) (slash :: old_filename)
            (sq :: lit ")");
    Pattern (lit "url(") (Some ")"%char) (slash :: old_filename) (lit ")") ].

(** [lambda m: f'url("{m.group(1).replace(old_filename, new_filename)}")'] *)
Definition css_repl (old_filename new_filename g : str) : str :=
  lit "url(" ++ [dq] ++ replace old_filename new_filename g ++ dq :: lit ")".

Definition update_css_references (content : str) (image_mapping : mapping)
  : str * bool :=
  rewrite_references css_patterns css_repl content image_mapping.

(** ** The manifest *)

(** The attributes of an [<item>] element ([Element.attrib], a [dict]). *)
Abbreviation attrs := (list (str * str)).

(** [d.get(key, default)] *)
Fixpoint dict_get (key default : str) (item : attrs) : str :=
  match item with
  | [] => default
  | (k, v) :: item' => if decide (k = key) then v else dict_get key default item'
  end.

(** [d[key] = value] ([item.set(key, value)] for the attributes of an
    element): an existing key keeps its place, a new one comes last. *)
Fixpoint dict_set (key value : str) (item : attrs) : attrs :=
  match item with
  | [] => [(key, value)]
  | (k, v) :: item' =>
      if decide (k = key) then (k, value) :: item'
      else (k, v) :: dict_set key value item'
  end.

(** The inner loop of [update_opf_manifest] for one item: the first
    mapping entry whose old file name ends [href] rewrites the item, and
    the loop breaks. *)
Fixpoint update_item_with (href media_type : str) (image_mapping : mapping)
    (item : attrs) : attrs * bool :=
  match image_mapping with
  | [] => (item, false)
  | (old_path, new_path) :: rest =>
      if endswith href (basename old_path) then
        let new_href := replace (basename old_path) (basename new_path) href in
        let item := dict_set (lit "href") new_href item in
        let item :=
          if decide (media_type = lit "image/jpeg")
          then dict_set (lit "media-type") (lit "image/png") item else item in
        (item, true)
      else update_item_with href media_type rest item
  end.

Definition update_item (image_mapping : mapping) (item : attrs)
  : attrs * bool :=
  update_item_with (dict_get (lit "href") [] item)
                   (dict_get (lit "media-type") [] item) image_mapping item.

(** [update_opf_manifest], on the items of the manifest found in the
    parsed document: the items after the loop and [modified].  The
    document is written back when [modified] holds. *)
Definition update_opf_manifest (items : list attrs) (image_mapping : mapping)
  : list attrs * bool :=
  (map (fun item => fst (update_item image_mapping item)) items,
   existsb (fun item => snd (update_item image_mapping item)) items).

(** The manifest item of the scenario,
    [<item href="images/cover.jpg" media-type="image/jpeg"/>], and a
    second one whose file name only ends like the mapped one. *)
Definition cover_mapping : mapping :=
  [(lit "images/cover.jpg", lit "images/cover.png")].

Definition cover_item : attrs :=
  [(lit "href", lit "images/cover.jpg"); (lit "media-type", lit "image/jpeg")].

Definition cover_item_rewritten : attrs :=
  [(lit "href", lit "images/cover.png"); (lit "media-type", lit "image/png")].

Definition mycover_item : attrs :=
  [(lit "href", lit "images/mycover.jpg"); (lit "media-type", lit "image/jpeg")].

(** The media type of a rewritten item. *)
Definition retarget (media_type : str) : str :=
  if decide (media_type = lit "image/jpeg") then lit "image/png"
  else media_type.

(** ** References *)

(** Whether a pattern accepts the text [w] found between the delimiters
    of a reference: [w] ends with the body after a star, and is the body
    without one. *)
Definition applies (p : pattern) (w : str) : bool :=
  match star p with
  | Some _ => endswith w (body p)
  | None => bool_decide (w = body p)
  end.

(** How often a character occurs in a text. *)
Definition occ (c : ascii) (s : str) : nat := count_occ Ascii.ascii_dec s c.

(** A [src] attribute with its value [w] between quotes [q], after the
    text [a] and before the text [b]. *)
Definition xml_doc (a : str) (q : ascii) (w b : str) : str :=
  a ++ lit "src=" ++ q :: w ++ q :: b.

(** A [url()] token with its value [w], between quotes or bare. *)
Definition css_doc (a : str) (q : option ascii) (w b : str) : str :=
  a ++ lit "url(" ++
  match q with Some c => c :: w ++ [c] | None => w end ++ lit ")" ++ b.

(** What a mapping entry does to a reference: a value that ends with a
    slash and the old file name gets every occurrence of the old file
    name replaced, and double quotes. *)
Definition ref_step {Q : Type} (double : Q) (st : Q * str) (e : str * str)
  : Q * str :=
  let old_filename := basename e.1 in
  let new_filename := basename e.2 in
  if endswith st.2 (slash :: old_filename)
  then (double, replace old_filename new_filename st.2) else st.

(** The quote characters, and the delimiters of a [url()] token. *)
Definition quotes : list ascii := [dq; sq].
Definition delimiters : list ascii := [dq; sq; "("%char; ")"%char].

Definition free_of (cs : list ascii) (s : str) : Prop :=
  forall c, c ∈ cs -> c ∉ s.

(** The file names of a mapping are not empty and hold no delimiter. *)
Definition clean_names (cs : list ascii) (m : mapping) : Prop :=
  Forall (fun e => basename e.1 <> [] /\ free_of cs (basename e.1) /\
                   free_of cs (basename e.2)) m.

(** No new file name is the old file name of an entry that changes the
    name. *)
Definition closed_mapping (m : mapping) : Prop :=
  forall e e', e ∈ m -> e' ∈ m ->
    basename e.2 = basename e'.1 -> basename e'.2 = basename e'.1.

(** A value on which the replacement of an entry does nothing whenever
    the value ends with a slash and the entry's old file name. *)
Definition settled (old new w : str) : Prop :=
  forall d, w = d ++ slash :: old -> replace old new w = w.


(** Whether the patterns of a mapping entry accept the value [w]: it
    ends with a slash and the old file name. *)
Definition fires (w : str) (e : str * str) : bool :=
  endswith w (slash :: basename e.1).

(** An entry that maps a file name to itself (a PNG source). *)
Definition keeps_name (e : str * str) : Prop := basename e.2 = basename e.1.

(** Every old file name of the mapping is non-empty. *)
Definition named (m : mapping) : Prop :=
  Forall (fun e => basename e.1 <> []) m.

(** The forms of a [url()] token: double-quoted, single-quoted, bare. *)
Definition url_forms : list (option ascii) := [Some dq; Some sq; None].

(** An old file name that ends [href] is its final segment. *)
Definition whole_segment (m : mapping) (href : str) : Prop :=
  forall e, e ∈ m ->
    endswith href (basename e.1) = true -> basename href = basename e.1.

(** A new file name ends only with the old file names of entries that
    keep the name. *)
Definition suffix_closed (m : mapping) : Prop :=
  forall e e', e ∈ m -> e' ∈ m ->
    endswith (basename e.2) (basename e'.1) = true -> keeps_name e'.

(** ** Sample documents *)

(** An [<img>] element with its [src] value between the quotes [q]. *)
Definition img_tag (q : ascii) (value : str) : str :=
  xml_doc (lit "<img ") q value (lit "/>").

(** A [background] declaration with its [url()] value. *)
Definition bg_rule (form : option ascii) (value : str) : str :=
  css_doc (lit "background: ") form value (lit ";").

Definition bg_mapping : mapping :=
  [(lit "images/bg.jpg", lit "images/bg.png")].

(** A mapping whose second entry renames to the old file name of the
    first. *)
Definition chain_mapping : mapping :=
  [(lit "i/b.jpg", lit "i/c.jpg"); (lit "i/a.jpg", lit "i/b.jpg")].

(** A manifest item whose file name has its extension twice, and the
    mapping the image loop builds for it. *)
Definition twice_item : attrs :=
  [(lit "href", lit "g.jpg.jpg"); (lit "media-type", lit "image/jpeg")].

Definition twice_mapping : mapping := [(lit "g.jpg", lit "g.png")].

(** ** Paths *)

(** [name.rfind('.')], as the split of [name] at its last dot: what is
    before the dot, and the rest from the dot on. *)
Fixpoint rsplit_dot (name : str) : option (str * str) :=
  match name with
  | [] => None
  | c :: name' =>
      match rsplit_dot name' with
      | Some (a, b) => Some (c :: a, b)
      | None => if decide (c = "."%char) then Some ([], name) else None
      end
  end.

(** [PurePath.stem] and [PurePath.suffix] of a name: the last dot splits
    the name unless it is its first or its last character. *)
Definition splitext (name : str) : str * str :=
  match rsplit_dot name with
  | Some (a, b) =>
      if bool_decide (a <> [] /\ (1 < length b)%nat) then (a, b) else (name, [])
  | None => (name, [])
  end.

Definition stem (path : str) : str := fst (splitext (basename path)).
Definition suffix (path : str) : str := snd (splitext (basename path)).

(** [str.lower()] on the ASCII letters. *)
Definition lower_char (c : ascii) : ascii :=
  let n := nat_of_ascii c in
  if ((65 <=? n) && (n <=? 90))%nat then ascii_of_nat (n + 32) else c.

Definition lower (s : str) : str := map lower_char s.

(** [path.parent / name], for paths relative to the extraction root. *)
Definition with_name (path name : str) : str :=
  take (length path - length (basename path)) path ++ name.

(** ** The scratch tree *)

(** What [extract_dir.rglob('*')] yields, in its order, with paths
    relative to [extract_dir]: the files with their bytes and the
    directories. *)
Inductive node := File (data : str) | Dir.

Abbreviation tree := (list (str * node)).

Fixpoint lookup_path (path : str) (t : tree) : option node :=
  match t with
  | [] => None
  | (p, n) :: t' => if decide (p = path) then Some n else lookup_path path t'
  end.

(** Writing a file: an existing file is overwritten where it is, a new
    one is added (the place of a new file in the traversal order is the
    file system's choice; the model adds it last). *)
Fixpoint write_file (path : str) (data : str) (t : tree) : tree :=
  match t with
  | [] => [(path, File data)]
  | (p, n) :: t' =>
      if decide (p = path) then (p, File data) :: t'
      else (p, n) :: write_file path data t'
  end.

(** [path.unlink()] *)
Definition unlink (path : str) (t : tree) : tree :=
  filter (fun e => e.1 <> path) t.

(** ** The archive pipeline *)

Inductive event :=
  | ErrorConverting (input_path : str)
  | Converted (old_path new_path : str)
  | NoImagesFound.

Record run_state := RunState {
  scratch : tree;
  image_mapping : mapping;
  log : list event
}.

Definition image_extensions : list str := [lit ".png"; lit ".jpg"; lit ".jpeg"].

(** The path a converted image is written to. *)
Definition png_path (img_file : str) : str :=
  with_name img_file (stem img_file ++ lit ".png").

(** The entries the loop adds have the shape [source -> png_path source]
    for a source with an image extension. *)
Definition pipeline_entry (e : str * str) : Prop :=
  lower (suffix e.1) ∈ image_extensions /\ e.2 = png_path e.1.

(** [create_2bit_grayscale_png]: decode and convert to mode ['L'], dither
    to four levels, encode as PNG.  Decoding and encoding are Pillow's;
    any exception is caught and makes the function print the error and
    return [False] (here [None]). *)
Definition create_2bit_grayscale_png (decode : str -> option image)
    (encode : image -> option str) (data : str) : option str :=
  img ← decode data;
  dithered ← floyd_steinberg_dither img 4;
  encode dithered.

(** [dithered_img.save(output_path, 'PNG', ...)]: the file is opened
    for writing, which raises when there is a directory at
    [output_path], and the bytes replace those of a file that is
    there. *)
Definition save (output_path png : str) (t : tree) : option tree :=
  match lookup_path output_path t with
  | Some Dir => None
  | _ => Some (write_file output_path png t)
  end.

(** The body of the image loop of [process_epub] for one path yielded by
    [rglob].  [convert] is what [create_2bit_grayscale_png] (or
    [create_4bit_grayscale_png] in [reduce.py]) computes from the bytes
    of the file, and [save] writes it to the PNG path.  An exception of
    either is caught in [create_2bit_grayscale_png], which prints the
    error and returns [False]: the image is skipped.  The decoder only
    reads and [save] fails on opening the file, so a conversion that
    fails leaves the tree as it is (an encoder that fails after the file
    is opened is not modelled). *)
Definition convert_image (convert : str -> option str) (st : run_state)
    (img_file : str) : run_state :=
  match lookup_path img_file (scratch st) with
  | Some (File data) =>
      if bool_decide (lower (suffix img_file) ∈ image_extensions) then
        let new_name := stem img_file ++ lit ".png" in
        let new_path := with_name img_file new_name in
        match png ← convert data; save new_path png (scratch st) with
        | Some t =>
            let m := dict_set img_file new_path (image_mapping st) in
            let t := if decide (lower (suffix img_file) <> lit ".png")
                     then unlink img_file t else t in
            RunState t m (log st ++ [Converted img_file new_path])
        | None =>
            RunState (scratch st) (image_mapping st)
                     (log st ++ [ErrorConverting img_file])
        end
      else st
  | _ => st
  end.

(** [for img_file in extract_dir.rglob('*'): ...], over the paths the
    traversal yields. *)
Definition convert_images (convert : str -> option str) (paths : list str)
    (st : run_state) : run_state :=
  fold_left (convert_image convert) paths st.

(** Whether the value of a byte lies between [lo] and [hi]. *)
Definition byte_between (lo hi : nat) (c : ascii) : bool :=
  let n := nat_of_ascii c in ((lo <=? n) && (n <=? hi))%nat.

(** Whether the bytes are well-formed UTF-8, as the strict decoder of
    Python requires: no stray or missing continuation byte, no overlong
    form, no surrogate, nothing beyond U+10FFFF. *)
Fixpoint utf8_valid (s : str) : bool :=
  match s with
  | [] => true
  | c :: s1 =>
      if byte_between 0 127 c then utf8_valid s1
      else
        match s1 with
        | [] => false
        | c1 :: s2 =>
            if byte_between 194 223 c
            then byte_between 128 191 c1 && utf8_valid s2
            else
              match s2 with
              | [] => false
              | c2 :: s3 =>
                  if byte_between 224 239 c then
                    (if byte_between 224 224 c then byte_between 160 191 c1
                     else if byte_between 237 237 c
                          then byte_between 128 159 c1
                          else byte_between 128 191 c1) &&
                    byte_between 128 191 c2 && utf8_valid s3
                  else
                    match s3 with
                    | [] => false
                    | c3 :: s4 =>
                        byte_between 240 244 c &&
                        (if byte_between 240 240 c
                         then byte_between 144 191 c1
                         else if byte_between 244 244 c
                              then byte_between 128 143 c1
                              else byte_between 128 191 c1) &&
                        byte_between 128 191 c2 &&
                        byte_between 128 191 c3 && utf8_valid s4
                    end
              end
        end
  end.

(** The line ends as text mode reads them: a carriage return, with the
    line feed that follows it if there is one, is read as a line
    feed. *)
Fixpoint universal_newlines (s : str) : str :=
  match s with
  | [] => []
  | c :: s' =>
      if decide (c = "013"%char) then
        match s' with
        | c' :: _ =>
            if decide (c' = "010"%char) then universal_newlines s'
            else "010"%char :: universal_newlines s'
        | [] => ["010"%char]
        end
      else c :: universal_newlines s'
  end.

(** [open(file_path, 'r', encoding='utf-8').read()], on the bytes of the
    file: bytes that are not UTF-8 raise [UnicodeDecodeError]. *)
Definition read_text (data : str) : option str :=
  if utf8_valid data then Some (universal_newlines data) else None.

(** A rewriter called on the file at [path].  It works on what [read]
    makes of the bytes of the file; when [read] fails, or when the path
    is a directory, the exception is caught in the rewriter and the file
    is left as it is.  The file is written back when the rewriter
    reports a change (on POSIX, where text mode writes a line feed as it
    is). *)
Definition rewrite_file (read : str -> option str)
    (rewriter : str -> mapping -> str * bool) (m : mapping) (t : tree)
    (path : str) : tree :=
  match lookup_path path t with
  | Some (File data) =>
      match read data with
      | Some content =>
          let '(content, modified) := rewriter content m in
          if modified then write_file path content t else t
      | None => t
      end
  | _ => t
  end.

(** [for file in extract_dir.rglob('*' + ext): rewriter(file, mapping)] *)
Definition rewrite_files (ext : str) (read : str -> option str)
    (rewriter : str -> mapping -> str * bool) (m : mapping) (t : tree)
  : tree :=
  fold_left
    (fun t path =>
       if endswith (basename path) ext
       then rewrite_file read rewriter m t path else t)
    (map fst t) t.

(** [update_opf_manifest] on the bytes of a file, given the XML parser
    and serializer: the items of the manifest, and the document with new
    items.  A document that does not parse, or has no manifest, is left
    as it is. *)
Definition update_opf_file (parse_items : str -> option (list attrs))
    (write_items : str -> list attrs -> str) (data : str) (m : mapping)
  : str * bool :=
  match parse_items data with
  | Some items =>
      let '(items', modified) := update_opf_manifest items m in
      if modified then (write_items data items', true) else (data, false)
  | None => (data, false)
  end.

(** The reference phase of [process_epub] (the one of [epub-2bgs.py],
    which also visits [.htm] files).  The HTML/XHTML and the CSS
    rewriter read the file as text; [ET.parse] reads the bytes. *)
Definition update_references (parse_items : str -> option (list attrs))
    (write_items : str -> list attrs -> str) (m : mapping) (t : tree)
  : tree :=
  match m with
  | [] => t
  | _ :: _ =>
      let t := rewrite_files (lit ".htm") read_text update_xml_references m t in
      let t := rewrite_files (lit ".html") read_text update_xml_references m t in
      let t :=
        rewrite_files (lit ".xhtml") read_text update_xml_references m t in
      let t := rewrite_files (lit ".css") read_text update_css_references m t in
      rewrite_files (lit ".opf") Some
                    (update_opf_file parse_items write_items) m t
  end.

Inductive compression := ZIP_STORED | ZIP_DEFLATED.

Record zip_entry := ZipEntry {
  arcname : str;
  content : str;
  compress_type : compression
}.

(** The repack step: [mimetype] first and stored when it exists at the
    root, then every file whose name is not [mimetype], with the
    archive's compression. *)
Definition repack (t : tree) : list zip_entry :=
  match lookup_path (lit "mimetype") t with
  | Some (File data) => [ZipEntry (lit "mimetype") data ZIP_STORED]
  | Some Dir => [ZipEntry (lit "mimetype/") [] ZIP_STORED]
  | None => []
  end ++
  flat_map
    (fun e =>
       match e.2 with
       | File data =>
           if decide (basename e.1 <> lit "mimetype")
           then [ZipEntry e.1 data ZIP_DEFLATED] else []
       | Dir => []
       end) t.

(** [process_epub] from the extracted tree on: the entries of the new
    archive, with the run state.  [None] stands for a source that does
    not exist or does not unpack, for which the function returns
    [False]. *)
Definition process_epub (convert : str -> option str)
    (parse_items : str -> option (list attrs))
    (write_items : str -> list attrs -> str) (extracted : option tree)
  : option (list zip_entry * run_state) :=
  t ← extracted;
  let st := convert_images convert (map fst t) (RunState t [] []) in
  let st :=
    match image_mapping st with
    | [] => RunState (scratch st) [] (log st ++ [NoImagesFound])
    | _ :: _ => st
    end in
  let t := update_references parse_items write_items (image_mapping st)
             (scratch st) in
  Some (repack t, RunState t (image_mapping st) (log st)).

(** A scratch tree with a second file named [mimetype], in a directory. *)
Definition nested_mimetype_tree : tree :=
  [ (lit "mimetype", File (lit "application/epub+zip"));
    (lit "OEBPS", Dir);
    (lit "OEBPS/mimetype", File (lit "text/plain"));
    (lit "OEBPS/chapter.xhtml", File (lit "<html/>")) ].

(** A scratch tree without [mimetype]. *)
Definition no_mimetype_tree : tree :=
  [ (lit "OEBPS", Dir);
    (lit "OEBPS/chapter.xhtml", File (lit "<html/>")) ].



(** A converter that succeeds on every image; a tree with an image in
    two formats and a page that shows the JPEG; the page's reference
    before and after the rewriting. *)
Definition copying_convert (data : str) : option str := Some data.

Definition jpg_reference : str :=
  lit "src=" ++ [dq] ++ lit "images/a.jpg" ++ [dq].

Definition png_reference : str :=
  lit "src=" ++ [dq] ++ lit "images/a.png" ++ [dq].

Definition two_formats_tree : tree :=
  [ (lit "images/a.jpg", File (lit "jpeg bytes"));
    (lit "images/a.png", File (lit "png bytes"));
    (lit "page.xhtml", File jpg_reference) ].

Definition two_formats_mapping : mapping :=
  [ (lit "images/a.jpg", lit "images/a.png");
    (lit "images/a.png", lit "images/a.png") ].

(** ** Tables for the dithering pass *)

(** The level counts of the bit depths from 1 to 8. *)
Definition level_counts : list Z := map (fun b => 2 ^ Z.of_nat b) (seq 1 8).

(** The weights of the four neighbours. *)
Definition weights : list float := [7; 3; 5; 1]%float.

(** The levels of [N] among the 8-bit values. *)
Definition levels_of (N : Z) : list Z := filter (fun v => is_levelb N v) bytes_range.

(** No 8-bit value makes the first statements of the loop body raise. *)
Definition quantize_total (N : Z) : bool :=
  match quant_step N with
  | Some step =>
      forallb (fun old => match quantize step old with
                          | Some _ => true
                          | None => false
                          end) bytes_range
  | None => false
  end.

(** Every 8-bit value is stored as a level at least as near as any
    other, and the error is the exact difference. *)
Definition nearest_check (N : Z) : bool :=
  let levels := levels_of N in
  match quant_step N with
  | Some step =>
      forallb
        (fun old =>
           match quantize step old with
           | Some (q, error) =>
               is_levelb N q &&
               PrimFloat.Leibniz.eqb error (Py.nearest_float (old - q)) &&
               forallb (fun v => Z.abs (old - q) <=? Z.abs (old - v)) levels
           | None => false
           end) bytes_range
  | None => false
  end.

(** A level is stored as it is, with no error. *)
Definition fixed_check (N : Z) : bool :=
  match quant_step N with
  | Some step =>
      forallb
        (fun v =>
           match quantize step v with
           | Some (q, error) => (q =? v) && PrimFloat.Leibniz.eqb error 0
           | None => false
           end) (levels_of N)
  | None => false
  end.

(** No error, diffused with any of the weights, changes no 8-bit
    value. *)
Definition zero_error_check : bool :=
  forallb (fun p => forallb (fun w => diffused p 0 w =? p) weights)
          bytes_range.

(** A raster that is already dithered to four levels. *)
Definition four_level_raster : image := Image 2 2 [0; 255; 85; 170].

(** The four gray values of a 2-bit image. *)
Definition four_grays : list Z := [0; 85; 170; 255].

(** A decoder and an encoder for the rasters of the examples: the bytes
    of a file are the pixels of one row. *)
Definition row_decode (data : str) : option image :=
  Some (Image (length data) 1 (map (fun c => Z.of_nat (nat_of_ascii c)) data)).

Definition row_encode (img : image) : option str :=
  Some (map (fun v => ascii_of_nat (Z.to_nat v)) (pixels img)).

(** ** The palette of [reduce.py] *)

(** [int(i * 255 / 15)]: the product is an [int] and the quotient a
    float (the true division of two ints below [2 ^ 53] is the division
    of their floats). *)
Definition gray_value (i : Z) : option Z :=
  n ← Py.float_of_int (i * 255);
  d ← Py.float_of_int 15;
  q ← Py.truediv n d;
  Py.int_of_float q.

(** <<
    palette = []
    for i in range(16):
        gray_value = int(i * 255 / 15)
        palette.extend([gray_value, gray_value, gray_value])
    while len(palette) < 768:
        palette.append(0)
>> *)
Definition gray_palette : option (list Z) :=
  palette ←
    for_each (fun palette i =>
                g ← gray_value (Z.of_nat i); Some (palette ++ [g; g; g]))
             [] (seq 0 16);
  Some (palette ++ replicate (768 - length palette) 0).

(** ** [main] *)

(** The counters [successful] and [failed]. *)
Record tally := Tally {
  successful : nat;
  failed : nat
}.

(** The loop of [main] over the paths of the command line.
    [process_epub] acts on the file system [fs] and returns whether it
    succeeded. *)
Definition main_loop {FS : Type} (process_epub : FS -> str -> FS * bool)
    (epubs : list str) (fs : FS) : FS * tally :=
  fold_left
    (fun '(fs, t) epub_path =>
       let '(fs', ok) := process_epub fs epub_path in
       if ok then (fs', Tally (S (successful t)) (failed t))
       else (fs', Tally (successful t) (S (failed t))))
    epubs (fs, Tally 0 0).

(** [main]: the file system after the runs, and the summary, which is
    printed only for more than one path. *)
Definition main {FS : Type} (process_epub : FS -> str -> FS * bool)
    (epubs : list str) (fs : FS) : FS * option tally :=
  let '(fs', t) := main_loop process_epub epubs fs in
  (fs', if (1 <? length epubs)%nat then Some t else None).

(** ** More on the archive pipeline *)

(** The extensions of the files the reference phase of [epub-2bgs.py]
    opens. *)
Definition markup_extensions : list str :=
  [lit ".htm"; lit ".html"; lit ".xhtml"; lit ".css"; lit ".opf"].

(** No other image file of the tree is converted onto the path of the
    image [p] or onto the path of its PNG. *)
Definition undisturbed (p : str) (t : tree) : Prop :=
  forall p' data,
    lookup_path p' t = Some (File data) ->
    lower (suffix p') ∈ image_extensions -> p' <> p ->
    png_path p' <> p /\ png_path p' <> png_path p.

(** A scratch tree with a JPEG, a font and a style sheet. *)
Definition book_tree : tree :=
  [ (lit "mimetype", File (lit "application/epub+zip"));
    (lit "OEBPS/cover.JPG", File (lit "jpeg bytes"));
    (lit "OEBPS/font.ttf", File (lit "font bytes"));
    (lit "OEBPS/toc.ncx", File (lit "src=" ++ [dq] ++ lit "x/cover.JPG" ++ [dq])) ].

(** A scratch tree in which a page and a directory have the stem of an
    image. *)
Definition chapter_tree : tree :=
  [ (lit "mimetype", File (lit "application/epub+zip"));
    (lit "OEBPS/ch1.xhtml", File (lit "<html/>"));
    (lit "OEBPS/ch1.jpg", File (lit "jpeg bytes"));
    (lit "OEBPS/ch1", Dir);
    (lit "OEBPS/ch2.jpg", File (lit "more bytes")) ].


(** A scratch tree with a page that has Windows line ends and a page
    in Latin-1 (the byte 233 is no UTF-8), and the mapping of its
    image. *)
Definition pages_tree : tree :=
  [ (lit "page.xhtml",
     File (lit "<img src=" ++ [dq] ++ lit "images/a.jpg" ++ [dq] ++ lit "/>" ++
           ["013"%char; "010"%char]));
    (lit "latin.html",
     File (lit "<p>caf" ++ ["233"%char] ++ lit "</p><img src=" ++ [dq] ++
           lit "images/a.jpg" ++ [dq] ++ lit "/>")) ].

Definition a_mapping : mapping := [(lit "images/a.jpg", lit "images/a.png")].

(** Whether [sub] occurs in [s]. *)
Fixpoint contains (sub s : str) : bool :=
  startswith sub s ||
  match s with
  | [] => false
  | _ :: s' => contains sub s'
  end.

(** An SVG cover page: the image is referenced by [xlink:href]. *)
Definition svg_cover : str :=
  lit "<image xlink:href=" ++ [dq] ++ lit "images/cover.jpg" ++ [dq] ++ lit "/>".

(** A style sheet that imports another one. *)
Definition import_rule : str :=
  lit "@import " ++ [dq] ++ lit "images/cover.jpg" ++ [dq] ++ lit ";".

(** A manifest item without [href]. *)
Definition nameless_item : attrs :=
  [(lit "id", lit "cover"); (lit "media-type", lit "image/jpeg")].

(** ** The parsed package document *)

(** An [Element] of [xml.etree.ElementTree]: tag, attributes, text, tail
    and children.  The parser gives an element in a namespace the tag
    [{uri}local]; comments and processing instructions are not kept in
    the tree. *)
Inductive element :=
  Element (tag : str) (attrib : attrs) (text tail : option str)
          (children : list element).

Definition tag (e : element) : str :=
  match e with Element t _ _ _ _ => t end.

Definition attrib (e : element) : attrs :=
  match e with Element _ a _ _ _ => a end.

Definition children (e : element) : list element :=
  match e with Element _ _ _ _ cs => cs end.

(** [elem.iter()]: the element and its descendants, in document
    order. *)
Fixpoint iter (e : element) : list element :=
  match e with Element _ _ _ _ cs => e :: flat_map iter cs end.

Definition default_namespace : str := lit "http://www.idpf.org/2007/opf".

(** [s.split('}')[0]] *)
Fixpoint before_brace (s : str) : str :=
  match s with
  | [] => []
  | c :: s' => if decide (c = "}"%char) then [] else c :: before_brace s'
  end.

(** <<
    ns = {'opf': 'http://www.idpf.org/2007/opf'}
    if root.tag.startswith('{'):
        ns_uri = root.tag.split('}')[0][1:]
        ns['opf'] = ns_uri
>> *)
Definition opf_namespace (root_tag : str) : str :=
  if startswith (lit "{") root_tag then drop 1 (before_brace root_tag)
  else default_namespace.

(** The tag a prefixed name stands for in a path: ["{%s}%s" % (uri,
    name)]. *)
Definition qualified (uri name : str) : str :=
  lit "{" ++ uri ++ lit "}" ++ name.

(** Whether the step [//tag] of a path selects an element with the tag
    [el_tag], for a path tag with a fixed local name (ElementPath of
    Python 3.8 and later): [{*}name] selects the name in any namespace
    or in none, [{}name] selects the name in no namespace, and any other
    tag selects itself. *)
Definition selects (path_tag el_tag : str) : bool :=
  if startswith (lit "{*}") path_tag then
    bool_decide (el_tag = drop 3 path_tag) || endswith el_tag (drop 2 path_tag)
  else if startswith (lit "{}") path_tag then
    bool_decide (el_tag = drop 2 path_tag)
  else bool_decide (el_tag = path_tag).

(** [elem.findall('.//tag')]: the descendants that the step selects, in
    document order; [elem.find('.//tag')] is the first of them. *)
Definition findall (path_tag : str) (e : element) : list element :=
  filter (fun d => selects path_tag (tag d)) (flat_map iter (children e)).

Definition find (path_tag : str) (e : element) : option element :=
  head (findall path_tag e).

(** The attributes of the elements of a subtree that [sel] selects,
    rewritten by [f] where they are. *)
Fixpoint update_all (sel : str -> bool) (f : attrs -> attrs) (e : element)
  : element :=
  match e with
  | Element t a tx tl cs =>
      Element t (if sel t then f a else a) tx tl (map (update_all sel f) cs)
  end.

(** The same for the descendants of [e] only. *)
Definition update_below (sel : str -> bool) (f : attrs -> attrs)
    (e : element) : element :=
  match e with
  | Element t a tx tl cs => Element t a tx tl (map (update_all sel f) cs)
  end.

(** The first element, in document order, that the step selects among
    the elements of [l] and their descendants, replaced by [g] of it;
    [below] does this for the descendants of one element. *)
Definition update_first_in (path_tag : str) (g : element -> element)
    (below : element -> option element)
  : list element -> option (list element) :=
  fix go (l : list element) : option (list element) :=
    match l with
    | [] => None
    | c :: l' =>
        if selects path_tag (tag c) then Some (g c :: l')
        else
          match below c with
          | Some c' => Some (c' :: l')
          | None => l'' ← go l'; Some (c :: l'')
          end
    end.

(** The tree in which the first descendant that the step selects is
    [g] of it. *)
Fixpoint update_first (path_tag : str) (g : element -> element) (e : element)
  : option element :=
  match e with
  | Element t a tx tl cs =>
      cs' ← update_first_in path_tag g (update_first path_tag g) cs;
      Some (Element t a tx tl cs')
  end.

(** The tag of the manifest the handler works on: [opf:manifest] when
    the root has such a descendant, or else [manifest].
<<
    manifest = root.find('.//opf:manifest', ns)
    if manifest is None:
        manifest = root.find('.//manifest')
>> *)
Definition manifest_tag (root : element) : str :=
  let ns := opf_namespace (tag root) in
  match find (qualified ns (lit "manifest")) root with
  | Some _ => qualified ns (lit "manifest")
  | None => lit "manifest"
  end.

(** The tag of the items: [opf:item] when the manifest has such a
    descendant, or else [item].
<<
    manifest.findall('.//opf:item', ns) or manifest.findall('.//item')
>> *)
Definition item_tag (root manifest : element) : str :=
  let ns := opf_namespace (tag root) in
  match findall (qualified ns (lit "item")) manifest with
  | [] => lit "item"
  | _ :: _ => qualified ns (lit "item")
  end.

(** [update_opf_manifest] on the parsed document: every item of the
    manifest is rewritten where it is.  The result is the document after
    the loop and [modified]; without a manifest the function returns
    [False]. *)
Definition update_opf_tree (root : element) (image_mapping : mapping)
  : element * bool :=
  match find (manifest_tag root) root with
  | None => (root, false)
  | Some manifest =>
      let items := findall (item_tag root manifest) manifest in
      let modified :=
        existsb (fun item => snd (update_item image_mapping (attrib item)))
                items in
      let rewritten :=
        update_first (manifest_tag root)
          (update_below (selects (item_tag root manifest))
             (fun a => fst (update_item image_mapping a)))
          root in
      (default root rewritten, modified)
  end.

(** The document without the values of its attributes. *)
Fixpoint outline (e : element) : element :=
  match e with
  | Element t a tx tl cs =>
      Element t (map (fun kv => (kv.1, [])) a) tx tl (map outline cs)
  end.

(** A package document: metadata, a manifest with two items, a spine. *)
Definition opf (name : string) : str := qualified default_namespace (lit name).

Definition sample_manifest : element :=
  Element (opf "manifest") [] None None
    [ Element (opf "item")
        [(lit "id", lit "cover"); (lit "href", lit "images/cover.jpg");
         (lit "media-type", lit "image/jpeg")] None None [];
      Element (opf "item")
        [(lit "id", lit "ch1"); (lit "href", lit "ch1.xhtml");
         (lit "media-type", lit "application/xhtml+xml")] None None [] ].

Definition sample_package : element :=
  Element (opf "package") [(lit "version", lit "2.0")] None None
    ([ Element (opf "metadata") [] None None
         [ Element (opf "meta")
             [(lit "name", lit "cover"); (lit "content", lit "images/cover.jpg")]
             None None [] ] ]
     ++ sample_manifest ::
     [ Element (opf "spine") [] None None
         [ Element (opf "itemref") [(lit "idref", lit "ch1")] None None [] ] ]).
(** ** Documents with several references *)

(** A reference of a document: the text that leads to it, its delimiter
    (the quote of a [src] attribute; the quote of a [url()] token, if
    it has one) and its value. *)
Record reference (Q : Type) := Reference {
  lead : str;
  delim : Q;
  value : str
}.

Arguments Reference {Q} _ _ _.
Arguments lead {Q} _.
Arguments delim {Q} _.
Arguments value {Q} _.

(** [src="..."] and [src='...'] *)
Definition src_attribute (q : ascii) (w : str) : str :=
  lit "src=" ++ q :: w ++ [q].

(** [url("...")], [url('...')] and [url(...)] *)
Definition url_token (q : option ascii) (w : str) : str :=
  lit "url(" ++
  match q with Some c => c :: w ++ [c] | None => w end ++ lit ")".

(** What stands between the parentheses of a [url()] token. *)
Definition inner_of (form : option ascii) (w : str) : str :=
  match form with Some c => c :: w ++ [c] | None => w end.

(** The loops of the two rewriters over the mapping and the patterns, on
    the content alone. *)
Definition xml_pass (m : mapping) (content : str) : str :=
  fold_left
    (fun content e =>
       fold_left
         (fun content p =>
            re_sub p (xml_repl (basename e.1) (basename e.2)) content)
         (xml_patterns (basename e.1)) content)
    m content.

Definition css_pass (m : mapping) (content : str) : str :=
  fold_left
    (fun content e =>
       fold_left
         (fun content p =>
            re_sub p (css_repl (basename e.1) (basename e.2)) content)
         (css_patterns (basename e.1)) content)
    m content.

(** A document cut at its references: every reference after its lead,
    and the text after the last one. *)
Definition render {Q : Type} (token : Q -> str -> str)
    (refs : list (reference Q)) (tail : str) : str :=
  flat_map (fun r => lead r ++ token (delim r) (value r)) refs ++ tail.

Definition xml_text : list (reference ascii) -> str -> str :=
  render src_attribute.

Definition css_text : list (reference (option ascii)) -> str -> str :=
  render url_token.

(** A text in which no [src] attribute, and no [url()] token, starts. *)
Definition src_free (t : str) : Prop :=
  forall q, q ∈ quotes -> contains (lit "src=" ++ [q]) t = false.

Definition url_free (t : str) : Prop := contains (lit "url(") t = false.

(** The references of a document are all its references ([src=] and a
    quote, [url(]) start nowhere else), and their values are
    well-formed: no quote in the value of an attribute, which does not
    end with [src=] either; no quote and no parenthesis in the value of
    a [url()] token. *)
Definition well_formed_src (r : reference ascii) : Prop :=
  src_free (lead r) /\ delim r ∈ quotes /\ free_of quotes (value r) /\
  endswith (value r) (lit "src=") = false.

Definition well_formed_url (r : reference (option ascii)) : Prop :=
  url_free (lead r) /\ delim r ∈ url_forms /\ free_of delimiters (value r).

(** No new file name ends with [src=]. *)
Definition plain_names (m : mapping) : Prop :=
  Forall (fun e => endswith (basename e.2) (lit "src=") = false) m.

(** What the entries of a mapping do, in turn, to a reference. *)
Definition rewritten {Q : Type} (double : Q) (m : mapping)
    (r : reference Q) : reference Q :=
  let st := fold_left (ref_step double) m (delim r, value r) in
  Reference (lead r) st.1 st.2.

(** The rule of the rewriters for one reference [r], rewritten to [r']:
    the first entry of the mapping whose old file name is the final
    segment of the value, after a directory and a slash, renames the
    file (in the directory too) and puts double quotes; a value that no
    entry accepts, as a bare file name, is kept. *)
Definition rewrite_rule {Q : Type} (double : Q) (m : mapping)
    (r r' : reference Q) : Prop :=
  lead r' = lead r /\
  (forall before old_path new_path after dir,
     m = before ++ (old_path, new_path) :: after ->
     value r = dir ++ slash :: basename old_path ->
     Forall (fun e => basename e.1 <> basename old_path) before ->
     Forall (fun e => basename e.1 = basename new_path -> keeps_name e)
            after ->
     delim r' = double /\
     value r' = replace (basename old_path) (basename new_path) dir
                  ++ slash :: basename new_path) /\
  (Forall (fun e => fires (value r) e = false) m ->
     delim r' = delim r /\ value r' = value r) /\
  (slash ∉ value r -> delim r' = delim r /\ value r' = value r).

(** A page with two images and an [alt] text, and a style sheet with two
    rules. *)
Definition two_images : list (reference ascii) :=
  [ Reference (lit "<img alt=" ++ [dq] ++ lit "cover" ++ [dq] ++ lit " ")
              sq (lit "../images/cover.jpg");
    Reference (lit "/><img ") dq (lit "images/cover.jpg") ].

Definition two_images_rewritten : list (reference ascii) :=
  [ Reference (lit "<img alt=" ++ [dq] ++ lit "cover" ++ [dq] ++ lit " ")
              dq (lit "../images/cover.png");
    Reference (lit "/><img ") dq (lit "images/cover.png") ].

Definition two_rules : list (reference (option ascii)) :=
  [ Reference (lit "h1 { content: " ++ [dq] ++ lit "(1)" ++ [dq] ++
               lit "; background: ")
              None (lit "../images/bg.jpg");
    Reference (lit "; } h2 { background: ") (Some sq) (lit "images/bg.jpg") ].

Definition two_rules_rewritten : list (reference (option ascii)) :=
  [ Reference (lit "h1 { content: " ++ [dq] ++ lit "(1)" ++ [dq] ++
               lit "; background: ")
              (Some dq) (lit "../images/bg.png");
    Reference (lit "; } h2 { background: ") (Some dq) (lit "images/bg.png") ].

(** What a mapping of the image loop does to a reference [r], rewritten
    to [r']: nothing, or some entry renames the file at the end of the
    value, and then only entries that keep the name accept the new
    value. *)
Definition renamed_by {Q : Type} (double : Q) (m : mapping)
    (r r' : reference Q) : Prop :=
  r' = r \/
  exists o n dir,
    (o, n) ∈ m /\
    value r = dir ++ slash :: basename o /\
    r' = Reference (lead r) double
           (replace (basename o) (basename n) dir ++ slash :: basename n) /\
    forall e, e ∈ m -> fires (value r') e = true -> keeps_name e.

(** Attributes and tokens that are not well-formed: a value that ends
    with [src=], a value that holds the other quote, a value that holds
    a parenthesis; and a mapping of two images. *)
Definition src_in_value : str :=
  lit "<img src=" ++ [dq] ++ lit "x/src=" ++ [dq] ++ lit "y/cover.jpg" ++
  [dq] ++ lit "/>".

Definition quote_in_value : str :=
  lit "<img src=" ++ [sq] ++ lit "x/b.jpg" ++ [dq] ++ lit "y/a.jpg" ++ [sq] ++
  lit "/>".

(** An attribute before a text that ends like one, and a mapping whose
    first new file name ends with [src=]. *)
Definition src_in_name : str :=
  lit "<img src=" ++ [dq] ++ lit "x/a.jpg" ++ [dq] ++ lit "y/b.jpg" ++ [dq] ++
  lit "/>".

Definition src_mapping : mapping :=
  [(lit "i/a.jpg", lit "i/zsrc="); (lit "i/b.jpg", lit "i/b.png")].

Definition paren_in_value : str := lit "a { background: url(y(1)/bg.jpg); }".

Definition quote_in_url : str :=
  lit "a { background: url(" ++ [sq] ++ lit "x/b.jpg" ++ [dq] ++
  lit ")y/a.jpg" ++ [sq] ++ lit "); }".

Definition ba_mapping : mapping :=
  [(lit "i/b.jpg", lit "i/b.png"); (lit "i/a.jpg", lit "i/a.png")].
(** ** Facts about the float helpers *)

Section FloatFacts.

Lemma digits2_pos_bound (m : positive) :
  Z.pos m < 2 ^ Z.pos (digits2_pos m).
Proof.
  induction m as [m IH | m IH |]; simpl digits2_pos;
    rewrite ?Pos2Z.inj_succ, ?Z.pow_succ_r by lia; lia.
Qed.

Lemma valid_mantissa_bound s m e :
  valid_binary (S754_finite s m e) = true -> Z.pos m < 2 ^ 53.
Proof.
  unfold valid_binary, bounded, canonical_mantissa, fexp.
  intros [Hc _]%andb_true_iff. apply Z.eqb_eq in Hc.
  pose proof (digits2_pos_bound m) as Hm.
  assert (Z.pos (digits2_pos m) <= 53) as Hd by (unfold prec in Hc; lia).
  eapply Z.lt_le_trans; [exact Hm|].
  apply Z.pow_le_mono_r; lia.
Qed.

(** The clamp really clamps, whatever float it is given. *)
Lemma clamp_int_range (v : float) : 0 <= Py.clamp_int v <= 255.
Proof.
  unfold Py.clamp_int.
  destruct (v <? 255)%float eqn:Hlt; [|lia].
  destruct (0 <? v)%float eqn:Hgt; [|simpl; lia].
  rewrite ltb_spec in Hlt, Hgt.
  pose proof (Prim2SF_valid v) as Hv.
  unfold Py.int_of_float.
  replace (Prim2SF 255) with (S754_finite false 8972014882652160 (-45)) in Hlt
    by (vm_compute; reflexivity).
  replace (Prim2SF 0) with (S754_zero false) in Hgt by (vm_compute; reflexivity).
  destruct (Prim2SF v) as [s | s | | s m e]; cbn [from_option id];
    [lia | lia | lia |].
  destruct s; [discriminate Hgt|].
  apply valid_mantissa_bound in Hv.
  unfold SFltb, SFcompare in Hlt.
  assert (e < -45 \/ e = -45 /\ Z.pos m < 8972014882652160) as He.
  { destruct (Z.compare_spec e (-45)); try discriminate Hlt; [right|left; lia].
    split; [lia|]. rewrite Pos.compare_cont_spec in Hlt.
    cbn [Pos.switch_Eq] in Hlt.
    destruct (Pos.compare_spec m 8972014882652160) as [Hm|Hm|Hm];
      try discriminate. exact Hm. }
  clear Hlt Hgt.
  assert ((0 <=? e) = false) as -> by lia. cbn [Py.signed].
  assert (0 < 2 ^ (- e)) by (apply Z.pow_pos_nonneg; lia).
  split; [apply Z.div_pos; lia|].
  apply Z.lt_succ_r, Z.div_lt_upper_bound; [lia|].
  destruct He as [He | [-> Hm]].
  - assert (2 ^ 46 <= 2 ^ (- e)) by (apply Z.pow_le_mono_r; lia).
    replace (2 ^ 53) with (2 ^ 46 * 128) in Hv by (vm_compute; reflexivity).
    assert (0 < 2 ^ 46) by (apply Z.pow_pos_nonneg; lia).
    nia.
  - replace (2 ^ (- (-45))) with 35184372088832 by (vm_compute; reflexivity). lia.
Qed.

End FloatFacts.

(** ** Pixel access *)

Section Raster.

Implicit Types (img : image) (w h x y : nat) (v : Z).

Lemma index_bound w h x y :
  (x < w)%nat -> (y < h)%nat -> (index w x y < w * h)%nat.
Proof. unfold index. nia. Qed.

Lemma index_inj w x y x' y' :
  (x < w)%nat -> (x' < w)%nat ->
  index w x y = index w x' y' -> x = x' /\ y = y'.
Proof.
  unfold index. intros Hx Hx' Heq.
  assert (y = y') as ->; [|lia].
  destruct (Nat.lt_trichotomy y y') as [Hlt | [-> | Hlt]]; [|done|].
  - assert ((y + 1) * w <= y' * w)%nat by (apply Nat.mul_le_mono_r; lia). lia.
  - assert ((y' + 1) * w <= y * w)%nat by (apply Nat.mul_le_mono_r; lia). lia.
Qed.

(** Every cell of a raster of the stated size has coordinates. *)
Lemma index_surj w h j :
  (j < w * h)%nat ->
  exists x y, (x < w)%nat /\ (y < h)%nat /\ index w x y = j.
Proof.
  intros Hj. assert (w <> 0)%nat as Hw by lia.
  exists (j mod w)%nat, (j / w)%nat. unfold index.
  split; [by apply Nat.mod_upper_bound|].
  split; [apply Nat.Div0.div_lt_upper_bound; lia|].
  rewrite (Nat.div_mod_eq j w) at 3. lia.
Qed.

Lemma width_putpixel img x y v : width (putpixel img x y v) = width img.
Proof. reflexivity. Qed.

Lemma height_putpixel img x y v : height (putpixel img x y v) = height img.
Proof. reflexivity. Qed.

Lemma length_putpixel img x y v :
  length (pixels (putpixel img x y v)) = length (pixels img).
Proof. apply length_insert. Qed.

Lemma getpixel_putpixel img a b v x y :
  getpixel (putpixel img a b v) x y =
    if decide (index (width img) a b = index (width img) x y /\
               (index (width img) a b < length (pixels img))%nat)
    then v else getpixel img x y.
Proof.
  unfold getpixel, putpixel; cbn. rewrite list_lookup_insert.
  by case_decide.
Qed.

Lemma width_diffuse img x y e k : width (diffuse img x y e k) = width img.
Proof. reflexivity. Qed.

Lemma height_diffuse img x y e k : height (diffuse img x y e k) = height img.
Proof. reflexivity. Qed.

Lemma length_diffuse img x y e k :
  length (pixels (diffuse img x y e k)) = length (pixels img).
Proof. apply length_insert. Qed.

(** A neighbour update changes the one cell it addresses. *)
Lemma getpixel_diffuse img a b e k x y :
  getpixel (diffuse img a b e k) x y =
    if decide (index (width img) a b = index (width img) x y /\
               (index (width img) a b < length (pixels img))%nat)
    then diffused (getpixel img x y) e k else getpixel img x y.
Proof.
  unfold diffuse. rewrite getpixel_putpixel.
  case_decide as Hd; [|done]. unfold getpixel. by destruct Hd as [-> _].
Qed.

End Raster.

Section Visit.

Variables (step : float) (img : image).
Hypothesis Hsize : length (pixels img) = (width img * height img)%nat.

(** Peel the updates of one visit off a pixel read, newest first. *)
Local Ltac peel :=
  repeat
    (first [rewrite getpixel_diffuse | rewrite getpixel_putpixel];
     rewrite ?width_diffuse, ?width_putpixel, ?length_diffuse,
       ?length_putpixel;
     unfold index;
     first [rewrite decide_True by lia | rewrite decide_False by lia]).

Lemma visit_spec x y img' :
  (x < width img)%nat -> (y < height img)%nat ->
  visit step (width img) (height img) img x y = Some img' ->
  exists q error,
    quantize step (getpixel img x y) = Some (q, error) /\
    width img' = width img /\ height img' = height img /\
    length (pixels img') = length (pixels img) /\
    forall x' y', (x' < width img)%nat -> (y' < height img)%nat ->
      getpixel img' x' y' = visited_value img x y q error x' y'.
Proof.
  intros Hx Hy. unfold visit.
  destruct (quantize step (getpixel img x y)) as [[q error]|]; [|done].
  cbn [mbind option_bind]. intros [= <-]. exists q, error.
  split; [done|].
  assert (y * width img + width img <= width img * height img)%nat by nia.
  destruct (Nat.ltb_spec (x + 1) (width img)),
           (Nat.ltb_spec (y + 1) (height img)),
           (Nat.ltb_spec 0 x);
    (split; [done|]); (split; [done|]);
    (split; [by rewrite ?length_diffuse, ?length_putpixel|]);
    intros x' y' Hx' Hy';
    assert (y' < y /\ y' * width img + width img <= y * width img \/
            y' = y \/ y' = y + 1 \/
            y + 1 < y' /\ y * width img + 2 * width img <= y' * width img)%nat
      as Hcases by nia;
    assert (y' * width img + width img <= width img * height img)%nat by nia;
    unfold visited_value;
    destruct Hcases as [[? ?] | [-> | [-> | [? ?]]]];
    repeat (case_decide; try (exfalso; lia)); peel; reflexivity.
Qed.

End Visit.

(** ** Loops *)

Lemma for_each_seq_inv {S : Type} (I : nat -> S -> Prop)
    (body : S -> nat -> option S) (n start : nat) (s : S) :
  I start s ->
  (forall k s, (start <= k < start + n)%nat -> I k s ->
     exists s', body s k = Some s' /\ I (Datatypes.S k) s') ->
  exists s', for_each body s (seq start n) = Some s' /\ I (start + n)%nat s'.
Proof.
  revert start s. induction n as [|n IH]; intros start s Hs Hbody.
  - exists s. by rewrite Nat.add_0_r.
  - destruct (Hbody start s) as (s1 & Hs1 & HI1); [lia|done|].
    destruct (IH (Datatypes.S start) s1) as (s2 & Hs2 & HI2); [done| |].
    + intros k s' Hk. apply Hbody. lia.
    + exists s2. cbn. rewrite Hs1. cbn.
      by replace (start + Datatypes.S n)%nat with (Datatypes.S start + n)%nat by lia.
Qed.

(** ** The quantization table *)

Lemma is_levelb_sound N v : is_levelb N v = true -> is_level N v.
Proof.
  unfold is_levelb, is_level. rewrite existsb_exists.
  intros (k & Hk & Heq). apply in_map_iff in Hk as (i & <- & Hi).
  apply in_seq in Hi. exists (Z.of_nat i). split; lia.
Qed.

Lemma quantize_table : forallb quantize_check good_levels = true.
Proof. vm_compute. reflexivity. Qed.

Lemma bytes_range_spec v : 0 <= v <= 255 -> In v bytes_range.
Proof.
  intros Hv. unfold bytes_range. apply in_map_iff.
  exists (Z.to_nat v). split; [lia|]. apply in_seq. lia.
Qed.

Lemma quantize_levels N :
  In N good_levels ->
  exists step, quant_step N = Some step /\
    forall old, 0 <= old <= 255 ->
      exists q error, quantize step old = Some (q, error) /\ is_level N q.
Proof.
  intros HN. pose proof quantize_table as Ht.
  rewrite forallb_forall in Ht. specialize (Ht N HN).
  unfold quantize_check in Ht.
  destruct (quant_step N) as [step|]; [|done]. exists step. split; [done|].
  intros old Hold. rewrite forallb_forall in Ht.
  specialize (Ht old (bytes_range_spec old Hold)).
  destruct (quantize step old) as [[q error]|]; [|done].
  exists q, error. split; [done|]. by apply is_levelb_sound.
Qed.

(** The level counts with an integral step are the divisors of 255 plus
    one. *)
Lemma divisor_levels N : 2 <= N -> (N - 1 | 255) -> In N good_levels.
Proof.
  intros HN Hdiv.
  assert (N - 1 <= 255) by (apply Z.divide_pos_le; [lia|done]).
  apply Z.mod_divide in Hdiv; [|lia].
  assert (forallb (fun n => implb (255 mod (n - 1) =? 0)
                              (existsb (Z.eqb n) good_levels))
            (map Z.of_nat (seq 2 255)) = true) as Hall
    by (vm_compute; reflexivity).
  rewrite forallb_forall in Hall. specialize (Hall N).
  rewrite (proj2 (Z.eqb_eq _ _) Hdiv) in Hall. cbn [implb] in Hall.
  apply existsb_exists in Hall as (n & Hn & ->%Z.eqb_eq); [done|].
  apply in_map_iff. exists (Z.to_nat N). split; [lia|]. apply in_seq. lia.
Qed.

Lemma quantize_range step old q error :
  quantize step old = Some (q, error) -> 0 <= q <= 255.
Proof.
  unfold quantize. intros Hq.
  destruct (Py.truediv _ step); [|done]. cbn in Hq.
  destruct (Py.round _); [|done]. cbn in Hq.
  destruct (Py.float_of_int _); [|done]. cbn in Hq.
  injection Hq as <- _. apply clamp_int_range.
Qed.

Lemma diffused_range p error k : 0 <= diffused p error k <= 255.
Proof. apply clamp_int_range. Qed.

(** ** The dithering pass *)

Section Dither.

Variables (N : Z) (step : float) (img0 : image).
Local Abbreviation w := (width img0).
Local Abbreviation h := (height img0).
Local Abbreviation dither_inv := (dither_inv N img0).

Hypothesis Hquant : forall old, 0 <= old <= 255 ->
  exists q error, quantize step old = Some (q, error) /\ is_level N q.

Lemma visit_inv img x y :
  (x < w)%nat -> (y < h)%nat ->
  dither_inv (index w x y) img ->
  exists img', visit step w h img x y = Some img' /\
               dither_inv (Datatypes.S (index w x y)) img'.
Proof.
  intros Hx Hy (Hw & Hh & Hlen & Hrange & Hlev).
  destruct (Hquant (getpixel img x y)) as (q & error & Hq & Hql);
    [by apply Hrange|].
  assert (visit step w h img x y = Some
            (match visit step w h img x y with Some i => i | None => img end))
    as Hv by (unfold visit; rewrite Hq; reflexivity).
  eexists. split; [exact Hv|].
  rewrite <- Hw, <- Hh in Hv.
  apply visit_spec in Hv as (q' & error' & Hq' & Hw' & Hh' & Hlen' & Hval);
    [|lia|lia|lia].
  rewrite Hq in Hq'. injection Hq' as <- <-.
  rewrite Hw, Hh in *.
  split_and!; [congruence..| |].
  - intros x' y' Hx' Hy'. rewrite Hval by lia.
    unfold visited_value. repeat case_decide;
      eauto using quantize_range, diffused_range.
  - intros x' y' Hx' Hy'. rewrite Hval by lia.
    unfold visited_value.
    intros Hidx. unfold index in Hidx.
    repeat case_decide; destruct_and?; subst; try done; try lia.
    apply Hlev; [done..|].
    assert (index w x' y' <> index w x y)
      by (intros [? ?]%index_inj; [lia|done..]).
    unfold index in *. lia.
Qed.

Lemma row_inv img y :
  (y < h)%nat -> dither_inv (y * w) img ->
  exists img',
    for_each (fun img x => visit step w h img x y) img (seq 0 w) = Some img' /\
    dither_inv (Datatypes.S y * w) img'.
Proof.
  intros Hy Hinv.
  destruct (for_each_seq_inv (fun x => dither_inv (index w x y))
              (fun img x => visit step w h img x y) w 0 img)
    as (img' & Hrun & Hinv').
  - unfold index. by rewrite Nat.add_0_r.
  - intros x img1 Hx Hinv1.
    destruct (visit_inv img1 x y) as (img2 & Hv & Hinv2); [lia|done..|].
    exists img2. split; [done|].
    unfold index in *. by rewrite Nat.add_succ_r.
  - exists img'. split; [done|].
    unfold index in Hinv'. by replace (Datatypes.S y * w)%nat with (y * w + (0 + w))%nat by lia.
Qed.

Lemma rows_inv :
  dither_inv 0 img0 ->
  exists img',
    for_each (fun img y =>
                for_each (fun img x => visit step w h img x y) img (seq 0 w))
      img0 (seq 0 h) = Some img' /\
    dither_inv (h * w) img'.
Proof.
  intros Hinv.
  apply (for_each_seq_inv (fun y => dither_inv (y * w))); [done|].
  intros y img Hy Himg. apply row_inv; [lia|done].
Qed.

End Dither.

(** ** The levels of the dithered raster *)

Lemma dither_inv_start N img : wf_image img -> dither_inv N img 0 img.
Proof.
  intros [Hlen Hrange]. split_and!; [done..| |].
  - intros x y Hx Hy. unfold getpixel.
    destruct (pixels img !! index (width img) x y) as [v|] eqn:Hv; [|done].
    by apply (proj1 (Forall_lookup _ _) Hrange _ _ Hv).
  - intros x y _ _ Hlt. lia.
Qed.

Lemma dither_inv_end N img0 img :
  dither_inv N img0 (height img0 * width img0) img ->
  Forall (is_level N) (pixels img).
Proof.
  intros (Hw & Hh & Hlen & _ & Hlev). apply Forall_lookup. intros j v Hj.
  assert (j < width img0 * height img0)%nat as Hlt
    by (rewrite <- Hlen; by eapply lookup_lt_Some).
  destruct (index_surj _ _ _ Hlt) as (x & y & Hx & Hy & <-).
  specialize (Hlev x y Hx Hy). unfold getpixel in Hlev.
  rewrite Hw, Hj in Hlev. apply Hlev. lia.
Qed.

(** A visit leaves the pixels before the visited one, in row-major
    order, as they are. *)
Lemma visit_earlier step img x y img' x' y' :
  length (pixels img) = (width img * height img)%nat ->
  (x < width img)%nat -> (y < height img)%nat ->
  visit step (width img) (height img) img x y = Some img' ->
  (x' < width img)%nat -> (y' < height img)%nat ->
  (index (width img) x' y' < index (width img) x y)%nat ->
  getpixel img' x' y' = getpixel img x' y'.
Proof.
  intros Hlen Hx Hy Hv Hx' Hy' Hlt.
  apply visit_spec in Hv as (q & error & _ & _ & _ & _ & Hval); [|done..].
  rewrite Hval by done. unfold visited_value, index in *.
  repeat case_decide; destruct_and?; subst; try done; lia.
Qed.

(** C1 (as amended).  For an 8-bit raster and a level count [N >= 2]
    whose step [255 / (N - 1)] is an integer, the pass returns, without
    an exception, a raster of the same shape all of whose pixels are in
    the set [{0, step, 2 * step, ..., 255}]; and a visit never changes
    a pixel that comes before the visited one in row-major order, so a
    pixel keeps the value it got when it was visited. *)
Theorem dither_levels (img : image) (N : Z) :
  wf_image img -> 2 <= N -> (N - 1 | 255) ->
  (exists img',
     floyd_steinberg_dither img N = Some img' /\
     width img' = width img /\ height img' = height img /\
     length (pixels img') = length (pixels img) /\
     Forall (is_level N) (pixels img')) /\
  (forall step x y img' x' y',
     (x < width img)%nat -> (y < height img)%nat ->
     visit step (width img) (height img) img x y = Some img' ->
     (x' < width img)%nat -> (y' < height img)%nat ->
     (index (width img) x' y' < index (width img) x y)%nat ->
     getpixel img' x' y' = getpixel img x' y').
Proof.
  intros Hwf HN Hdiv. split.
  - destruct (quantize_levels N (divisor_levels N HN Hdiv))
      as (step & Hstep & Hquant).
    destruct (rows_inv N step img Hquant (dither_inv_start N img Hwf))
      as (img' & Hrun & Hinv).
    exists img'. unfold floyd_steinberg_dither. rewrite Hstep. cbn.
    split; [exact Hrun|].
    pose proof (dither_inv_end _ _ _ Hinv) as Hall.
    destruct Hinv as (Hw & Hh & Hlen & _). destruct Hwf as [Hlen0 _].
    split_and!; [done|done|congruence|done].
  - intros step x y img' x' y' Hx Hy Hv Hx' Hy' Hlt.
    destruct Hwf as [Hlen _].
    exact (visit_earlier step img x y img' x' y' Hlen Hx Hy Hv Hx' Hy' Hlt).
Qed.

Lemma dither_levels_witness :
  exists img',
    floyd_steinberg_dither (Image 2 2 [10; 200; 90; 30]) 4 = Some img' /\
    Forall (is_level 4) (pixels img').
Proof.
  destruct (dither_levels (Image 2 2 [10; 200; 90; 30]) 4)
    as [(img' & Hrun & _ & _ & _ & Hall) _].
  - split; [reflexivity|]. repeat constructor; cbn; lia.
  - lia.
  - exists 85. reflexivity.
  - exists img'. split; assumption.
Defined.

(** C1 as stated fails for three levels: the middle level is 127.5 and
    the raster stores 127. *)
Lemma dither_three_levels_counterexample :
  wf_image (Image 1 1 [100]) /\
  floyd_steinberg_dither (Image 1 1 [100]) 3 = Some (Image 1 1 [127]) /\
  ~ is_level 3 127.
Proof.
  split; [|split].
  - split; [reflexivity|]. repeat constructor; cbn; lia.
  - vm_compute. reflexivity.
  - intros (k & _ & Hk). lia.
Qed.

(** ** Error diffusion *)

(** C2 (as amended).  A visit at [(x, y)] stores the quantized value
    there and replaces the value [p] of each in-bounds neighbour by
    [int(max(0, min(255, p + error * w / 16)))] with [w] = 7 (right),
    3 (below-left), 5 (below), 1 (below-right): the sum is clamped to
    [0, 255] and truncated to an integer.  The weights add up to one.
    A neighbour outside the raster is skipped and the weights of the
    others stay as they are; no other pixel changes. *)
Theorem visit_diffusion (step : float) (img img' : image) (x y : nat) :
  length (pixels img) = (width img * height img)%nat ->
  (x < width img)%nat -> (y < height img)%nat ->
  visit step (width img) (height img) img x y = Some img' ->
  exists q error,
    quantize step (getpixel img x y) = Some (q, error) /\
    getpixel img' x y = q /\
    ((x + 1 < width img)%nat ->
       getpixel img' (x + 1) y =
         Py.clamp_int
           (Py.nearest_float (getpixel img (x + 1) y) + error * 7 / 16)%float) /\
    ((y + 1 < height img)%nat -> (0 < x)%nat ->
       getpixel img' (x - 1) (y + 1) =
         Py.clamp_int
           (Py.nearest_float (getpixel img (x - 1) (y + 1)) + error * 3 / 16)%float) /\
    ((y + 1 < height img)%nat ->
       getpixel img' x (y + 1) =
         Py.clamp_int
           (Py.nearest_float (getpixel img x (y + 1)) + error * 5 / 16)%float) /\
    ((y + 1 < height img)%nat -> (x + 1 < width img)%nat ->
       getpixel img' (x + 1) (y + 1) =
         Py.clamp_int
           (Py.nearest_float (getpixel img (x + 1) (y + 1)) + error * 1 / 16)%float) /\
    (forall x' y', (x' < width img)%nat -> (y' < height img)%nat ->
       ~ In (x', y') [(x, y); (x + 1, y); (x - 1, y + 1); (x, y + 1);
                      (x + 1, y + 1)]%nat ->
       getpixel img' x' y' = getpixel img x' y') /\
    (forall v, 0 <= Py.clamp_int v <= 255) /\
    (7 / 16 + 3 / 16 + 5 / 16 + 1 / 16 = 1)%float.
Proof.
  intros Hlen Hx Hy Hv.
  apply visit_spec in Hv as (q & error & Hq & _ & _ & _ & Hval); [|done..].
  exists q, error. split; [done|].
  split_and!.
  - rewrite Hval by done. unfold visited_value.
    by rewrite decide_True.
  - intros ?. rewrite Hval by lia. unfold visited_value.
    rewrite decide_False by lia. by rewrite decide_True.
  - intros ? ?. rewrite Hval by lia. unfold visited_value.
    rewrite !decide_False by lia. by rewrite decide_True by lia.
  - intros ?. rewrite Hval by lia. unfold visited_value.
    rewrite !decide_False by lia. by rewrite decide_True.
  - intros ? ?. rewrite Hval by lia. unfold visited_value.
    rewrite !decide_False by lia. by rewrite decide_True.
  - intros x' y' Hx' Hy' Hnot. rewrite Hval by done. unfold visited_value.
    cbn [In] in Hnot.
    repeat case_decide; try done; destruct_and?; subst; exfalso;
      apply Hnot; auto 7.
    do 2 right. left. f_equal. lia.
  - apply clamp_int_range.
  - reflexivity.
Qed.

Lemma visit_diffusion_witness :
  exists q error,
    quantize 85 (getpixel sample_raster 1 0) = Some (q, error) /\
    getpixel sample_visited 2 0 =
      Py.clamp_int
        (Py.nearest_float (getpixel sample_raster 2 0) + error * 7 / 16)%float.
Proof.
  destruct (visit_diffusion 85 sample_raster sample_visited 1 0)
    as (q & error & Hq & _ & Hright & _).
  - reflexivity.
  - cbn. lia.
  - cbn. lia.
  - vm_compute. reflexivity.
  - exists q, error. split; [exact Hq|]. apply Hright. cbn. lia.
Defined.

(** C2 as stated fails: with all four neighbours in the raster and a
    rounding delta of 1, no neighbour receives anything, because each
    increment is truncated away. *)
Lemma visit_truncates_counterexample :
  quant_step 4 = Some 85%float /\
  quantize 85 1 = Some (0, 1%float) /\
  visit 85 3 2 sample_raster 1 0 = Some sample_visited /\
  getpixel sample_visited 2 0 - getpixel sample_raster 2 0 +
  (getpixel sample_visited 0 1 - getpixel sample_raster 0 1) +
  (getpixel sample_visited 1 1 - getpixel sample_raster 1 1) +
  (getpixel sample_visited 2 1 - getpixel sample_raster 2 1) = 0.
Proof. repeat split; vm_compute; reflexivity. Qed.

(** ** Facts about the string helpers *)

(** A character is not in a literal. *)
Ltac not_in_literal :=
  let H := fresh in
  intros H; vm_compute in H;
  repeat (apply elem_of_cons in H as [H|H]; [done|]);
  by apply elem_of_nil in H.

(** A character is in a literal. *)
Ltac in_literal := vm_compute; repeat first [by left | right].

Section Strings.

Implicit Types (s p r old new : str) (c : ascii).

Lemma strip_prefix_spec p s r : strip_prefix p s = Some r <-> s = p ++ r.
Proof.
  revert s. induction p as [|a p IH]; intros [|b s]; cbn.
  - split; congruence.
  - split; congruence.
  - split; [done|discriminate].
  - case_decide as Hab; [subst b|]; rewrite ?IH; split; congruence.
Qed.

Lemma strip_prefix_app p r : strip_prefix p (p ++ r) = Some r.
Proof. by apply strip_prefix_spec. Qed.

Lemma startswith_spec p s : startswith p s = true <-> exists r, s = p ++ r.
Proof.
  revert s. induction p as [|a p IH]; intros [|b s]; cbn.
  - split; [by exists []|done].
  - split; [by eexists|done].
  - split; [done|by intros [r Hr]].
  - case_decide as Hab; [subst b|].
    + rewrite IH. split; intros [r Hr]; exists r; congruence.
    + split; [done|]. intros [r Hr]. congruence.
Qed.

Lemma startswith_app p r : startswith p (p ++ r) = true.
Proof. apply startswith_spec. by exists r. Qed.

Lemma endswith_spec s suffix :
  endswith s suffix = true <-> exists r, s = r ++ suffix.
Proof.
  unfold endswith. rewrite startswith_spec. split; intros [r Hr].
  - exists (rev r). apply (f_equal (@rev ascii)) in Hr.
    by rewrite rev_involutive, rev_app_distr, rev_involutive in Hr.
  - exists (rev r). by rewrite Hr, rev_app_distr.
Qed.

(** A literal without slash that starts [P ++ "/" ++ ...] lies in [P]. *)
Lemma prefix_before_slash old p r :
  slash ∉ old -> (exists t, p ++ slash :: r = old ++ t) ->
  exists p', p = old ++ p'.
Proof.
  revert p. induction old as [|a old IH]; intros p Hns [t Ht].
  - by exists p.
  - destruct p as [|b p]; cbn in Ht.
    + injection Ht as <- _. exfalso. apply Hns. by left.
    + injection Ht as -> Ht. destruct (IH p) as [p' ->].
      * intros Hin. apply Hns. by right.
      * by exists t.
      * by exists p'.
Qed.

Lemma replace_from_skip old new k s :
  replace_from old new k s = replace_from old new 0 (drop k s).
Proof.
  revert k. induction s as [|c s IH]; intros [|k]; try done.
  cbn [replace_from drop]. apply IH.
Qed.

Lemma replace_from_match old new r :
  old <> [] ->
  replace_from old new 0 (old ++ r) = new ++ replace_from old new 0 r.
Proof.
  intros Hold. destruct old as [|a old]; [done|].
  change ((a :: old) ++ r) with (a :: (old ++ r)). cbn [replace_from].
  change (a :: old ++ r) with ((a :: old) ++ r). rewrite startswith_app.
  rewrite replace_from_skip.
  replace (length (a :: old) - 1)%nat with (length old) by (cbn; lia).
  by rewrite drop_app_length.
Qed.

Lemma replace_from_no_match old new c s :
  startswith old (c :: s) = false ->
  replace_from old new 0 (c :: s) = c :: replace_from old new 0 s.
Proof. intros Hno. cbn [replace_from]. by rewrite Hno. Qed.

(** Replacing in [P ++ "/" ++ old] replaces in [P] and turns the final
    segment into [new]. *)
Lemma replace_from_segment old new p :
  old <> [] -> slash ∉ old ->
  replace_from old new 0 (p ++ slash :: old) =
    replace_from old new 0 p ++ slash :: new.
Proof.
  intros Hold Hns.
  induction p as [p IH] using (induction_ltof1 _ (@length ascii)).
  unfold ltof in IH.
  destruct (startswith old (p ++ slash :: old)) eqn:Hsw.
  - apply startswith_spec in Hsw as [t Ht].
    destruct (prefix_before_slash old p old Hns) as [p' ->]; [by exists t|].
    rewrite <- app_assoc, !replace_from_match by done.
    rewrite IH, app_assoc; [done|].
    rewrite length_app. destruct old; [done|cbn; lia].
  - destruct p as [|c p].
    + cbn [app] in *. rewrite replace_from_no_match by done.
      rewrite <- (app_nil_r old) at 2. rewrite replace_from_match by done.
      by rewrite app_nil_r.
    + cbn [app] in *. rewrite replace_from_no_match by done.
      rewrite IH by (cbn; lia).
      destruct (startswith old (c :: p)) eqn:Hsw'.
      * apply startswith_spec in Hsw' as [t Ht].
        assert (startswith old (c :: p ++ slash :: old) = true) as Hyes; [|congruence].
        apply startswith_spec. exists (t ++ slash :: old).
        change (c :: p ++ slash :: old) with ((c :: p) ++ slash :: old).
        by rewrite Ht, <- app_assoc.
      * by rewrite replace_from_no_match.
Qed.

Lemma replace_segment old new p :
  old <> [] -> slash ∉ old ->
  replace old new (p ++ slash :: old) = replace old new p ++ slash :: new.
Proof.
  intros Hold Hns. unfold replace. destruct old as [|a old]; [done|].
  by apply replace_from_segment.
Qed.

Lemma replace_whole old new : old <> [] -> replace old new old = new.
Proof.
  intros Hold. unfold replace. destruct old as [|a old]; [done|].
  rewrite <- (app_nil_r (a :: old)) at 2.
  rewrite replace_from_match by done. apply app_nil_r.
Qed.

(** Replacing a name by itself changes nothing. *)
Lemma replace_from_same old s : old <> [] -> replace_from old old 0 s = s.
Proof.
  intros Hold.
  induction s as [s IH] using (induction_ltof1 _ (@length ascii)).
  unfold ltof in IH. destruct s as [|c s]; [done|].
  destruct (startswith old (c :: s)) eqn:Hsw.
  - apply startswith_spec in Hsw as [t Ht]. rewrite Ht.
    rewrite replace_from_match by done. rewrite IH; [done|].
    rewrite Ht, length_app. destruct old; [done|cbn; lia].
  - rewrite replace_from_no_match by done. rewrite IH by (cbn; lia). done.
Qed.

Lemma replace_same old s : old <> [] -> replace old old s = s.
Proof.
  intros Hold. unfold replace. destruct old as [|a old]; [done|].
  by apply replace_from_same.
Qed.

(** The characters of a replacement come from the text or from [new]. *)
Lemma replace_from_chars old new k s c :
  c ∈ replace_from old new k s -> c ∈ s \/ c ∈ new.
Proof.
  revert k. induction s as [|a s IH]; intros k; cbn [replace_from].
  - by left.
  - destruct k as [|k].
    + destruct (startswith old (a :: s)).
      * intros [Hin|Hin]%elem_of_app; [by right|].
        destruct (IH _ Hin); [left; by right|by right].
      * intros [->|Hin]%elem_of_cons; [left; by left|].
        destruct (IH _ Hin); [left; by right|by right].
    + intros Hin. destruct (IH _ Hin); [left; by right|by right].
Qed.

Lemma replace_chars old new s c :
  c ∈ replace old new s -> c ∈ s \/ c ∈ new.
Proof.
  unfold replace. destruct old as [|a old]; [|apply replace_from_chars].
  intros [Hin|Hin]%elem_of_app; [by right|].
  apply list_elem_of_In, in_flat_map in Hin as (b & Hb & Hin).
  apply list_elem_of_In in Hin, Hb.
  apply elem_of_cons in Hin as [->|Hin]; [by left|by right].
Qed.

Lemma basename_no_slash p : slash ∉ basename p.
Proof.
  induction p as [|c p IH]; cbn; [by intros ?%elem_of_nil|].
  case_bool_decide as Hin; [done|].
  case_decide; [done|]. intros [?|?]%elem_of_cons; [congruence|done].
Qed.

Lemma basename_segment p f : slash ∉ f -> basename (p ++ slash :: f) = f.
Proof.
  intros Hf. induction p as [|c p IH]; cbn.
  - rewrite bool_decide_eq_false_2 by done. by rewrite decide_True.
  - rewrite bool_decide_eq_true_2; [done|].
    apply elem_of_app. right. by left.
Qed.

Lemma basename_bare f : slash ∉ f -> basename f = f.
Proof.
  intros Hf. destruct f as [|c f]; [done|]. cbn.
  rewrite bool_decide_eq_false_2 by (intros ?; apply Hf; by right).
  rewrite decide_False; [done|]. intros ->. apply Hf. by left.
Qed.

End Strings.

(** ** Facts about dictionaries *)

Section Attrs.

Implicit Types (item : attrs) (k v d : str).

Lemma dict_get_set_eq k v d item : dict_get k d (dict_set k v item) = v.
Proof.
  induction item as [|[k' v'] item IH]; cbn.
  - by rewrite decide_True.
  - case_decide; cbn; [by rewrite decide_True|by rewrite decide_False].
Qed.

Lemma dict_get_set_ne k k' v d item :
  k' <> k -> dict_get k' d (dict_set k v item) = dict_get k' d item.
Proof.
  intros Hne. induction item as [|[k0 v0] item IH]; cbn.
  - by rewrite decide_False.
  - case_decide; cbn; [subst k0|].
    + by rewrite !decide_False.
    + case_decide; [done|apply IH].
Qed.

(** An assignment keeps the keys and their order, and appends a new
    key at the end. *)
Lemma dict_set_keys k v item :
  map fst (dict_set k v item) =
    if bool_decide (k ∈ map fst item) then map fst item
    else map fst item ++ [k].
Proof.
  induction item as [|[k0 v0] item IH]; cbn [dict_set map fst].
  - by rewrite bool_decide_eq_false_2 by (by intros ?%elem_of_nil).
  - destruct (decide (k0 = k)) as [->|Hne]; cbn [map fst].
    + by rewrite bool_decide_eq_true_2 by (by left).
    + rewrite IH. case_bool_decide as Hin.
      * by rewrite bool_decide_eq_true_2 by (by right).
      * rewrite bool_decide_eq_false_2; [done|].
        intros [?|?]%elem_of_cons; [congruence|done].
Qed.

End Attrs.

(** ** The manifest rewriter *)

Lemma update_item_with_first href media_type before old_path new_path after
    item :
  Forall (fun e => endswith href (basename e.1) = false) before ->
  endswith href (basename old_path) = true ->
  update_item_with href media_type (before ++ (old_path, new_path) :: after)
      item =
    (let item1 :=
       dict_set (lit "href")
         (replace (basename old_path) (basename new_path) href) item in
     if decide (media_type = lit "image/jpeg")
     then dict_set (lit "media-type") (lit "image/png") item1 else item1,
     true).
Proof.
  intros Hbefore Hends.
  induction Hbefore as [|[o n] before Ho _ IH]; cbn [app update_item_with].
  - by rewrite Hends.
  - cbn [fst] in Ho. by rewrite Ho.
Qed.

Lemma update_item_with_none href media_type image_mapping item :
  Forall (fun e => endswith href (basename e.1) = false) image_mapping ->
  update_item_with href media_type image_mapping item = (item, false).
Proof.
  induction 1 as [|[o n] rest Ho _ IH]; cbn [update_item_with]; [done|].
  cbn [fst] in Ho. by rewrite Ho.
Qed.

(** C5 (as amended).  The scenario item becomes
    [<item href="images/cover.png" media-type="image/png"/>].  In
    general the first mapping entry whose old file name ends [href]
    rewrites the item: every occurrence of the old file name in [href]
    is replaced by the new one, so that a [href] made of a directory,
    a slash and the old file name (or of the old file name alone) gets
    the new file name as its final segment; [media-type] becomes
    [image/png] exactly when it was [image/jpeg]; every other attribute
    keeps its value.  An item whose [href] ends with no old file name is
    left as it is. *)
Theorem manifest_rewrite :
  update_opf_manifest [cover_item] cover_mapping
    = ([cover_item_rewritten], true) /\
  (forall before old_path new_path after item,
     let href := dict_get (lit "href") [] item in
     let old_filename := basename old_path in
     let new_filename := basename new_path in
     let item' :=
       fst (update_item (before ++ (old_path, new_path) :: after) item) in
     Forall (fun e => endswith href (basename e.1) = false) before ->
     endswith href old_filename = true ->
     snd (update_item (before ++ (old_path, new_path) :: after) item) = true /\
     dict_get (lit "href") [] item' = replace old_filename new_filename href /\
     dict_get (lit "media-type") [] item'
       = retarget (dict_get (lit "media-type") [] item) /\
     (forall k d, k <> lit "href" -> k <> lit "media-type" ->
        dict_get k d item' = dict_get k d item) /\
     (old_filename <> [] ->
        (forall dir, href = dir ++ slash :: old_filename ->
           replace old_filename new_filename href
             = replace old_filename new_filename dir ++ slash :: new_filename /\
           basename (replace old_filename new_filename href) = new_filename) /\
        (href = old_filename ->
           replace old_filename new_filename href = new_filename))) /\
  (forall image_mapping item,
     Forall (fun e =>
               endswith (dict_get (lit "href") [] item) (basename e.1) = false)
            image_mapping ->
     update_item image_mapping item = (item, false)).
Proof.
  split_and!.
  - vm_compute. reflexivity.
  - intros before old_path new_path after item href old_filename new_filename
      item' Hbefore Hends.
    subst item'. unfold update_item.
    rewrite (update_item_with_first _ _ _ _ _ _ _ Hbefore Hends).
    cbn [fst snd]. fold href old_filename new_filename. unfold retarget.
    split_and!.
    + done.
    + case_decide.
      * by rewrite dict_get_set_ne, dict_get_set_eq.
      * by rewrite dict_get_set_eq.
    + case_decide as Hm.
      * by rewrite dict_get_set_eq.
      * by rewrite dict_get_set_ne.
    + intros k d Hk1 Hk2. case_decide; by rewrite !dict_get_set_ne.
    + intros Hold. split.
      * intros dir ->.
        assert (slash ∉ old_filename) as Hns by apply basename_no_slash.
        rewrite replace_segment by done. split; [done|].
        apply basename_segment, basename_no_slash.
      * intros ->. by apply replace_whole.
  - intros image_mapping item Hnone. by apply update_item_with_none.
Qed.

Lemma manifest_rewrite_witness :
  dict_get (lit "href") []
    (fst (update_item ([] ++ (lit "images/cover.jpg", lit "images/cover.png")
                          :: []) cover_item))
    = replace (basename (lit "images/cover.jpg"))
              (basename (lit "images/cover.png"))
              (dict_get (lit "href") [] cover_item).
Proof.
  destruct manifest_rewrite as (_ & Hmatch & _).
  destruct (Hmatch [] (lit "images/cover.jpg") (lit "images/cover.png") []
              cover_item) as (_ & Hhref & _).
  - constructor.
  - vm_compute. reflexivity.
  - exact Hhref.
Defined.

(** C5 as stated fails when [href] only ends with the old file name: the
    final segment [mycover.jpg] is not rewritten to the new file name
    [cover.png]. *)
Lemma manifest_suffix_counterexample :
  endswith (dict_get (lit "href") [] mycover_item)
           (basename (lit "images/cover.jpg")) = true /\
  dict_get (lit "href") [] (fst (update_item cover_mapping mycover_item))
    = lit "images/mycover.png" /\
  basename (lit "images/mycover.png") <> basename (lit "images/cover.png").
Proof. split_and!; [vm_compute; reflexivity..|vm_compute; discriminate]. Qed.

(** ** The repack step *)

Section Repack.

Implicit Types (t : tree) (e : zip_entry).

(** The entries written by the loop over the tree. *)
Lemma repack_others_spec t e :
  e ∈ flat_map
        (fun e0 : str * node =>
           match e0.2 with
           | File data =>
               if decide (basename e0.1 <> lit "mimetype")
               then [ZipEntry e0.1 data ZIP_DEFLATED] else []
           | Dir => []
           end) t <->
  exists data, (arcname e, File data) ∈ t /\
    basename (arcname e) <> lit "mimetype" /\
    e = ZipEntry (arcname e) data ZIP_DEFLATED.
Proof.
  rewrite list_elem_of_In, in_flat_map. split.
  - intros ([p [data|]] & Hin & He); cbn in He; [|done].
    case_decide as Hname; [|done].
    destruct He as [<-|[]]. cbn. exists data.
    split; [by apply list_elem_of_In|done].
  - intros (data & Hin & Hname & He). exists (arcname e, File data).
    split; [by apply list_elem_of_In|]. cbn.
    rewrite decide_True by done. left. by symmetry.
Qed.

Lemma repack_head_names t e :
  e ∈ match lookup_path (lit "mimetype") t with
      | Some (File data) => [ZipEntry (lit "mimetype") data ZIP_STORED]
      | Some Dir => [ZipEntry (lit "mimetype/") [] ZIP_STORED]
      | None => []
      end ->
  arcname e = lit "mimetype" \/ arcname e = lit "mimetype/".
Proof.
  destruct (lookup_path _ t) as [[data|]|].
  - intros ->%list_elem_of_singleton. by left.
  - intros ->%list_elem_of_singleton. by right.
  - by intros ?%elem_of_nil.
Qed.

End Repack.

(** C10.  A file of the scratch tree named [mimetype] in some directory
    is in no entry of the new archive; the [mimetype] file at the root
    is the first entry, stored, and every entry after it is compressed
    and has another name. *)
Theorem repack_excludes_mimetype_names (t : tree) :
  (forall path data,
     (path, File data) ∈ t ->
     basename path = lit "mimetype" -> path <> lit "mimetype" ->
     forall e, e ∈ repack t -> arcname e <> path) /\
  (forall data,
     lookup_path (lit "mimetype") t = Some (File data) ->
     exists rest,
       repack t = ZipEntry (lit "mimetype") data ZIP_STORED :: rest /\
       Forall (fun e => compress_type e = ZIP_DEFLATED /\
                        basename (arcname e) <> lit "mimetype") rest).
Proof.
  split.
  - intros path data Hin Hname Hroot e He Heq. unfold repack in He.
    apply elem_of_app in He as [He|He].
    + apply repack_head_names in He as [He|He]; [congruence|].
      rewrite <- Heq, He in Hname. vm_compute in Hname. discriminate.
    + apply repack_others_spec in He as (d & _ & Hne & _). congruence.
  - intros data Hlook. unfold repack. rewrite Hlook. eexists. split; [done|].
    apply Forall_forall. intros e He.
    apply repack_others_spec in He as (d & _ & Hne & ->). done.
Qed.

Lemma repack_excludes_mimetype_names_witness :
  Forall (fun e => arcname e <> lit "OEBPS/mimetype")
         (repack nested_mimetype_tree).
Proof.
  destruct (repack_excludes_mimetype_names nested_mimetype_tree) as [Hex _].
  apply Forall_forall. intros e He.
  apply (Hex (lit "OEBPS/mimetype") (lit "text/plain")).
  - do 2 right. left.
  - vm_compute. reflexivity.
  - vm_compute. discriminate.
  - exact He.
Defined.

(** C4, on a tree with a second file named [mimetype]: the file
    [OEBPS/mimetype] of the scratch tree is written to no entry of the
    new archive.  The rest is as C4 says: [mimetype] comes first and
    stored, the other files follow compressed, and a tree without
    [mimetype] is repacked without that entry. *)
Theorem repack_drops_nested_mimetype :
  (lit "OEBPS/mimetype", File (lit "text/plain")) ∈ nested_mimetype_tree /\
  repack nested_mimetype_tree =
    [ ZipEntry (lit "mimetype") (lit "application/epub+zip") ZIP_STORED;
      ZipEntry (lit "OEBPS/chapter.xhtml") (lit "<html/>") ZIP_DEFLATED ] /\
  repack no_mimetype_tree =
    [ ZipEntry (lit "OEBPS/chapter.xhtml") (lit "<html/>") ZIP_DEFLATED ].
Proof.
  split_and!.
  - do 2 right. left.
  - vm_compute. reflexivity.
  - vm_compute. reflexivity.
Qed.

(** ** The scratch tree and the mapping *)

Section Tree.

Implicit Types (t : tree) (p q : str) (d : mapping).

Lemma lookup_write_file_ne p q data t :
  p <> q -> lookup_path p (write_file q data t) = lookup_path p t.
Proof.
  intros Hne. induction t as [|[p0 n0] t IH]; cbn.
  - by rewrite decide_False.
  - destruct (decide (p0 = q)) as [->|Hq]; cbn.
    + by rewrite !decide_False.
    + by rewrite IH.
Qed.

Lemma lookup_unlink_ne p q t :
  p <> q -> lookup_path p (unlink q t) = lookup_path p t.
Proof.
  intros Hne. unfold unlink. induction t as [|[p0 n0] t IH]; [done|].
  rewrite filter_cons. cbn [fst lookup_path].
  destruct (decide (p0 <> q)) as [Hq|Hq]; cbn [lookup_path].
  - by rewrite IH.
  - apply dec_stable in Hq as ->. by rewrite decide_False.
Qed.

Lemma dict_set_NoDup k v d :
  NoDup (map fst d) -> NoDup (map fst (dict_set k v d)).
Proof.
  intros Hd. rewrite dict_set_keys. case_bool_decide as Hin; [done|].
  apply NoDup_app. split_and!; [done| |apply NoDup_singleton].
  intros x Hx ->%list_elem_of_singleton. done.
Qed.

Lemma dict_set_elem k v d o n :
  (o, n) ∈ dict_set k v d -> (o, n) = (k, v) \/ (o, n) ∈ d.
Proof.
  induction d as [|[k0 v0] d IH]; cbn.
  - intros ->%list_elem_of_singleton. by left.
  - case_decide.
    + intros [->|?]%elem_of_cons; [left; congruence|right; by right].
    + intros [->|Hin]%elem_of_cons; [right; by left|].
      destruct (IH Hin); [by left|right; by right].
Qed.

End Tree.

Section TreeMore.

Implicit Types (t : tree) (p q : str) (d : mapping).

Lemma lookup_write_file_eq p data t :
  lookup_path p (write_file p data t) = Some (File data).
Proof.
  induction t as [|[p0 n0] t IH]; cbn.
  - by rewrite decide_True.
  - destruct (decide (p0 = p)) as [->|Hq]; cbn.
    + by rewrite decide_True.
    + by rewrite decide_False.
Qed.

Lemma lookup_unlink_eq p t : lookup_path p (unlink p t) = None.
Proof.
  unfold unlink. induction t as [|[p0 n0] t IH]; [done|].
  rewrite filter_cons. cbn [fst].
  destruct (decide (p0 <> p)) as [Hq|Hq]; [|done].
  cbn [lookup_path]. by rewrite decide_False.
Qed.

Lemma lookup_path_elem p n t : lookup_path p t = Some n -> (p, n) ∈ t.
Proof.
  induction t as [|[p0 n0] t IH]; [done|]. cbn.
  case_decide as Hp.
  - intros [= ->]. subst. by left.
  - intros Hl. right. by apply IH.
Qed.

Lemma lookup_path_None p t : lookup_path p t = None <-> p ∉ map fst t.
Proof.
  induction t as [|[p0 n0] t IH]; cbn.
  - split; [intros _ []%elem_of_nil|done].
  - case_decide as Hp.
    + subst. split; [done|]. intros Hn. exfalso. apply Hn. by left.
    + rewrite IH. split.
      * intros Hn [?|?]%elem_of_cons; [congruence|done].
      * intros Hn Hin. apply Hn. by right.
Qed.

Lemma lookup_path_in p n t : lookup_path p t = Some n -> p ∈ map fst t.
Proof.
  intros Hl. destruct (decide (p ∈ map fst t)) as [|Hn]; [done|].
  apply lookup_path_None in Hn. congruence.
Qed.

Lemma write_file_paths p data t :
  p ∈ map fst t -> map fst (write_file p data t) = map fst t.
Proof.
  induction t as [|[p0 n0] t IH]; cbn.
  - by intros ?%elem_of_nil.
  - intros Hin. case_decide as Hp; [done|]. cbn. f_equal. apply IH.
    apply elem_of_cons in Hin as [?|?]; [congruence|done].
Qed.

Lemma dict_set_elem_eq k v d : (k, v) ∈ dict_set k v d.
Proof.
  induction d as [|[k0 v0] d IH]; cbn.
  - by left.
  - case_decide; [subst; by left|by right].
Qed.

Lemma dict_set_elem_ne k v d o n :
  o <> k -> (o, n) ∈ d -> (o, n) ∈ dict_set k v d.
Proof.
  intros Hne. induction d as [|[k0 v0] d IH]; cbn.
  - by intros ?%elem_of_nil.
  - case_decide.
    + intros [?|?]%elem_of_cons; [congruence|by right].
    + intros [->|?]%elem_of_cons; [by left|right; by apply IH].
Qed.

End TreeMore.

(** ** The image loop *)

Section Images.

Variable convert : str -> option str.

Implicit Types (st : run_state) (p q : str) (t : tree).

Lemma save_Some output_path png t t' :
  save output_path png t = Some t' <->
  lookup_path output_path t <> Some Dir /\ t' = write_file output_path png t.
Proof.
  unfold save. destruct (lookup_path output_path t) as [[data|]|];
    split; (intros [= <-] || intros [Hdir ->]); done.
Qed.

Lemma save_None output_path png t :
  save output_path png t = None <-> lookup_path output_path t = Some Dir.
Proof.
  unfold save. by destruct (lookup_path output_path t) as [[data|]|].
Qed.

(** A conversion fails when the bytes do not convert or when there is a
    directory at the PNG path. *)
Lemma convert_image_fail st p data :
  lookup_path p (scratch st) = Some (File data) ->
  lower (suffix p) ∈ image_extensions ->
  convert data = None \/ lookup_path (png_path p) (scratch st) = Some Dir ->
  convert_image convert st p =
    RunState (scratch st) (image_mapping st) (log st ++ [ErrorConverting p]).
Proof.
  intros Hlook Hext Hfail. unfold convert_image.
  rewrite Hlook, bool_decide_eq_true_2 by done. fold (png_path p).
  destruct Hfail as [->|Hdir]; [done|].
  destruct (convert data) as [png|]; [|done]. cbn [mbind option_bind].
  by rewrite (proj2 (save_None _ _ _) Hdir).
Qed.

Lemma convert_image_ok st p data png :
  lookup_path p (scratch st) = Some (File data) ->
  lower (suffix p) ∈ image_extensions ->
  convert data = Some png ->
  lookup_path (png_path p) (scratch st) <> Some Dir ->
  convert_image convert st p =
    RunState
      (let t := write_file (png_path p) png (scratch st) in
       if decide (lower (suffix p) <> lit ".png") then unlink p t else t)
      (dict_set p (png_path p) (image_mapping st))
      (log st ++ [Converted p (png_path p)]).
Proof.
  intros Hl Hext Hc Hdir. unfold convert_image. rewrite Hl.
  rewrite bool_decide_eq_true_2 by done. rewrite Hc. fold (png_path p).
  cbn [mbind option_bind].
  by rewrite (proj2 (save_Some _ _ _ _) (conj Hdir eq_refl)).
Qed.

Lemma convert_image_skip st p :
  lower (suffix p) ∉ image_extensions -> convert_image convert st p = st.
Proof.
  intros Hext. unfold convert_image.
  destruct (lookup_path p (scratch st)) as [[data|]|]; [|done..].
  by rewrite bool_decide_eq_false_2.
Qed.

(** The three outcomes of a step of the loop: the path is skipped, the
    conversion fails, the conversion succeeds. *)
Lemma convert_image_cases st p :
  convert_image convert st p = st \/
  (exists data,
     lookup_path p (scratch st) = Some (File data) /\
     lower (suffix p) ∈ image_extensions /\
     (convert data = None \/
      lookup_path (png_path p) (scratch st) = Some Dir) /\
     convert_image convert st p =
       RunState (scratch st) (image_mapping st)
                (log st ++ [ErrorConverting p])) \/
  (exists data png,
     lookup_path p (scratch st) = Some (File data) /\
     lower (suffix p) ∈ image_extensions /\
     convert data = Some png /\
     lookup_path (png_path p) (scratch st) <> Some Dir /\
     convert_image convert st p =
       RunState
         (let t := write_file (png_path p) png (scratch st) in
          if decide (lower (suffix p) <> lit ".png") then unlink p t else t)
         (dict_set p (png_path p) (image_mapping st))
         (log st ++ [Converted p (png_path p)])).
Proof.
  destruct (lookup_path p (scratch st)) as [[data|]|] eqn:Hl;
    [|left; unfold convert_image; by rewrite Hl..].
  destruct (decide (lower (suffix p) ∈ image_extensions)) as [Hext|Hext];
    [|left; by apply convert_image_skip].
  right. destruct (convert data) as [png|] eqn:Hc.
  - assert (lookup_path (png_path p) (scratch st) = Some Dir \/
            lookup_path (png_path p) (scratch st) <> Some Dir) as [Hdir|Hdir]
      by (destruct (lookup_path (png_path p) (scratch st)) as [[d|]|];
          (by left) || (by right)).
    + left. exists data. split_and!; [done|done|by right|].
      apply (convert_image_fail st p data); [done|done|by right].
    + right. exists data, png. split_and!; [done..|].
      by apply (convert_image_ok st p data png).
  - left. exists data. split_and!; [done|done|by left|].
    apply (convert_image_fail st p data); [done|done|by left].
Qed.



Lemma convert_image_NoDup st p :
  NoDup (map fst (image_mapping st)) ->
  NoDup (map fst (image_mapping (convert_image convert st p))).
Proof.
  intros Hnd.
  destruct (convert_image_cases st p)
    as [-> | [(data & _ & _ & _ & ->) | (data & png & _ & _ & _ & _ & ->)]];
    cbn [image_mapping]; [done..|].
  by apply dict_set_NoDup.
Qed.

Lemma convert_images_NoDup paths st :
  NoDup (map fst (image_mapping st)) ->
  NoDup (map fst (image_mapping (convert_images convert paths st))).
Proof.
  revert st. induction paths as [|p paths IH]; intros st Hnd; [done|].
  cbn. by apply IH, convert_image_NoDup.
Qed.

Lemma convert_image_entries st p :
  Forall pipeline_entry (image_mapping st) ->
  Forall pipeline_entry (image_mapping (convert_image convert st p)).
Proof.
  intros Hall.
  destruct (convert_image_cases st p)
    as [-> | [(data & _ & _ & _ & ->) | (data & png & _ & Hext & _ & _ & ->)]];
    cbn [image_mapping]; [done..|].
  apply Forall_forall. intros [o n] Hin.
  apply dict_set_elem in Hin as [[= -> ->]|Hin].
  - by split.
  - by apply (proj1 (Forall_forall _ _) Hall).
Qed.

Lemma convert_images_entries paths st :
  Forall pipeline_entry (image_mapping st) ->
  Forall pipeline_entry (image_mapping (convert_images convert paths st)).
Proof.
  revert st. induction paths as [|p paths IH]; intros st Hall; [done|].
  cbn. by apply IH, convert_image_entries.
Qed.

(** A step of the loop touches the file it converts and the file it
    writes, and no other. *)
Lemma convert_image_lookup_other st p q :
  q <> p -> q <> png_path p ->
  lookup_path q (scratch (convert_image convert st p))
    = lookup_path q (scratch st).
Proof.
  intros Hp Hpng.
  destruct (convert_image_cases st p)
    as [-> | [(data & _ & _ & _ & ->) | (data & png & _ & _ & _ & _ & ->)]];
    cbn [scratch]; [done..|].
  case_decide.
  - rewrite lookup_unlink_ne by done. by apply lookup_write_file_ne.
  - by apply lookup_write_file_ne.
Qed.

Lemma convert_images_lookup_other paths st q :
  q ∉ paths -> Forall (fun p => png_path p <> q) paths ->
  lookup_path q (scratch (convert_images convert paths st))
    = lookup_path q (scratch st).
Proof.
  revert st. induction paths as [|p paths IH]; intros st Hq Hpng; [done|].
  apply not_elem_of_cons in Hq as [Hne Hq].
  apply Forall_cons in Hpng as [Hp Hpng].
  change (convert_images convert (p :: paths) st)
    with (convert_images convert paths (convert_image convert st p)).
  rewrite IH by done. by apply convert_image_lookup_other.
Qed.

Lemma convert_images_app l1 l2 st :
  convert_images convert (l1 ++ l2) st
    = convert_images convert l2 (convert_images convert l1 st).
Proof. apply fold_left_app. Qed.

Lemma convert_images_cons p paths st :
  convert_images convert (p :: paths) st
    = convert_images convert paths (convert_image convert st p).
Proof. reflexivity. Qed.

Lemma convert_images_snoc paths p st :
  convert_images convert (paths ++ [p]) st
    = convert_image convert (convert_images convert paths st) p.
Proof. by rewrite convert_images_app. Qed.

(** The loop makes no directory and removes none. *)
Lemma convert_image_dir st p q :
  lookup_path q (scratch (convert_image convert st p)) = Some Dir <->
  lookup_path q (scratch st) = Some Dir.
Proof.
  destruct (convert_image_cases st p)
    as [-> | [(data & _ & _ & _ & ->)
             | (data & png & Hl & _ & _ & Hdir & ->)]];
    cbn [scratch]; [done..|].
  assert (lookup_path q (write_file (png_path p) png (scratch st)) = Some Dir
          <-> lookup_path q (scratch st) = Some Dir) as Hwrite.
  { destruct (decide (q = png_path p)) as [->|Hne].
    - rewrite lookup_write_file_eq. split; [done|]. by intros ?.
    - by rewrite lookup_write_file_ne. }
  case_decide; [|done].
  destruct (decide (q = p)) as [->|Hne].
  - rewrite lookup_unlink_eq, Hl. split; done.
  - by rewrite lookup_unlink_ne.
Qed.

Lemma convert_images_dir paths st q :
  lookup_path q (scratch (convert_images convert paths st)) = Some Dir <->
  lookup_path q (scratch st) = Some Dir.
Proof.
  revert st. induction paths as [|p paths IH]; intros st; [done|].
  rewrite convert_images_cons, IH. apply convert_image_dir.
Qed.

(** A path of the tree that holds a file when the loop comes to it held
    a file from the start. *)
Lemma file_from_start t paths st p data :
  st = convert_images convert paths (RunState t [] []) ->
  p ∈ map fst t ->
  lookup_path p (scratch st) = Some (File data) ->
  exists data0, lookup_path p t = Some (File data0).
Proof.
  intros -> Hin Hl.
  destruct (lookup_path p t) as [[data0|]|] eqn:Ht.
  - by exists data0.
  - apply (convert_images_dir paths (RunState t [] [])) in Ht. congruence.
  - apply lookup_path_None in Ht. done.
Qed.

End Images.

(** ** Conversion failures *)

Section Failure.

Variable convert : str -> option str.



End Failure.

(** ** Facts about paths *)

Section Paths.

Implicit Types (p name a b : str).

(** A path is its directory part, empty or ending with a slash, followed
    by its name. *)
Lemma basename_split p :
  exists d, p = d ++ basename p /\ (d = [] \/ exists d', d = d' ++ [slash]).
Proof.
  induction p as [|c p IH]; [by exists []; split; [|left]|].
  cbn [basename]. case_bool_decide as Hin.
  - destruct IH as (d & Hp & Hd). exists (c :: d). split; [cbn; congruence|].
    right. destruct Hd as [->|[d' ->]].
    + exfalso. cbn in Hp. rewrite Hp in Hin.
      by apply (basename_no_slash p).
    + by exists (c :: d').
  - case_decide as Hc.
    + subst c. exists [slash]. split; [done|]. right. by exists [].
    + exists []. split; [done|by left].
Qed.

Lemma basename_with_name p name :
  slash ∉ name -> basename (with_name p name) = name.
Proof.
  intros Hname. unfold with_name.
  destruct (basename_split p) as (d & Hp & Hd).
  assert (take (length p - length (basename p)) p = d) as ->.
  { rewrite Hp at 3. rewrite Hp at 1. rewrite length_app.
    replace (length d + length (basename p) - length (basename p))%nat
      with (length d) by lia.
    by rewrite take_app_length. }
  destruct Hd as [->|[d' ->]].
  - by apply basename_bare.
  - rewrite <- app_assoc. by apply basename_segment.
Qed.

Lemma rsplit_dot_spec name a b :
  rsplit_dot name = Some (a, b) ->
  name = a ++ b /\ exists b', b = "."%char :: b' /\ "."%char ∉ b'.
Proof.
  revert a b. induction name as [|c name IH]; intros a b; cbn; [done|].
  destruct (rsplit_dot name) as [[a0 b0]|] eqn:Hr.
  - intros [= <- <-]. destruct (IH a0 b0 eq_refl) as (-> & b' & -> & Hb').
    split; [done|]. by exists b'.
  - case_decide as Hc; [|done]. intros [= <- <-]. subst c.
    split; [done|]. exists name. split; [done|].
    clear IH. induction name as [|c name IH]; [by intros ?%elem_of_nil|].
    cbn in Hr. destruct (rsplit_dot name) as [[? ?]|]; [done|].
    case_decide; [done|].
    intros [?|?]%elem_of_cons; [congruence|by apply IH].
Qed.

Lemma rsplit_dot_None name : "."%char ∉ name -> rsplit_dot name = None.
Proof.
  induction name as [|c name IH]; [done|]. intros Hnot. cbn.
  rewrite IH by (intros ?; apply Hnot; by right).
  rewrite decide_False; [done|]. intros ->. apply Hnot. by left.
Qed.

Lemma rsplit_dot_last a b' :
  "."%char ∉ b' -> rsplit_dot (a ++ "."%char :: b') = Some (a, "."%char :: b').
Proof.
  intros Hb'. induction a as [|c a IH]; cbn.
  - rewrite rsplit_dot_None by done. by rewrite decide_True.
  - by rewrite IH.
Qed.

(** The stem and suffix of a name [X.png]. *)
Lemma splitext_png a :
  a <> [] -> splitext (a ++ lit ".png") = (a, lit ".png").
Proof.
  intros Ha. unfold splitext.
  change (lit ".png") with ("."%char :: lit "png").
  rewrite rsplit_dot_last by not_in_literal.
  by rewrite bool_decide_eq_true_2 by (split; [done|cbn; lia]).
Qed.

Lemma splitext_chars name c : c ∈ (splitext name).1 -> c ∈ name.
Proof.
  unfold splitext. destruct (rsplit_dot name) as [[a b]|] eqn:Hr; [|done].
  case_bool_decide; [|done]. cbn.
  apply rsplit_dot_spec in Hr as [-> _]. intros ?. apply elem_of_app. by left.
Qed.

Lemma stem_no_slash p : slash ∉ stem p.
Proof.
  unfold stem. intros Hin%splitext_chars. by apply (basename_no_slash p).
Qed.

Lemma lower_length s : length (lower s) = length s.
Proof. apply length_map. Qed.

(** An image file has a name with a stem before its extension. *)
Lemma image_stem_nonempty p :
  lower (suffix p) ∈ image_extensions -> stem p <> [] /\ basename p <> [].
Proof.
  intros Hext.
  assert (suffix p <> []) as Hsuf.
  { intros Heq. rewrite Heq in Hext. revert Hext. not_in_literal. }
  unfold stem, suffix, splitext in *.
  destruct (rsplit_dot (basename p)) as [[a b]|] eqn:Hr; [|done].
  case_bool_decide as Hab; [|done]. cbn. split; [tauto|].
  apply rsplit_dot_spec in Hr as [-> _]. destruct Hab. by destruct a.
Qed.

Lemma png_name_no_slash p : slash ∉ stem p ++ lit ".png".
Proof.
  intros [Hin|Hin]%elem_of_app; [by apply (stem_no_slash p)|].
  revert Hin. not_in_literal.
Qed.

Lemma basename_png_path p : basename (png_path p) = stem p ++ lit ".png".
Proof. apply basename_with_name, png_name_no_slash. Qed.

(** The new file name of an entry is the old file name of another entry
    only if that entry keeps the name. *)
Lemma pipeline_entries_closed e e' :
  pipeline_entry e -> pipeline_entry e' ->
  basename e.2 = basename e'.1 -> basename e'.2 = basename e'.1.
Proof.
  intros [Hext ->] [Hext' ->] Heq.
  rewrite basename_png_path in *.
  apply image_stem_nonempty in Hext as [Hstem _].
  unfold stem at 1. rewrite <- Heq. by rewrite splitext_png.
Qed.

End Paths.

(** ** Facts about the matcher *)

Section Matcher.

Implicit Types (s r g l run : str) (c : ascii) (p : pattern).

(** A text splits at the first occurrence of a character in one way. *)
Lemma first_occurrence_unique c u u' v v' :
  c ∉ u -> c ∉ u' -> u ++ c :: v = u' ++ c :: v' -> u = u' /\ v = v'.
Proof.
  revert u'. induction u as [|a u IH]; intros [|a' u'] Hu Hu'; cbn.
  - intros [= ->]. done.
  - intros [= <- _]. exfalso. apply Hu'. by left.
  - intros [= -> _]. exfalso. apply Hu. by left.
  - intros [= -> Heq]. destruct (IH u') as [-> ->]; [| |done|done].
    + intros ?. apply Hu. by right.
    + intros ?. apply Hu'. by right.
Qed.

(** A literal that holds no [c] before its [c] does not start a text
    whose first [c] comes sooner. *)
Lemma strip_prefix_delim c l l' x y :
  c ∉ l -> c ∉ x -> (length x < length l)%nat ->
  strip_prefix (l ++ c :: l') (x ++ c :: y) = None.
Proof.
  revert x. induction l as [|a l IH]; intros x Hl Hx Hlen; [cbn in Hlen; lia|].
  destruct x as [|b x]; cbn.
  - rewrite decide_False; [done|]. intros ->. apply Hl. by left.
  - case_decide; [|done]. apply IH.
    + intros ?. apply Hl. by right.
    + intros ?. apply Hx. by right.
    + cbn in Hlen. lia.
Qed.

Lemma star_match_sound c l s run r :
  star_match c l s = Some (run, r) -> s = run ++ l ++ r /\ c ∉ run.
Proof.
  revert run r. induction s as [|a s IH]; intros run r; cbn.
  - destruct (strip_prefix l []) as [r0|] eqn:Hl; [|done].
    intros [= <- <-]. apply strip_prefix_spec in Hl.
    split; [done|by intros ?%elem_of_nil].
  - case_decide as Ha.
    + destruct (strip_prefix l (a :: s)) as [r0|] eqn:Hl; [|done].
      intros [= <- <-]. apply strip_prefix_spec in Hl.
      split; [done|by intros ?%elem_of_nil].
    + destruct (star_match c l s) as [[run0 r0]|] eqn:Hs.
      * intros [= <- <-]. destruct (IH run0 r0 eq_refl) as [-> Hrun].
        split; [done|]. intros [?|?]%elem_of_cons; [congruence|done].
      * destruct (strip_prefix l (a :: s)) as [r0|] eqn:Hl; [|done].
        intros [= <- <-]. apply strip_prefix_spec in Hl.
        split; [done|by intros ?%elem_of_nil].
Qed.

(** Past the start of the body there is no second way to match. *)
Lemma star_match_none c b l' x y :
  c ∉ b -> c ∉ x -> (length x < length b)%nat ->
  star_match c (b ++ c :: l') (x ++ c :: y) = None.
Proof.
  intros Hb. induction x as [|a x IH]; intros Hx Hlen; cbn.
  - rewrite decide_True by done.
    pose proof (strip_prefix_delim c b l' [] y Hb Hx Hlen) as Hnone.
    cbn [app] in Hnone. by rewrite Hnone.
  - rewrite decide_False by (intros ->; apply Hx; by left).
    rewrite IH by ((intros ?; apply Hx; by right) || (cbn in Hlen; lia)).
    change (a :: x ++ c :: y) with ((a :: x) ++ c :: y).
    by rewrite strip_prefix_delim.
Qed.

(** The greedy star stops at the closing character and gives back just
    the body. *)
Lemma star_match_complete c b l' run r :
  b <> [] -> c ∉ b -> c ∉ run ->
  star_match c (b ++ c :: l') (run ++ b ++ c :: l' ++ r) = Some (run, r).
Proof.
  intros Hne Hb. induction run as [|a run IH]; intros Hrun.
  - destruct b as [|b0 b]; [done|].
    change ([] ++ (b0 :: b) ++ c :: l' ++ r) with (b0 :: (b ++ c :: l' ++ r)).
    set (l := (b0 :: b) ++ c :: l'). cbn [star_match].
    rewrite decide_False by (intros ->; apply Hb; by left).
    subst l. rewrite (star_match_none c (b0 :: b) l' b (l' ++ r));
      [|done|intros ?; apply Hb; by right|cbn; lia].
    replace (b0 :: b ++ c :: l' ++ r) with (((b0 :: b) ++ c :: l') ++ r)
      by (by rewrite <- app_assoc).
    by rewrite strip_prefix_app.
  - cbn [app star_match].
    rewrite decide_False by (intros ->; apply Hrun; by left).
    rewrite IH by (intros ?; apply Hrun; by right). done.
Qed.

Lemma match_at_sound p s g r :
  match_at p s = Some (g, r) ->
  s = pre p ++ g ++ post p ++ r /\
  exists run, g = run ++ body p /\
    match star p with Some c => c ∉ run | None => run = [] end.
Proof.
  unfold match_at.
  destruct (strip_prefix (pre p) s) as [s1|] eqn:Hpre; [|done]. cbn.
  apply strip_prefix_spec in Hpre as ->.
  destruct (star p) as [c|].
  - destruct (star_match c (body p ++ post p) s1) as [[run r0]|] eqn:Hs; [|done].
    cbn. intros [= <- <-]. apply star_match_sound in Hs as [-> Hrun].
    split; [by rewrite <- !app_assoc|]. by exists run.
  - destruct (strip_prefix (body p ++ post p) s1) as [r0|] eqn:Hb; [|done].
    cbn. intros [= <- <-]. apply strip_prefix_spec in Hb as ->.
    split; [by rewrite <- !app_assoc|]. by exists [].
Qed.

Lemma sub_from_skip p repl k s :
  sub_from p repl k s = sub_from p repl 0 (drop k s).
Proof.
  revert k. induction s as [|c s IH]; intros [|k]; try done.
  cbn [sub_from drop]. apply IH.
Qed.

(** A match at the start of a text is replaced and the scan goes on
    behind it. *)
Lemma re_sub_match p repl s g r :
  pre p <> [] -> match_at p s = Some (g, r) ->
  re_sub p repl s = repl g ++ re_sub p repl r.
Proof.
  intros Hpre Hm. unfold re_sub.
  pose proof (match_at_sound _ _ _ _ Hm) as [Hs _].
  destruct s as [|a s]; [by destruct (pre p)|].
  cbn [sub_from]. rewrite Hm. rewrite sub_from_skip. do 2 f_equal.
  assert (length (a :: s) = length (pre p ++ g ++ post p) + length r)%nat
    as Hlen by (rewrite Hs at 1; rewrite !length_app; lia).
  assert (0 < length (pre p ++ g ++ post p))%nat
    by (rewrite length_app; destruct (pre p); [done|cbn; lia]).
  assert (a :: s = (pre p ++ g ++ post p) ++ r) as Heq
    by (rewrite Hs at 1; by rewrite <- !app_assoc).
  destruct (pre p ++ g ++ post p) as [|a' m] eqn:Hm'; [cbn in *; lia|].
  injection Heq as -> ->.
  replace (length (a' :: m ++ r) - length r - 1)%nat with (length m)
    by (cbn; rewrite length_app; lia).
  by rewrite drop_app_length.
Qed.

Lemma re_sub_no_match p repl a s :
  match_at p (a :: s) = None -> re_sub p repl (a :: s) = a :: re_sub p repl s.
Proof. intros Hm. unfold re_sub. cbn [sub_from]. by rewrite Hm. Qed.

(** A stretch of text in which no match starts is copied. *)
Lemma re_sub_skip p repl a s :
  (forall i, (i < length a)%nat -> match_at p (drop i (a ++ s)) = None) ->
  re_sub p repl (a ++ s) = a ++ re_sub p repl s.
Proof.
  induction a as [|c a IH]; intros Hnone; [done|].
  cbn [app]. rewrite re_sub_no_match by (apply (Hnone 0%nat); cbn; lia).
  rewrite IH; [done|]. intros i Hi. apply (Hnone (S i)). cbn. lia.
Qed.

Lemma re_sub_none p repl s :
  (forall i, match_at p (drop i s) = None) -> re_sub p repl s = s.
Proof.
  intros Hnone. rewrite <- (app_nil_r s) at 1.
  rewrite re_sub_skip; [by rewrite app_nil_r|].
  intros i _. by rewrite app_nil_r.
Qed.

(** A pattern whose literal start holds a character that the text has
    not matches nowhere. *)
Lemma re_sub_absent p repl s c :
  c ∈ pre p -> c ∉ s -> re_sub p repl s = s.
Proof.
  intros Hc Hs. apply re_sub_none. intros i.
  destruct (match_at p (drop i s)) as [[g r]|] eqn:Hm; [|done].
  apply match_at_sound in Hm as [Heq _]. exfalso. apply Hs.
  rewrite <- (take_drop i s), Heq.
  apply elem_of_app. right. apply elem_of_app. by left.
Qed.

Lemma fst_apply_pattern repl st p :
  fst (apply_pattern repl st p) = re_sub p repl (fst st).
Proof.
  unfold apply_pattern. destruct (decide _) as [?|Hne]; [done|].
  destruct (decide (re_sub p repl st.1 = st.1)) as [Heq|?]; [done|].
  by destruct Hne.
Qed.

Lemma fst_apply_patterns repl ps st :
  fst (fold_left (apply_pattern repl) ps st)
    = fold_left (fun content p => re_sub p repl content) ps (fst st).
Proof.
  revert st. induction ps as [|p ps IH]; intros st; [done|].
  cbn [fold_left]. by rewrite IH, fst_apply_pattern.
Qed.

End Matcher.

(** ** One reference in a text *)

Section Reference.

Implicit Types (s w g r k l : str) (c o : ascii) (p : pattern).

Lemma occ_app c s1 s2 : occ c (s1 ++ s2) = (occ c s1 + occ c s2)%nat.
Proof. apply count_occ_app. Qed.

Lemma occ_cons c a s :
  occ c (a :: s) = ((if decide (a = c) then 1 else 0) + occ c s)%nat.
Proof.
  unfold occ. cbn. destruct (Ascii.ascii_dec a c); by case_decide.
Qed.

Lemma occ_zero c s : c ∉ s <-> occ c s = 0%nat.
Proof. unfold occ. rewrite list_elem_of_In. apply count_occ_not_In. Qed.

(** The match of a delimited pattern on a delimited reference. *)
Lemma match_reference p k o c l w b :
  pre p = k ++ [o] -> post p = c :: l ->
  (star p = Some c \/ star p = None) ->
  body p <> [] -> c ∉ body p -> c ∉ w ->
  match_at p (k ++ o :: w ++ c :: l ++ b)
    = if applies p w then Some (w, b) else None.
Proof.
  intros Hpre Hpost Hstar Hne Hbody Hw.
  destruct (match_at p (k ++ o :: w ++ c :: l ++ b)) as [[g r]|] eqn:Hm.
  - apply match_at_sound in Hm as (Heq & run & -> & Hrun).
    rewrite Hpre, Hpost, <- !app_assoc in Heq. cbn [app] in Heq.
    apply app_inv_head in Heq. injection Heq as Heq.
    rewrite app_assoc in Heq.
    apply first_occurrence_unique in Heq as [-> Heq]; [|done|].
    + apply app_inv_head in Heq as ->. unfold applies.
      destruct Hstar as [Hs|Hs]; rewrite Hs in *.
      * assert (endswith (run ++ body p) (body p) = true) as ->; [|done].
        apply endswith_spec. by exists run.
      * subst run. by rewrite bool_decide_eq_true_2.
    + intros [Hin|Hin]%elem_of_app; [|done].
      destruct Hstar as [Hs|Hs]; rewrite Hs in Hrun; [done|].
      subst run. by apply elem_of_nil in Hin.
  - destruct (applies p w) eqn:Happ; [|done]. exfalso.
    unfold match_at, applies in *. rewrite Hpre, Hpost in *.
    replace (k ++ o :: w ++ c :: l ++ b)
      with ((k ++ [o]) ++ w ++ c :: l ++ b) in Hm
      by (by rewrite <- app_assoc).
    rewrite strip_prefix_app in Hm. cbn [mbind option_bind] in Hm.
    destruct Hstar as [Hs|Hs]; rewrite Hs in *.
    + apply endswith_spec in Happ as [run ->].
      rewrite <- app_assoc, star_match_complete in Hm; [done..| ].
      intros ?. apply Hw, elem_of_app. by left.
    + apply bool_decide_eq_true in Happ as ->.
      replace (body p ++ c :: l ++ b) with ((body p ++ c :: l) ++ b) in Hm
        by (by rewrite <- app_assoc).
      by rewrite strip_prefix_app in Hm.
Qed.

(** In a text whose only delimiters are those of one reference, a
    delimited pattern can match at the reference and nowhere else. *)
Lemma match_only_at_reference p k o c l a w b i g r :
  pre p = k ++ [o] -> post p = c :: l ->
  (star p = Some c \/ star p = None) -> c ∉ body p ->
  o ∉ a -> o ∉ k -> o ∉ w -> o ∉ l -> o ∉ b -> c ∉ w ->
  match_at p (drop i (a ++ k ++ o :: w ++ c :: l ++ b)) = Some (g, r) ->
  i = length a.
Proof.
  intros Hpre Hpost Hstar Hbody Ha Hk Hw Hl Hb Hcw Hm.
  set (t := a ++ k ++ o :: w ++ c :: l ++ b) in *.
  apply match_at_sound in Hm as (Heq & run & -> & Hrun).
  assert (i < length t)%nat as Hi.
  { destruct (Nat.lt_ge_cases i (length t)) as [|Hge]; [done|].
    rewrite drop_ge in Heq by done. rewrite Hpre in Heq.
    by destruct k. }
  assert (t = take i t ++ k ++ o :: (run ++ body p) ++ c :: l ++ r) as Ht.
  { rewrite <- (take_drop i t) at 1. rewrite Heq, Hpre, Hpost.
    by rewrite <- !app_assoc. }
  assert (occ o (take i t) = 0%nat) as Hocc.
  { pose proof (f_equal (occ o) Ht) as Hcount. unfold t in Hcount at 1.
    rewrite !occ_app, !occ_cons, !occ_app, !occ_cons, !occ_app in Hcount.
    rewrite (proj1 (occ_zero o a) Ha), (proj1 (occ_zero o k) Hk),
      (proj1 (occ_zero o w) Hw), (proj1 (occ_zero o l) Hl),
      (proj1 (occ_zero o b) Hb) in Hcount.
    rewrite decide_True in Hcount by done. lia. }
  apply occ_zero in Hocc.
  unfold t in Ht at 1.
  rewrite (app_assoc a k), (app_assoc (take i t) k) in Ht.
  apply first_occurrence_unique in Ht as [Hhead _].
  - apply app_inv_tail in Hhead.
    apply (f_equal (@length ascii)) in Hhead.
    rewrite length_take in Hhead. lia.
  - by intros [?|?]%elem_of_app.
  - by intros [?|?]%elem_of_app.
Qed.

(** The substitution of a delimited pattern in such a text. *)
Lemma re_sub_reference p repl k o c l a w b :
  pre p = k ++ [o] -> post p = c :: l ->
  (star p = Some c \/ star p = None) ->
  body p <> [] -> c ∉ body p ->
  o ∉ a -> o ∉ k -> o ∉ w -> o ∉ l -> o ∉ b -> c ∉ w ->
  re_sub p repl (a ++ k ++ o :: w ++ c :: l ++ b)
    = if applies p w then a ++ repl w ++ b
      else a ++ k ++ o :: w ++ c :: l ++ b.
Proof.
  intros Hpre Hpost Hstar Hne Hbody Ha Hk Hw Hl Hb Hcw.
  set (t := a ++ k ++ o :: w ++ c :: l ++ b).
  assert (forall i g r, match_at p (drop i t) = Some (g, r) -> i = length a)
    as Honly by (intros i g r; by apply match_only_at_reference).
  assert (pre p <> []) as Hpne by (rewrite Hpre; by destruct k).
  pose proof (match_reference p k o c l w b Hpre Hpost Hstar Hne Hbody Hcw)
    as Hhere.
  destruct (applies p w).
  - unfold t. rewrite re_sub_skip.
    + rewrite (re_sub_match _ _ _ _ _ Hpne Hhere).
      rewrite (re_sub_none p repl b); [done|].
      intros j. destruct (match_at p (drop j b)) as [[g r]|] eqn:Hm; [|done].
      exfalso.
      assert (drop j b
              = drop (length (a ++ k ++ o :: w ++ c :: l) + j) t) as Hdrop.
      { unfold t.
        replace (a ++ k ++ o :: w ++ c :: l ++ b)
          with ((a ++ k ++ o :: w ++ c :: l) ++ b)
          by (rewrite <- !app_assoc; cbn; by rewrite <- !app_assoc).
        by rewrite drop_app_add. }
      rewrite Hdrop in Hm. apply Honly in Hm.
      rewrite !length_app in Hm. cbn in Hm. lia.
    + intros i Hi.
      destruct (match_at p (drop i (a ++ k ++ o :: w ++ c :: l ++ b)))
        as [[g r]|] eqn:Hm; [|done].
      apply Honly in Hm. lia.
  - apply re_sub_none. intros i.
    destruct (match_at p (drop i t)) as [[g r]|] eqn:Hm; [|done].
    pose proof (Honly _ _ _ Hm) as ->. unfold t in Hm.
    rewrite drop_app_length in Hm. congruence.
Qed.

End Reference.

(** ** The rewriters on one reference *)

Section Handlers.

Implicit Types (a b w old new : str) (q : ascii) (form : option ascii)
  (m : mapping).

Lemma free_of_app cs s1 s2 :
  free_of cs s1 -> free_of cs s2 -> free_of cs (s1 ++ s2).
Proof. intros H1 H2 c Hc [?|?]%elem_of_app; [by apply (H1 c)|by apply (H2 c)]. Qed.

Lemma free_of_replace cs old new w :
  free_of cs w -> free_of cs new -> free_of cs (replace old new w).
Proof.
  intros Hw Hnew c Hc [?|?]%replace_chars; [by apply (Hw c)|by apply (Hnew c)].
Qed.

(** Two paths that end with a slash and a name end with the same name. *)
Lemma last_segment_unique d d' f f' :
  slash ∉ f -> slash ∉ f' -> d ++ slash :: f = d' ++ slash :: f' -> f = f'.
Proof.
  intros Hf Hf' Heq.
  rewrite <- (basename_segment d f Hf), <- (basename_segment d' f' Hf').
  by rewrite Heq.
Qed.

Lemma settled_replaced old new w :
  old <> [] -> slash ∉ old -> slash ∉ new ->
  endswith w (slash :: old) = true -> settled old new (replace old new w).
Proof.
  intros Hne Hold Hnew [d ->]%endswith_spec d' Heq.
  rewrite replace_segment in Heq |- * by done.
  apply last_segment_unique in Heq as ->; [|done..].
  rewrite <- replace_segment by done. by apply replace_same.
Qed.

Lemma settled_unmatched old new w :
  endswith w (slash :: old) = false -> settled old new w.
Proof.
  intros Hends d ->. exfalso.
  assert (endswith (d ++ slash :: old) (slash :: old) = true) as Hyes
    by (apply endswith_spec; by exists d).
  congruence.
Qed.

(** The [src="..."] pattern on a double-quoted reference, and the
    [src='...'] pattern on a single-quoted one. *)
Lemma xml_star_pattern q old new a w b :
  q ∉ a -> q ∉ w -> q ∉ b -> q ∉ old -> q <> slash -> q ∉ lit "src=" ->
  re_sub (Pattern (lit "src=" ++ [q]) (Some q) (slash :: old) [q])
         (xml_repl old new) (xml_doc a q w b)
    = if endswith w (slash :: old)
      then xml_doc a dq (replace old new w) b else xml_doc a q w b.
Proof.
  intros Ha Hw Hb Hold Hslash Hsrc. unfold xml_doc.
  rewrite (re_sub_reference _ _ (lit "src=") q q [] a w b);
    try done; cbn [pre post star body applies].
  - destruct (endswith w (slash :: old)); [|done].
    unfold xml_repl. by rewrite <- !app_assoc.
  - by left.
  - intros [?|?]%elem_of_cons; [congruence|done].
  - by intros ?%elem_of_nil.
Qed.

(** The three patterns that spell the directory out. *)
Lemma xml_literal_pattern d old new a w b :
  dq ∉ a -> dq ∉ w -> dq ∉ b -> dq ∉ d -> dq ∉ old ->
  settled old new w ->
  re_sub (Pattern (lit "src=" ++ [dq]) None (d ++ slash :: old) [dq])
         (xml_repl old new) (xml_doc a dq w b)
    = xml_doc a dq w b.
Proof.
  intros Ha Hw Hb Hd Hold Hset. unfold xml_doc.
  rewrite (re_sub_reference _ _ (lit "src=") dq dq [] a w b);
    try done; cbn [pre post star body applies].
  - case_bool_decide as Heq; [|done].
    unfold xml_repl. rewrite (Hset d Heq). by rewrite <- !app_assoc.
  - by right.
  - by destruct d.
  - intros [?|[?|?]%elem_of_cons]%elem_of_app; [done|done|done].
  - not_in_literal.
  - by intros ?%elem_of_nil.
Qed.


Lemma free_of_quotes s : free_of quotes s -> dq ∉ s /\ sq ∉ s.
Proof.
  intros Hs. split; apply Hs; [by left|right; by left].
Qed.

Lemma not_in_xml_doc c a q w b :
  c ∉ a -> c ∉ w -> c ∉ b -> c <> q -> c ∉ lit "src=" ->
  c ∉ xml_doc a q w b.
Proof.
  intros Ha Hw Hb Hq Hsrc. unfold xml_doc.
  intros [?|[?|[?|[?|[?|?]%elem_of_cons]%elem_of_app]%elem_of_cons
         ]%elem_of_app]%elem_of_app; done.
Qed.

(** The five patterns of one mapping entry, on one reference. *)
Lemma xml_entry old new a q w b :
  q = dq \/ q = sq ->
  free_of quotes a -> free_of quotes w -> free_of quotes b ->
  free_of quotes old -> free_of quotes new ->
  old <> [] -> slash ∉ old -> slash ∉ new ->
  fold_left (fun content p => re_sub p (xml_repl old new) content)
            (xml_patterns old) (xml_doc a q w b)
    = if endswith w (slash :: old)
      then xml_doc a dq (replace old new w) b else xml_doc a q w b.
Proof.
  intros Hq [Ha Ha']%free_of_quotes [Hw Hw']%free_of_quotes
    [Hb Hb']%free_of_quotes [Hold Hold']%free_of_quotes Hnew Hne Hso Hsn.
  assert (dq ∉ replace old new w /\ sq ∉ replace old new w) as [Hr Hr'].
  { apply free_of_quotes, free_of_replace; [|done].
    intros c [->|[->|?%elem_of_nil]%elem_of_cons]%elem_of_cons; done. }
  unfold xml_patterns. cbn [fold_left].
  change (lit "images/" ++ old) with (lit "images" ++ slash :: old).
  change (lit "../images/" ++ old) with (lit "../images" ++ slash :: old).
  change (lit "./images/" ++ old) with (lit "./images" ++ slash :: old).
  destruct Hq as [-> | ->].
  - rewrite xml_star_pattern by (done || not_in_literal).
    destruct (endswith w (slash :: old)) eqn:Hends.
    + rewrite (re_sub_absent (Pattern (lit "src=" ++ [sq]) _ _ _) _ _ sq);
        [|in_literal|apply not_in_xml_doc; done || not_in_literal].
      rewrite !xml_literal_pattern;
        done || not_in_literal || by apply settled_replaced.
    + rewrite (re_sub_absent (Pattern (lit "src=" ++ [sq]) _ _ _) _ _ sq);
        [|in_literal|apply not_in_xml_doc; done || not_in_literal].
      rewrite !xml_literal_pattern;
        done || not_in_literal || by apply settled_unmatched.
  - rewrite (re_sub_absent (Pattern _ (Some dq) _ _) _ _ dq);
      [|in_literal|apply not_in_xml_doc; done || not_in_literal].
    rewrite xml_star_pattern by (done || not_in_literal).
    destruct (endswith w (slash :: old)) eqn:Hends.
    + rewrite !xml_literal_pattern;
        done || not_in_literal || by apply settled_replaced.
    + rewrite (re_sub_absent (Pattern _ _ (lit "images" ++ _) _) _ _ dq);
        [|in_literal|apply not_in_xml_doc; done || not_in_literal].
      rewrite (re_sub_absent (Pattern _ _ (lit "../images" ++ _) _) _ _ dq);
        [|in_literal|apply not_in_xml_doc; done || not_in_literal].
      rewrite (re_sub_absent (Pattern _ _ (lit "./images" ++ _) _) _ _ dq);
        [|in_literal|apply not_in_xml_doc; done || not_in_literal].
      done.
Qed.


Lemma free_of_delimiters s :
  free_of delimiters s ->
  dq ∉ s /\ sq ∉ s /\ "("%char ∉ s /\ ")"%char ∉ s.
Proof.
  intros Hs. split_and!; apply Hs; in_literal.
Qed.

Lemma css_doc_quoted a q w b :
  css_doc a (Some q) w b = a ++ lit "url(" ++ q :: w ++ q :: lit ")" ++ b.
Proof. unfold css_doc. cbn [app]. by rewrite <- !app_assoc. Qed.

Lemma css_doc_paren a form w b :
  css_doc a form w b
    = a ++ lit "url" ++ "("%char ::
      match form with Some c => c :: w ++ [c] | None => w end ++
      ")"%char :: [] ++ b.
Proof. reflexivity. Qed.

Lemma not_in_css_doc c a form w b :
  c ∉ a -> c ∉ w -> c ∉ b -> Some c <> form -> c ∉ lit "url()" ->
  c ∉ css_doc a form w b.
Proof.
  intros Ha Hw Hb Hform Hurl. unfold css_doc.
  assert (c ∉ lit "url(")
    by (intros Hin; apply Hurl;
        change (lit "url()") with (lit "url(" ++ lit ")");
        apply elem_of_app; by left).
  assert (c ∉ lit ")")
    by (intros Hin; apply Hurl;
        change (lit "url()") with (lit "url(" ++ lit ")");
        apply elem_of_app; by right).
  intros [?|[?|[Hin|[?|?]%elem_of_app]%elem_of_app]%elem_of_app]%elem_of_app;
    try done.
  destruct form as [c'|]; [|done].
  apply elem_of_cons in Hin as [->|[?|Hin]%elem_of_app]; [done|done|].
  apply list_elem_of_singleton in Hin. congruence.
Qed.

Lemma css_repl_doc old new a w b :
  a ++ css_repl old new w ++ b = css_doc a (Some dq) (replace old new w) b.
Proof.
  unfold css_repl. rewrite css_doc_quoted. by rewrite <- !app_assoc.
Qed.

(** The [url("...")] pattern on a double-quoted token, and the
    [url('...')] pattern on a single-quoted one. *)
Lemma css_quoted_pattern q old new a w b :
  q ∉ a -> q ∉ w -> q ∉ b -> q ∉ old -> q <> slash -> q ∉ lit "url()" ->
  re_sub (Pattern (lit "url(" ++ [q]) (Some q) (slash :: old) (q :: lit ")"))
         (css_repl old new) (css_doc a (Some q) w b)
    = if endswith w (slash :: old)
      then css_doc a (Some dq) (replace old new w) b
      else css_doc a (Some q) w b.
Proof.
  intros Ha Hw Hb Hold Hslash Hurl.
  assert (q ∉ lit "url(")
    by (intros Hin; apply Hurl;
        change (lit "url()") with (lit "url(" ++ lit ")");
        apply elem_of_app; by left).
  assert (q ∉ lit ")")
    by (intros Hin; apply Hurl;
        change (lit "url()") with (lit "url(" ++ lit ")");
        apply elem_of_app; by right).
  rewrite css_doc_quoted.
  rewrite (re_sub_reference _ _ (lit "url(") q q (lit ")") a w b);
    try done; cbn [pre post star body applies].
  - destruct (endswith w (slash :: old)); [|done]. apply css_repl_doc.
  - by left.
  - intros [?|?]%elem_of_cons; [congruence|done].
Qed.

(** A value between quotes does not end with a file name. *)
Lemma quoted_not_endswith q w old :
  q ∉ old -> q <> slash -> endswith (q :: w ++ [q]) (slash :: old) = false.
Proof.
  intros Hold Hslash.
  destruct (endswith (q :: w ++ [q]) (slash :: old)) eqn:Hends; [|done].
  apply endswith_spec in Hends as [r Hr]. exfalso.
  apply (f_equal (@rev ascii)) in Hr.
  change (q :: w ++ [q]) with ((q :: w) ++ [q]) in Hr.
  rewrite !rev_app_distr in Hr. cbn [rev app] in Hr.
  destruct (rev old ++ [slash]) as [|c l] eqn:Hl;
    [by destruct (rev old)|].
  cbn in Hr. injection Hr as <- _.
  assert (q ∈ rev old ++ [slash]) as Hin by (rewrite Hl; by left).
  apply elem_of_app in Hin as [Hin|Hin%list_elem_of_singleton]; [|done].
  apply Hold. apply list_elem_of_In, in_rev. by apply list_elem_of_In.
Qed.

(** The [url(...)] pattern without quotes. *)
Lemma css_paren_pattern form old new a w b :
  free_of delimiters a -> free_of delimiters w -> free_of delimiters b ->
  free_of delimiters old ->
  (form = Some dq \/ form = Some sq \/ form = None) ->
  re_sub (Pattern (lit "url(") (Some ")"%char) (slash :: old) (lit ")"))
         (css_repl old new) (css_doc a form w b)
    = match form with
      | None =>
          if endswith w (slash :: old)
          then css_doc a (Some dq) (replace old new w) b
          else css_doc a None w b
      | Some _ => css_doc a form w b
      end.
Proof.
  intros (Ha1 & Ha2 & Ha3 & Ha4)%free_of_delimiters
    (Hw1 & Hw2 & Hw3 & Hw4)%free_of_delimiters
    (Hb1 & Hb2 & Hb3 & Hb4)%free_of_delimiters
    (Ho1 & Ho2 & Ho3 & Ho4)%free_of_delimiters Hform.
  rewrite css_doc_paren.
  assert (forall c : ascii, c = dq \/ c = sq ->
            "("%char ∉ c :: w ++ [c] /\ ")"%char ∉ c :: w ++ [c]) as Hinner.
  { intros c Hc.
    split; intros [?|[?|?%list_elem_of_singleton]%elem_of_app]%elem_of_cons;
      destruct Hc; subst; done. }
  rewrite (re_sub_reference _ _ (lit "url") "("%char ")"%char [] a _ b);
    try done; cbn [pre post star body applies].
  - destruct Hform as [-> | [-> | ->]].
    + by rewrite quoted_not_endswith.
    + by rewrite quoted_not_endswith.
    + destruct (endswith w (slash :: old)); [|done]. apply css_repl_doc.
  - by left.
  - intros [?|?]%elem_of_cons; [done|done].
  - not_in_literal.
  - destruct Hform as [-> | [-> | ->]]; [apply Hinner; by left|apply Hinner; by right|done].
  - by intros ?%elem_of_nil.
  - destruct Hform as [-> | [-> | ->]]; [apply Hinner; by left|apply Hinner; by right|done].
Qed.

(** The three patterns of one mapping entry, on one token. *)
Lemma css_entry old new a form w b :
  form = Some dq \/ form = Some sq \/ form = None ->
  free_of delimiters a -> free_of delimiters w -> free_of delimiters b ->
  free_of delimiters old -> free_of delimiters new ->
  fold_left (fun content p => re_sub p (css_repl old new) content)
            (css_patterns old) (css_doc a form w b)
    = if endswith w (slash :: old)
      then css_doc a (Some dq) (replace old new w) b else css_doc a form w b.
Proof.
  intros Hform Ha Hw Hb Hold Hnew.
  pose proof (free_of_replace _ old new w Hw Hnew) as Hr.
  pose proof (free_of_delimiters _ Ha) as (Ha1 & Ha2 & _).
  pose proof (free_of_delimiters _ Hw) as (Hw1 & Hw2 & _).
  pose proof (free_of_delimiters _ Hb) as (Hb1 & Hb2 & _).
  pose proof (free_of_delimiters _ Hold) as (Ho1 & Ho2 & _).
  pose proof (free_of_delimiters _ Hr) as (Hr1 & Hr2 & _).
  unfold css_patterns. cbn [fold_left].
  destruct Hform as [-> | [-> | ->]].
  - rewrite css_quoted_pattern by (done || not_in_literal).
    destruct (endswith w (slash :: old)) eqn:Hends.
    + rewrite (re_sub_absent (Pattern (lit "url(" ++ [sq]) _ _ _) _ _ sq);
        [|in_literal|apply not_in_css_doc; done || not_in_literal].
      by rewrite css_paren_pattern by (done || by left).
    + rewrite (re_sub_absent (Pattern (lit "url(" ++ [sq]) _ _ _) _ _ sq);
        [|in_literal|apply not_in_css_doc; done || not_in_literal].
      by rewrite css_paren_pattern by (done || by left).
  - rewrite (re_sub_absent (Pattern (lit "url(" ++ [dq]) _ _ _) _ _ dq);
      [|in_literal|apply not_in_css_doc; done || not_in_literal].
    rewrite css_quoted_pattern by (done || not_in_literal).
    destruct (endswith w (slash :: old)) eqn:Hends.
    + by rewrite css_paren_pattern by (done || by left).
    + by rewrite css_paren_pattern by (done || (right; by left)).
  - rewrite (re_sub_absent (Pattern (lit "url(" ++ [dq]) _ _ _) _ _ dq);
      [|in_literal|apply not_in_css_doc; done || not_in_literal].
    rewrite (re_sub_absent (Pattern (lit "url(" ++ [sq]) _ _ _) _ _ sq);
      [|in_literal|apply not_in_css_doc; done || not_in_literal].
    rewrite css_paren_pattern by (done || (right; by right)). done.
Qed.

End Handlers.

(** ** The rewriters over a mapping *)

Section Rewriters.

Implicit Types (a b w : str) (q : ascii) (form : option ascii) (m : mapping).

(** The content a rewriter computes does not depend on [modified]. *)
Lemma fst_rewrite_references patterns repl content m :
  fst (rewrite_references patterns repl content m)
    = fold_left
        (fun content e =>
           fold_left
             (fun content p =>
                re_sub p (repl (basename e.1) (basename e.2)) content)
             (patterns (basename e.1)) content)
        m content.
Proof.
  unfold rewrite_references.
  change content with (fst (content, false)) at 2.
  generalize (content, false).
  induction m as [|[old_path new_path] m IH]; intros st; [done|].
  cbn [fold_left]. rewrite IH. by rewrite fst_apply_patterns.
Qed.

Lemma ref_step_eq {Q : Type} (double : Q) (x : Q) w e :
  ref_step double (x, w) e
    = if fires w e
      then (double, replace (basename e.1) (basename e.2) w) else (x, w).
Proof. reflexivity. Qed.

Lemma elem_of_quotes q : q ∈ quotes -> q = dq \/ q = sq.
Proof.
  intros [?|[?|[]%elem_of_nil]%elem_of_cons]%elem_of_cons; [by left|by right].
Qed.

Lemma elem_of_url_forms form :
  form ∈ url_forms -> form = Some dq \/ form = Some sq \/ form = None.
Proof.
  intros [?|[?|[?|[]%elem_of_nil]%elem_of_cons]%elem_of_cons]%elem_of_cons;
    auto.
Qed.

(** What [update_xml_references] does to a document with one [src]
    attribute: the entries of the mapping act on the value in turn. *)
Lemma xml_reference m a b : forall q w,
  q ∈ quotes -> free_of quotes a -> free_of quotes w -> free_of quotes b ->
  clean_names quotes m ->
  fst (update_xml_references (xml_doc a q w b) m)
    = xml_doc a (fold_left (ref_step dq) m (q, w)).1
                (fold_left (ref_step dq) m (q, w)).2 b.
Proof.
  intros q w Hq Ha Hw Hb Hm. unfold update_xml_references.
  rewrite fst_rewrite_references. revert q w Hq Hw.
  induction Hm as [|[o n] m (Ho & Hfo & Hfn) Hm IH]; intros q w Hq Hw; [done|].
  cbn [fold_left]. rewrite ref_step_eq. unfold fires. cbn [fst snd] in *.
  rewrite xml_entry;
    [|by apply elem_of_quotes|done..|apply basename_no_slash
     |apply basename_no_slash].
  destruct (endswith w (slash :: basename o)).
  - apply IH; [by left|by apply free_of_replace].
  - by apply IH.
Qed.

(** What [update_css_references] does to a document with one [url()]
    token. *)
Lemma css_reference m a b : forall form w,
  form ∈ url_forms ->
  free_of delimiters a -> free_of delimiters w -> free_of delimiters b ->
  clean_names delimiters m ->
  fst (update_css_references (css_doc a form w b) m)
    = css_doc a (fold_left (ref_step (Some dq)) m (form, w)).1
                (fold_left (ref_step (Some dq)) m (form, w)).2 b.
Proof.
  intros form w Hq Ha Hw Hb Hm. unfold update_css_references.
  rewrite fst_rewrite_references. revert form w Hq Hw.
  induction Hm as [|[o n] m (Ho & Hfo & Hfn) Hm IH]; intros form w Hq Hw;
    [done|].
  cbn [fold_left]. rewrite ref_step_eq. unfold fires. cbn [fst snd] in *.
  rewrite css_entry; [|by apply elem_of_url_forms|done..].
  destruct (endswith w (slash :: basename o)).
  - apply IH; [by left|by apply free_of_replace].
  - by apply IH.
Qed.

(** *** The entries of a mapping, on one value *)

Lemma ref_fold_fixed {Q : Type} (double x : Q) m w :
  named m ->
  Forall (fun e => fires w e = false \/ (keeps_name e /\ x = double)) m ->
  fold_left (ref_step double) m (x, w) = (x, w).
Proof.
  intros Hn Hm. induction Hm as [|e m He Hm IH]; [done|].
  apply Forall_cons in Hn as [Hne Hn].
  cbn [fold_left]. rewrite ref_step_eq.
  destruct He as [->|[He ->]]; [by apply IH|].
  destruct (fires w e); [|by apply IH].
  rewrite He, replace_same by done. by apply IH.
Qed.

Lemma ref_fold_fires {Q : Type} (double x : Q) before e after w :
  named after ->
  Forall (fun e' => fires w e' = false) before ->
  fires w e = true ->
  Forall (fun e' =>
            fires (replace (basename e.1) (basename e.2) w) e' = false \/
            keeps_name e') after ->
  fold_left (ref_step double) (before ++ e :: after) (x, w)
    = (double, replace (basename e.1) (basename e.2) w).
Proof.
  intros Hn Hbefore He Hafter. rewrite fold_left_app.
  assert (fold_left (ref_step double) before (x, w) = (x, w)) as ->.
  { clear -Hbefore. induction Hbefore as [|e' m He' Hm IH]; [done|].
    cbn [fold_left]. by rewrite ref_step_eq, He'. }
  cbn [fold_left]. rewrite ref_step_eq, He.
  apply ref_fold_fixed; [done|].
  eapply Forall_impl; [exact Hafter|].
  intros e' [?|?]; [by left|by right].
Qed.

Lemma first_true {A : Type} (f : A -> bool) (l : list A) :
  Forall (fun x => f x = false) l \/
  exists before x after,
    l = before ++ x :: after /\
    Forall (fun x' => f x' = false) before /\ f x = true.
Proof.
  induction l as [|x l [IH|(before & x' & after & -> & Hb & Hx)]].
  - by left.
  - destruct (f x) eqn:Hx.
    + right. by exists [], x, l.
    + left. by constructor.
  - destruct (f x) eqn:Hx0.
    + right. by exists [], x, (before ++ x' :: after).
    + right. exists (x :: before), x', after. split_and!; [done| |done].
      by constructor.
Qed.

Lemma first_firing w m :
  Forall (fun e => fires w e = false) m \/
  exists before e after,
    m = before ++ e :: after /\
    Forall (fun e' => fires w e' = false) before /\ fires w e = true.
Proof. apply (first_true (fires w)). Qed.

(** An entry accepts a value exactly when the final segment of the
    value is its old file name. *)
Lemma fires_segment d f e :
  slash ∉ f -> fires (d ++ slash :: f) e = true -> basename e.1 = f.
Proof.
  intros Hf [r Hr]%endswith_spec. symmetry.
  eapply last_segment_unique; [done|apply basename_no_slash|exact Hr].
Qed.

Lemma fires_final_segment d e : fires (d ++ slash :: basename e.1) e = true.
Proof. apply endswith_spec. by exists d. Qed.

Lemma fires_bare w e : slash ∉ w -> fires w e = false.
Proof.
  intros Hw. destruct (fires w e) eqn:He; [|done].
  apply endswith_spec in He as [r ->]. exfalso. apply Hw.
  apply elem_of_app. right. by left.
Qed.

(** After the first entry that accepts the value, the value ends with
    the new file name of that entry. *)
Lemma fired_value w e :
  basename e.1 <> [] -> fires w e = true ->
  exists d, w = d ++ slash :: basename e.1 /\
    replace (basename e.1) (basename e.2) w
      = replace (basename e.1) (basename e.2) d ++ slash :: basename e.2.
Proof.
  intros Hne [d ->]%endswith_spec. exists d. split; [done|].
  apply replace_segment; [done|apply basename_no_slash].
Qed.

(** Under a closed mapping, one pass over the entries settles the
    value. *)
Lemma ref_fold_idempotent {Q : Type} (double : Q) m st :
  named m -> closed_mapping m ->
  fold_left (ref_step double) m (fold_left (ref_step double) m st)
    = fold_left (ref_step double) m st.
Proof.
  intros Hn Hc. destruct st as [x w].
  destruct (first_firing w m) as [Hnone|(before & e & after & Hm & Hb & He)].
  - assert (fold_left (ref_step double) m (x, w) = (x, w)) as Hfix.
    { apply ref_fold_fixed; [done|].
      eapply Forall_impl; [exact Hnone|]. intros e' ?. by left. }
    by rewrite !Hfix.
  - assert (e ∈ m) as Hin by (rewrite Hm; apply elem_of_app; right; by left).
    assert (basename e.1 <> []) as Hne.
    { unfold named in Hn. rewrite Forall_forall in Hn. by apply Hn. }
    destruct (fired_value w e Hne He) as (d & Hw & Hw').
    assert (forall e', e' ∈ m ->
              fires (replace (basename e.1) (basename e.2) w) e' = true ->
              keeps_name e') as Hkeep.
    { intros e' Hin' Hf. rewrite Hw' in Hf.
      apply fires_segment in Hf; [|apply basename_no_slash].
      unfold keeps_name. by apply (Hc e e'). }
    assert (fold_left (ref_step double) m (x, w)
              = (double, replace (basename e.1) (basename e.2) w)) as Hfix.
    { rewrite Hm. apply ref_fold_fires; [| done | done |].
      - unfold named in *. rewrite Hm in Hn.
        apply Forall_app in Hn as [_ Hn]. by apply Forall_cons in Hn as [_ Hn].
      - apply Forall_forall. intros e' Hin'.
        destruct (fires _ e') eqn:Hf; [right|by left].
        apply Hkeep; [|done]. rewrite Hm. apply elem_of_app. right. by right. }
    rewrite Hfix. apply ref_fold_fixed; [done|].
    apply Forall_forall. intros e' Hin'.
    destruct (fires _ e') eqn:Hf; [right|by left]. split; [|done].
    by apply Hkeep.
Qed.

(** The entries keep a value free of the characters the names are free
    of. *)
Lemma ref_fold_free {Q : Type} (double x : Q) cs m w :
  free_of cs w -> clean_names cs m ->
  free_of cs (fold_left (ref_step double) m (x, w)).2.
Proof.
  intros Hw Hm. revert x w Hw.
  induction Hm as [|e m (_ & _ & Hn) Hm IH]; intros x w Hw; [done|].
  cbn [fold_left]. rewrite ref_step_eq.
  destruct (fires w e); [|by apply IH].
  apply IH. by apply free_of_replace.
Qed.

Lemma ref_fold_form {Q : Type} (double x : Q) (P : Q -> Prop) m w :
  P x -> P double -> P (fold_left (ref_step double) m (x, w)).1.
Proof.
  intros Hx Hd. revert x w Hx.
  induction m as [|e m IH]; intros x w Hx; [done|].
  cbn [fold_left]. rewrite ref_step_eq.
  destruct (fires w e); by apply IH.
Qed.

Lemma clean_names_named cs m : clean_names cs m -> named m.
Proof. intros Hm. eapply Forall_impl; [exact Hm|]. by intros e (? & _). Qed.

Lemma xml_idempotent m a q w b :
  q ∈ quotes -> free_of quotes a -> free_of quotes w -> free_of quotes b ->
  clean_names quotes m -> closed_mapping m ->
  fst (update_xml_references
         (fst (update_xml_references (xml_doc a q w b) m)) m)
    = fst (update_xml_references (xml_doc a q w b) m).
Proof.
  intros Hq Ha Hw Hb Hm Hc.
  rewrite (xml_reference m a b q w) by done.
  rewrite xml_reference; [|by apply ref_fold_form; [|by left]|done
                          |by apply ref_fold_free|done|done].
  rewrite <- surjective_pairing.
  by rewrite ref_fold_idempotent by (done || by eapply clean_names_named).
Qed.

Lemma css_idempotent m a form w b :
  form ∈ url_forms ->
  free_of delimiters a -> free_of delimiters w -> free_of delimiters b ->
  clean_names delimiters m -> closed_mapping m ->
  fst (update_css_references
         (fst (update_css_references (css_doc a form w b) m)) m)
    = fst (update_css_references (css_doc a form w b) m).
Proof.
  intros Hq Ha Hw Hb Hm Hc.
  rewrite (css_reference m a b form w) by done.
  rewrite css_reference; [|by apply ref_fold_form; [|by left]|done
                          |by apply ref_fold_free|done|done].
  rewrite <- surjective_pairing.
  by rewrite ref_fold_idempotent by (done || by eapply clean_names_named).
Qed.

End Rewriters.

(** ** The HTML/XHTML and CSS dialects *)

Lemma free_of_check cs (s : str) :
  forallb (fun c => bool_decide (c ∉ s)) cs = true -> free_of cs s.
Proof.
  intros H c Hc. rewrite forallb_forall in H.
  apply list_elem_of_In, H in Hc. by apply bool_decide_eq_true in Hc.
Qed.

Lemma ref_fold_first {Q : Type} (double x : Q) before old_path new_path after
    dir :
  named (before ++ (old_path, new_path) :: after) ->
  Forall (fun e => basename e.1 <> basename old_path) before ->
  Forall (fun e => basename e.1 = basename new_path -> keeps_name e) after ->
  fold_left (ref_step double) (before ++ (old_path, new_path) :: after)
            (x, dir ++ slash :: basename old_path)
    = (double,
       replace (basename old_path) (basename new_path) dir
         ++ slash :: basename new_path).
Proof.
  intros Hn Hbefore Hafter.
  apply Forall_app in Hn as [_ [Hne Hn]%Forall_cons]. cbn [fst] in Hne.
  assert (slash ∉ basename old_path) as Hs by apply basename_no_slash.
  rewrite <- (replace_segment _ _ _ Hne Hs).
  apply (ref_fold_fires double x before (old_path, new_path) after); [done| | |].
  - eapply Forall_impl; [exact Hbefore|]. intros e He.
    destruct (fires _ e) eqn:Hf; [|done].
    by apply fires_segment in Hf.
  - apply (fires_final_segment dir (old_path, new_path)).
  - eapply Forall_impl; [exact Hafter|]. intros e He. cbn [fst snd].
    rewrite replace_segment by done.
    destruct (fires _ e) eqn:Hf; [right|by left].
    apply He. apply fires_segment in Hf; [done|apply basename_no_slash].
Qed.

Lemma ref_fold_none {Q : Type} (double x : Q) m w :
  Forall (fun e => fires w e = false) m ->
  fold_left (ref_step double) m (x, w) = (x, w).
Proof.
  induction 1 as [|e m He Hm IH]; [done|].
  cbn [fold_left]. by rewrite ref_step_eq, He.
Qed.

(** ** Idempotence of the handlers *)

Section Idempotence.

Implicit Types (m : mapping) (item : attrs) (href : str).

Lemma dict_set_same k v item :
  (forall d, dict_get k d item = v) -> dict_set k v item = item.
Proof.
  induction item as [|[k0 v0] item IH]; intros Hget.
  - specialize (Hget ("x"%char :: v)). cbn in Hget.
    apply (f_equal length) in Hget. cbn in Hget. lia.
  - cbn [dict_set]. cbn [dict_get] in Hget. case_decide as Hk.
    + by rewrite (Hget []).
    + by rewrite IH.
Qed.

(** A suffix without a slash is a suffix of the final segment. *)
Lemma endswith_final_segment d f s :
  slash ∉ s -> endswith (d ++ slash :: f) s = true -> endswith f s = true.
Proof.
  intros Hs [r Hr]%endswith_spec. apply endswith_spec.
  apply (f_equal (@rev ascii)) in Hr.
  rewrite !rev_app_distr in Hr. cbn [rev] in Hr. rewrite <- app_assoc in Hr.
  destruct (prefix_before_slash (rev s) (rev f) (rev d)) as [p' Hp'].
  - intros Hin. apply Hs. apply list_elem_of_In, in_rev.
    by apply list_elem_of_In.
  - by exists (rev r).
  - exists (rev p'). apply (f_equal (@rev ascii)) in Hp'.
    by rewrite rev_app_distr, !rev_involutive in Hp'.
Qed.

(** The [href] a matching entry leaves ends with its new file name. *)
Lemma rewritten_href m href e e' :
  named m -> suffix_closed m -> whole_segment m href ->
  e ∈ m -> e' ∈ m ->
  endswith href (basename e.1) = true ->
  endswith (replace (basename e.1) (basename e.2) href) (basename e'.1) = true ->
  keeps_name e'.
Proof.
  intros Hn Hc Hw He He' Hends Hends'.
  unfold named in Hn. rewrite Forall_forall in Hn.
  pose proof (Hn e He) as Hne.
  pose proof (basename_no_slash e.1) as Hs.
  pose proof (Hw e He Hends) as Hb.
  destruct (basename_split href) as (d & Hd & [->|[d' ->]]).
  - cbn [app] in Hd. rewrite Hd, Hb, replace_whole in Hends' by done.
    by apply (Hc e e').
  - rewrite Hd, Hb, <- app_assoc in Hends'. cbn [app] in Hends'.
    rewrite replace_segment in Hends' by done.
    apply endswith_final_segment in Hends'; [|apply basename_no_slash].
    by apply (Hc e e').
Qed.

Lemma update_item_idempotent m item :
  named m -> suffix_closed m ->
  whole_segment m (dict_get (lit "href") [] item) ->
  fst (update_item m (fst (update_item m item))) = fst (update_item m item).
Proof.
  intros Hn Hc Hw.
  set (href := dict_get (lit "href") [] item) in *.
  set (mt := dict_get (lit "media-type") [] item).
  destruct (first_true (fun e => endswith href (basename e.1)) m)
    as [Hnone|(before & [o n] & after & Hm & Hb & He)].
  - assert (update_item m item = (item, false)) as Hfix
      by by apply update_item_with_none.
    rewrite Hfix. cbn [fst]. by rewrite Hfix.
  - cbn [fst] in He.
    assert ((o, n) ∈ m) as Hin
      by (rewrite Hm; apply elem_of_app; right; by left).
    set (href' := replace (basename o) (basename n) href) in *.
    set (item1 := dict_set (lit "href") href' item).
    set (item' := if decide (mt = lit "image/jpeg")
                  then dict_set (lit "media-type") (lit "image/png") item1
                  else item1).
    assert (update_item m item = (item', true)) as Hfix.
    { unfold update_item. fold href mt. rewrite Hm.
      by rewrite (update_item_with_first _ _ _ _ _ _ _ Hb He). }
    rewrite Hfix. cbn [fst].
    assert (forall d, dict_get (lit "href") d item' = href') as Hhref.
    { intros d. unfold item', item1. case_decide.
      - by rewrite dict_get_set_ne, dict_get_set_eq.
      - by rewrite dict_get_set_eq. }
    assert (dict_get (lit "media-type") [] item' <> lit "image/jpeg") as Hmt.
    { unfold item', item1. case_decide.
      - by rewrite dict_get_set_eq.
      - by rewrite dict_get_set_ne. }
    unfold update_item. rewrite Hhref.
    destruct (first_true (fun e => endswith href' (basename e.1)) m)
      as [Hnone|(before2 & [o2 n2] & after2 & Hm2 & Hb2 & He2)].
    + by rewrite update_item_with_none.
    + cbn [fst] in He2.
      assert ((o2, n2) ∈ m) as Hin2
        by (rewrite Hm2; apply elem_of_app; right; by left).
      assert (keeps_name (o2, n2)) as Hkeep
        by exact (rewritten_href m href (o, n) (o2, n2) Hn Hc Hw Hin Hin2
                    He He2).
      unfold keeps_name in Hkeep. cbn [fst snd] in Hkeep.
      rewrite Hm2 at 1.
      rewrite (update_item_with_first _ _ _ _ _ _ _ Hb2 He2).
      cbn [fst]. rewrite decide_False by done.
      rewrite Hkeep, replace_same.
      * by apply dict_set_same.
      * unfold named in Hn. rewrite Forall_forall in Hn.
        apply (Hn (o2, n2) Hin2).
Qed.

Lemma update_opf_manifest_idempotent m items :
  named m -> suffix_closed m ->
  Forall (fun item => whole_segment m (dict_get (lit "href") [] item)) items ->
  fst (update_opf_manifest (fst (update_opf_manifest items m)) m)
    = fst (update_opf_manifest items m).
Proof.
  intros Hn Hc Hitems. unfold update_opf_manifest. cbn [fst].
  induction Hitems as [|item items Hitem Hitems IH]; [done|].
  cbn [map]. by rewrite update_item_idempotent, IH.
Qed.

Lemma closed_mapping_check m :
  forallb (fun e =>
    forallb (fun e' =>
      bool_decide (basename e.2 = basename e'.1 -> keeps_name e')) m) m = true ->
  closed_mapping m.
Proof.
  intros H e e' He He'. rewrite forallb_forall in H.
  apply list_elem_of_In, H in He. rewrite forallb_forall in He.
  apply list_elem_of_In, He in He'. by apply bool_decide_eq_true in He'.
Qed.

End Idempotence.

(** ** More on the dithering pass *)

Section DitherMore.

Implicit Types (img : image) (N old v : Z).

Lemma is_levelb_complete N v : is_level N v -> is_levelb N v = true.
Proof.
  intros (k & Hk & Heq). unfold is_levelb. apply existsb_exists.
  exists k. split; [|by apply Z.eqb_eq].
  apply in_map_iff. exists (Z.to_nat k). split; [lia|]. apply in_seq. lia.
Qed.

Lemma is_level_range N v : 2 <= N -> is_level N v -> 0 <= v <= 255.
Proof. intros HN (k & Hk & Heq). nia. Qed.

Lemma is_level_byte v : 0 <= v <= 255 -> is_level 256 v.
Proof. intros Hv. exists v. lia. Qed.

Lemma levels_of_spec N v : 2 <= N -> is_level N v -> In v (levels_of N).
Proof.
  intros HN Hv. unfold levels_of. apply list_elem_of_In, list_elem_of_filter.
  split; [by rewrite is_levelb_complete|].
  apply list_elem_of_In, bytes_range_spec. by eapply is_level_range.
Qed.

Lemma level_counts_spec N b : 1 <= b <= 8 -> N = 2 ^ b -> In N level_counts.
Proof.
  intros Hb ->. apply in_map_iff. exists (Z.to_nat b).
  split; [f_equal; lia|]. apply in_seq. lia.
Qed.

Lemma quantize_total_table : forallb quantize_total level_counts = true.
Proof. vm_compute. reflexivity. Qed.

Lemma nearest_table : forallb nearest_check good_levels = true.
Proof. vm_compute. reflexivity. Qed.

Lemma fixed_table : forallb fixed_check good_levels = true.
Proof. vm_compute. reflexivity. Qed.

Lemma zero_error_table : zero_error_check = true.
Proof. vm_compute. reflexivity. Qed.

Lemma quantize_bytes N b :
  1 <= b <= 8 -> N = 2 ^ b ->
  exists step, quant_step N = Some step /\
    forall old, 0 <= old <= 255 ->
      exists q error, quantize step old = Some (q, error) /\ is_level 256 q.
Proof.
  intros Hb HN. pose proof quantize_total_table as Ht.
  rewrite forallb_forall in Ht. specialize (Ht N (level_counts_spec N b Hb HN)).
  unfold quantize_total in Ht.
  destruct (quant_step N) as [step|]; [|done]. exists step. split; [done|].
  intros old Hold. rewrite forallb_forall in Ht.
  specialize (Ht old (bytes_range_spec old Hold)).
  destruct (quantize step old) as [[q error]|] eqn:Hq; [|done].
  exists q, error. split; [done|].
  apply is_level_byte. by eapply quantize_range.
Qed.

Lemma wf_image_getpixel img x y : wf_image img -> 0 <= getpixel img x y <= 255.
Proof.
  intros [_ Hrange]. unfold getpixel.
  destruct (pixels img !! index (width img) x y) as [v|] eqn:Hv; [|done].
  by apply (proj1 (Forall_lookup _ _) Hrange _ _ Hv).
Qed.

Lemma levels_getpixel N img x y :
  2 <= N -> Forall (is_level N) (pixels img) -> is_level N (getpixel img x y).
Proof.
  intros HN Hlev. unfold getpixel.
  destruct (pixels img !! index (width img) x y) as [v|] eqn:Hv.
  - by apply (proj1 (Forall_lookup _ _) Hlev _ _ Hv).
  - exists 0. cbn. lia.
Qed.

(** Storing the value a pixel holds changes nothing. *)
Lemma putpixel_same img x y : putpixel img x y (getpixel img x y) = img.
Proof.
  destruct img as [w h px]. unfold putpixel, getpixel. cbn [width height pixels].
  f_equal. destruct (px !! index w x y) as [v|] eqn:Hv.
  - by apply list_insert_id.
  - apply list_insert_ge. by apply lookup_ge_None.
Qed.

Lemma diffuse_same img x y error k :
  diffused (getpixel img x y) error k = getpixel img x y ->
  diffuse img x y error k = img.
Proof. intros Hd. unfold diffuse. rewrite Hd. apply putpixel_same. Qed.

Lemma visit_fixed step w h img x y error :
  quantize step (getpixel img x y) = Some (getpixel img x y, error) ->
  (forall p k, 0 <= p <= 255 -> In k weights -> diffused p error k = p) ->
  wf_image img ->
  visit step w h img x y = Some img.
Proof.
  intros Hq Hd Hwf. unfold visit. rewrite Hq. cbn [mbind option_bind].
  assert (forall a b k, In k weights -> diffuse img a b error k = img) as Hsame.
  { intros a b k Hk. apply diffuse_same, Hd; [|done].
    by apply wf_image_getpixel. }
  rewrite putpixel_same.
  rewrite !Hsame by (cbn; auto).
  repeat (destruct (_ <? _)%nat; rewrite ?Hsame by (cbn; auto)); done.
Qed.

Lemma for_each_fixed {A S : Type} (body : S -> A -> option S) (s : S)
    (l : list A) :
  (forall a, In a l -> body s a = Some s) -> for_each body s l = Some s.
Proof.
  induction l as [|a l IH]; intros Hbody; [done|].
  cbn [for_each]. rewrite Hbody by (by left). cbn.
  apply IH. intros a' Ha'. apply Hbody. by right.
Qed.

Lemma dither_fixed img N :
  wf_image img -> In N good_levels -> Forall (is_level N) (pixels img) ->
  floyd_steinberg_dither img N = Some img.
Proof.
  intros Hwf HN Hlev. pose proof fixed_table as Ht.
  rewrite forallb_forall in Ht. specialize (Ht N HN).
  unfold fixed_check in Ht. unfold floyd_steinberg_dither.
  assert (2 <= N) as HN2.
  { cbn in HN. lia. }
  destruct (quant_step N) as [step|]; [|done]. cbn [mbind option_bind].
  rewrite forallb_forall in Ht.
  apply for_each_fixed. intros y _. apply for_each_fixed. intros x _.
  pose proof (levels_getpixel N img x y HN2 Hlev) as Hxy.
  specialize (Ht _ (levels_of_spec _ _ HN2 Hxy)).
  destruct (quantize step (getpixel img x y)) as [[q error]|] eqn:Hq; [|done].
  apply andb_prop in Ht as [->%Z.eqb_eq ->%FloatAxioms.Leibniz.eqb_spec].
  apply (visit_fixed step _ _ img x y 0%float); [done| |done].
  intros p k Hp Hk. pose proof zero_error_table as Hd.
  unfold zero_error_check in Hd. rewrite forallb_forall in Hd.
  specialize (Hd p (bytes_range_spec p Hp)). rewrite forallb_forall in Hd.
  by apply Z.eqb_eq, Hd.
Qed.

Lemma dither_result img N :
  wf_image img -> (exists step, quant_step N = Some step /\
    forall old, 0 <= old <= 255 ->
      exists q error, quantize step old = Some (q, error) /\ is_level N q) ->
  exists img',
    floyd_steinberg_dither img N = Some img' /\
    width img' = width img /\ height img' = height img /\
    length (pixels img') = (width img * height img)%nat /\
    Forall (is_level N) (pixels img').
Proof.
  intros Hwf (step & Hstep & Hquant).
  destruct (rows_inv N step img Hquant (dither_inv_start N img Hwf))
    as (img' & Hrun & Hinv).
  exists img'. unfold floyd_steinberg_dither. rewrite Hstep.
  cbn [mbind option_bind]. split; [done|].
  pose proof (dither_inv_end _ _ _ Hinv) as Hlev.
  destruct Hinv as (Hw & Hh & Hlen & _). done.
Qed.

End DitherMore.

(** X1.  For the level count [2 ^ b] of every bit depth [b] from 1 to 8,
    whether its step is an integer or not, the pass returns, for an
    8-bit raster, an 8-bit raster of the same size: no pixel value makes
    it raise and none leaves the range 0..255.  With one level the step
    [255.0 / (levels - 1)] is a division by zero and the pass raises
    before it reads a pixel. *)
Theorem dither_total (img : image) (levels b : Z) :
  wf_image img ->
  (1 <= b <= 8 -> levels = 2 ^ b ->
   exists img',
     floyd_steinberg_dither img levels = Some img' /\
     width img' = width img /\ height img' = height img /\ wf_image img') /\
  floyd_steinberg_dither img 1 = None.
Proof.
  intros Hwf. split; [|done]. intros Hb HN.
  destruct (quantize_bytes levels b Hb HN) as (step & Hstep & Hquant).
  destruct (rows_inv 256 step img Hquant (dither_inv_start 256 img Hwf))
    as (img' & Hrun & Hinv).
  exists img'. unfold floyd_steinberg_dither. rewrite Hstep.
  cbn [mbind option_bind]. split; [done|].
  pose proof (dither_inv_end _ _ _ Hinv) as Hlev.
  destruct Hinv as (Hw & Hh & Hlen & _).
  split; [done|]. split; [done|]. split.
  - by rewrite Hw, Hh.
  - eapply Forall_impl; [exact Hlev|]. intros v Hv.
    by apply (is_level_range 256).
Qed.

Lemma dither_total_witness :
  exists img',
    floyd_steinberg_dither (Image 2 2 [10; 200; 90; 30]) 8 = Some img' /\
    wf_image img'.
Proof.
  destruct (dither_total (Image 2 2 [10; 200; 90; 30]) 8 3) as [Hrun _].
  - split; [reflexivity|]. repeat constructor; cbn; lia.
  - destruct Hrun as (img' & Hrun & _ & _ & Hwf); [lia|reflexivity|].
    exists img'. split; assumption.
Defined.

(** X2.  With a level count whose step is an integer, every 8-bit value is
    stored as the level nearest to it (no other level is nearer), and
    the error that is diffused is the exact difference between the old
    value and that level. *)
Theorem quantize_nearest (N old : Z) :
  2 <= N -> (N - 1 | 255) -> 0 <= old <= 255 ->
  exists step q error,
    quant_step N = Some step /\
    quantize step old = Some (q, error) /\
    is_level N q /\
    (forall v, is_level N v -> Z.abs (old - q) <= Z.abs (old - v)) /\
    error = Py.nearest_float (old - q).
Proof.
  intros HN Hdiv Hold. pose proof nearest_table as Ht.
  rewrite forallb_forall in Ht.
  specialize (Ht N (divisor_levels N HN Hdiv)). unfold nearest_check in Ht.
  destruct (quant_step N) as [step|]; [|done].
  rewrite forallb_forall in Ht.
  specialize (Ht old (bytes_range_spec old Hold)).
  destruct (quantize step old) as [[q error]|] eqn:Hquant; [|done].
  apply andb_prop in Ht as [[Hq He]%andb_prop Hnear].
  exists step, q, error. split_and!; [done..| | |].
  - by apply is_levelb_sound.
  - intros v Hv. rewrite forallb_forall in Hnear.
    apply Z.leb_le, Hnear. by apply levels_of_spec.
  - by apply FloatAxioms.Leibniz.eqb_spec.
Qed.

Lemma quantize_nearest_witness :
  exists step q error,
    quant_step 4 = Some step /\
    quantize step 100 = Some (q, error) /\
    is_level 4 q /\
    (forall v, is_level 4 v -> Z.abs (100 - q) <= Z.abs (100 - v)) /\
    error = Py.nearest_float (100 - q).
Proof.
  apply (quantize_nearest 4 100); [lia| |lia]. exists 85. reflexivity.
Defined.

(** X3.  With a level count whose step is an integer, a raster whose pixels
    are all levels comes out of the pass as it went in; so the pass
    applied to its own result changes nothing. *)
Theorem dither_idempotent (img : image) (N : Z) :
  wf_image img -> 2 <= N -> (N - 1 | 255) ->
  (Forall (is_level N) (pixels img) ->
   floyd_steinberg_dither img N = Some img) /\
  (forall img', floyd_steinberg_dither img N = Some img' ->
     floyd_steinberg_dither img' N = Some img').
Proof.
  intros Hwf HN Hdiv. pose proof (divisor_levels N HN Hdiv) as Hgood. split.
  - intros Hlev. by apply dither_fixed.
  - intros img' Hrun.
    destruct (dither_result img N Hwf (quantize_levels N Hgood))
      as (img'' & Hrun' & Hw & Hh & Hlen & Hlev).
    rewrite Hrun in Hrun'. injection Hrun' as <-.
    apply dither_fixed; [|done|done].
    split; [by rewrite Hw, Hh|].
    eapply Forall_impl; [exact Hlev|]. intros v Hv.
    by apply (is_level_range N).
Qed.

Lemma dither_idempotent_witness :
  floyd_steinberg_dither four_level_raster 4 = Some four_level_raster.
Proof.
  destruct (dither_idempotent four_level_raster 4) as [Hfixed _].
  - split; [reflexivity|]. repeat constructor; cbn; lia.
  - lia.
  - exists 85. reflexivity.
  - apply Hfixed.
    apply Forall_cons. split; [exists 0; lia|].
    apply Forall_cons. split; [exists 3; lia|].
    apply Forall_cons. split; [exists 1; lia|].
    apply Forall_cons. split; [exists 2; lia|].
    apply Forall_nil_2.
Defined.

(** ** The conversion of one image *)

Lemma four_levels v : is_level 4 v -> v ∈ four_grays.
Proof.
  intros (k & Hk & Heq). unfold four_grays.
  assert (k = 0 \/ k = 1 \/ k = 2 \/ k = 3) as [-> | [-> | [-> | ->]]] by lia.
  - assert (v = 0) as -> by lia. by left.
  - assert (v = 85) as -> by lia. right. by left.
  - assert (v = 170) as -> by lia. do 2 right. by left.
  - assert (v = 255) as -> by lia. do 3 right. by left.
Qed.

Lemma four_levels_good : In 4 good_levels.
Proof. cbn. auto. Qed.

(** X4.  [create_2bit_grayscale_png] fails only when the image does not
    decode or the raster does not encode, never in the dithering; when
    it succeeds, what it encodes is the dithered raster, which has the
    size of the decoded one and only the gray values 0, 85, 170 and
    255. *)
Theorem conversion_four_grays (decode : str -> option image)
    (encode : image -> option str) (data : str) :
  (forall d img, decode d = Some img -> wf_image img) ->
  (decode data = None ->
   create_2bit_grayscale_png decode encode data = None) /\
  (forall img, decode data = Some img ->
     exists img',
       floyd_steinberg_dither img 4 = Some img' /\
       create_2bit_grayscale_png decode encode data = encode img' /\
       width img' = width img /\ height img' = height img /\
       length (pixels img') = (width img * height img)%nat /\
       Forall (fun v => v ∈ four_grays) (pixels img')).
Proof.
  intros Hdecode. unfold create_2bit_grayscale_png. split.
  - by intros ->.
  - intros img Himg. rewrite Himg. cbn [mbind option_bind].
    destruct (dither_result img 4 (Hdecode _ _ Himg)
                (quantize_levels 4 four_levels_good))
      as (img' & Hrun & Hw & Hh & Hlen & Hlev).
    exists img'. rewrite Hrun. cbn [mbind option_bind].
    split; [reflexivity|]. split; [reflexivity|].
    split; [assumption|]. split; [assumption|]. split; [assumption|].
    eapply Forall_impl; [exact Hlev|]. apply four_levels.
Qed.

Lemma conversion_four_grays_witness :
  exists img',
    floyd_steinberg_dither (Image 3 1 [97; 98; 99]) 4 = Some img' /\
    create_2bit_grayscale_png row_decode row_encode (lit "abc")
      = row_encode img' /\
    Forall (fun v => v ∈ four_grays) (pixels img').
Proof.
  destruct (conversion_four_grays row_decode row_encode (lit "abc"))
    as [_ Hok].
  - intros d img [= <-]. split.
    + cbn [pixels width height]. rewrite length_map. lia.
    + cbn [pixels]. apply Forall_forall. intros v Hv.
      apply list_elem_of_In, in_map_iff in Hv as (c & <- & _).
      pose proof (nat_ascii_bounded c). lia.
  - destruct (Hok (Image 3 1 [97; 98; 99])) as (img' & Hrun & Hout & _ & _ & _ & Hg).
    + reflexivity.
    + exists img'. split; [assumption|]. split; assumption.
Defined.

(** ** The palette of [reduce.py] *)

(** X20.  The palette holds 256 colours of three components: the first 16
    are the grays [17 * i], which are the 16 quantization levels
    [i * 255 / 15] without rounding loss, and the other 240 are
    black. *)
Theorem gray_palette_levels :
  exists palette,
    gray_palette = Some palette /\
    length palette = 768%nat /\
    (forall i, (i < 16)%nat ->
       is_level 16 (17 * Z.of_nat i) /\
       palette !! (3 * i)%nat = Some (17 * Z.of_nat i) /\
       palette !! (3 * i + 1)%nat = Some (17 * Z.of_nat i) /\
       palette !! (3 * i + 2)%nat = Some (17 * Z.of_nat i)) /\
    (forall j, (48 <= j < 768)%nat -> palette !! j = Some 0).
Proof.
  exists (flat_map (fun i => [17 * Z.of_nat i; 17 * Z.of_nat i; 17 * Z.of_nat i])
                   (seq 0 16) ++ replicate 720 0).
  split; [vm_compute; reflexivity|]. split; [reflexivity|]. split.
  - intros i Hi. split; [exists (Z.of_nat i); lia|].
    do 16 (destruct i as [|i]; [by vm_compute|]). lia.
  - intros j Hj.
    rewrite lookup_app_r by (cbn; lia).
    apply lookup_replicate_2. cbn. lia.
Qed.

(** ** [main] *)

Section Main.

Context {FS : Type}.
Variable process_epub : FS -> str -> FS * bool.

Lemma main_loop_tally epubs fs t0 :
  let r := fold_left
    (fun '(fs, t) epub_path =>
       let '(fs', ok) := process_epub fs epub_path in
       if ok then (fs', Tally (S (successful t)) (failed t))
       else (fs', Tally (successful t) (S (failed t))))
    epubs (fs, t0) in
  (successful r.2 + failed r.2 = successful t0 + failed t0 + length epubs)%nat.
Proof.
  revert fs t0. induction epubs as [|p epubs IH]; intros fs t0; cbn.
  - lia.
  - destruct (process_epub fs p) as [fs' [|]].
    + cbn zeta in IH. rewrite IH. cbn. lia.
    + cbn zeta in IH. rewrite IH. cbn. lia.
Qed.

End Main.

(** X19.  Every path of the command line is counted once, as a success or as
    a failure, whatever the runs return: a failed run does not stop the
    loop.  The summary is printed exactly when more than one path was
    given. *)
Theorem main_counts {FS : Type} (process_epub : FS -> str -> FS * bool)
    (epubs : list str) (fs : FS) :
  let t := (main_loop process_epub epubs fs).2 in
  (successful t + failed t = length epubs)%nat /\
  ((1 < length epubs)%nat ->
   (main process_epub epubs fs).2 = Some t) /\
  ((length epubs <= 1)%nat -> (main process_epub epubs fs).2 = None).
Proof.
  intros t. split_and!.
  - subst t. unfold main_loop.
    pose proof (main_loop_tally process_epub epubs fs (Tally 0 0)) as H.
    cbn zeta in H. rewrite H. cbn. lia.
  - intros Hlen. unfold main. subst t.
    destruct (main_loop process_epub epubs fs) as [fs' t']. cbn [snd].
    by rewrite (proj2 (Nat.ltb_lt _ _) Hlen).
  - intros Hlen. unfold main.
    destruct (main_loop process_epub epubs fs) as [fs' t']. cbn [snd].
    by rewrite (proj2 (Nat.ltb_ge _ _) Hlen).
Qed.

Lemma main_counts_witness :
  (main (fun (fs : unit) p => (fs, bool_decide (p = lit "a.epub")))
        [lit "a.epub"; lit "b.epub"] ()).2
    = Some (main_loop (fun (fs : unit) p => (fs, bool_decide (p = lit "a.epub")))
                      [lit "a.epub"; lit "b.epub"] ()).2.
Proof.
  destruct (main_counts (fun (fs : unit) p => (fs, bool_decide (p = lit "a.epub")))
              [lit "a.epub"; lit "b.epub"] ()) as (_ & Hsome & _).
  apply Hsome. cbn. lia.
Defined.

(** ** More on paths *)

Section PathsMore.

Implicit Types (p name : str).

Lemma splitext_join name : (splitext name).1 ++ (splitext name).2 = name.
Proof.
  unfold splitext. destruct (rsplit_dot name) as [[a b]|] eqn:Hr.
  - case_bool_decide; cbn [fst snd].
    + by apply rsplit_dot_spec in Hr as [-> _].
    + by rewrite app_nil_r.
  - cbn [fst snd]. by rewrite app_nil_r.
Qed.

Lemma stem_suffix p : stem p ++ suffix p = basename p.
Proof. apply splitext_join. Qed.

(** [with_name] keeps what is before the file name. *)
Lemma with_name_spec p name d :
  p = d ++ basename p -> with_name p name = d ++ name.
Proof.
  intros Hp. unfold with_name. f_equal.
  assert (length p - length (basename p) = length d)%nat as ->.
  { rewrite Hp at 1. rewrite length_app. lia. }
  rewrite Hp. apply take_app_length.
Qed.

Lemma with_name_basename p : with_name p (basename p) = p.
Proof.
  destruct (basename_split p) as (d & Hd & _).
  by rewrite (with_name_spec p _ d Hd).
Qed.

Lemma with_name_inj p name name' :
  with_name p name = with_name p name' -> name = name'.
Proof.
  destruct (basename_split p) as (d & Hd & _).
  rewrite !(with_name_spec p _ d Hd). apply app_inv_head.
Qed.

Lemma with_name_twice p name name' :
  slash ∉ name -> with_name (with_name p name) name' = with_name p name'.
Proof.
  intros Hname. destruct (basename_split p) as (d & Hd & Hdir).
  rewrite !(with_name_spec p _ d Hd).
  apply with_name_spec.
  destruct Hdir as [->|[d' ->]].
  - cbn [app]. by rewrite basename_bare.
  - rewrite <- !app_assoc. cbn [app]. by rewrite basename_segment.
Qed.

Lemma suffix_png_path p : stem p <> [] -> suffix (png_path p) = lit ".png".
Proof.
  intros Hstem. unfold suffix. rewrite basename_png_path.
  by rewrite splitext_png.
Qed.

Lemma stem_png_path p : stem p <> [] -> stem (png_path p) = stem p.
Proof.
  intros Hstem. unfold stem at 1. rewrite basename_png_path.
  by rewrite splitext_png.
Qed.

Lemma png_path_fixed p : suffix p = lit ".png" -> png_path p = p.
Proof.
  intros Hs. unfold png_path. rewrite <- Hs, stem_suffix.
  apply with_name_basename.
Qed.

Lemma png_path_moves p : suffix p <> lit ".png" -> png_path p <> p.
Proof.
  intros Hs Heq. apply Hs. unfold png_path in Heq.
  rewrite <- (with_name_basename p) in Heq at 3.
  apply with_name_inj in Heq. rewrite <- stem_suffix in Heq.
  by apply app_inv_head in Heq.
Qed.

Lemma lower_png s : lower s <> lit ".png" -> s <> lit ".png".
Proof. intros Hs ->. by apply Hs. Qed.

End PathsMore.

(** X12.  The path an image is converted to: the file [stem + '.png'] in the
    directory of the image.  It has the extension [.png] and the stem of
    the image, so it is its own PNG path; and it is the path of the
    image itself exactly when the image's extension is [.png] in lower
    case. *)
Theorem png_path_facts (p : str) :
  lower (suffix p) ∈ image_extensions ->
  (exists d, p = d ++ basename p /\ png_path p = d ++ stem p ++ lit ".png") /\
  suffix (png_path p) = lit ".png" /\
  stem (png_path p) = stem p /\
  png_path (png_path p) = png_path p /\
  (png_path p = p <-> suffix p = lit ".png").
Proof.
  intros Hext. apply image_stem_nonempty in Hext as [Hstem _].
  split_and!.
  - destruct (basename_split p) as (d & Hd & _). exists d. split; [done|].
    by apply with_name_spec.
  - by apply suffix_png_path.
  - by apply stem_png_path.
  - unfold png_path at 1. rewrite stem_png_path by done.
    unfold png_path. apply with_name_twice, png_name_no_slash.
  - split.
    + intros Heq. destruct (decide (suffix p = lit ".png")) as [|Hne]; [done|].
      by apply png_path_moves in Hne.
    + apply png_path_fixed.
Qed.

Lemma png_path_facts_witness :
  png_path (png_path (lit "OEBPS/cover.JPG")) = png_path (lit "OEBPS/cover.JPG").
Proof.
  destruct (png_path_facts (lit "OEBPS/cover.JPG")) as (_ & _ & _ & Hfix & _).
  - in_literal.
  - exact Hfix.
Defined.

(** ** More on the image loop *)

Section ImagesMore.

Variable convert : str -> option str.

Implicit Types (st : run_state) (p q : str) (t : tree).

(** The loop leaves the files without an image extension as they are. *)
Lemma convert_image_lookup_nonimage st p q :
  lower (suffix q) ∉ image_extensions ->
  lookup_path q (scratch (convert_image convert st p))
    = lookup_path q (scratch st).
Proof.
  intros Hq.
  destruct (decide (lower (suffix p) ∈ image_extensions)) as [Hp|Hp].
  - apply convert_image_lookup_other.
    + intros ->. done.
    + intros ->. apply Hq. apply image_stem_nonempty in Hp as [Hstem _].
      rewrite suffix_png_path by done. in_literal.
  - by rewrite convert_image_skip.
Qed.

Lemma convert_images_lookup_nonimage paths st q :
  lower (suffix q) ∉ image_extensions ->
  lookup_path q (scratch (convert_images convert paths st))
    = lookup_path q (scratch st).
Proof.
  intros Hq. revert st. induction paths as [|p paths IH]; intros st; [done|].
  rewrite convert_images_cons.
  by rewrite IH, convert_image_lookup_nonimage.
Qed.




(** An entry stays in the mapping while other images are converted. *)
Lemma convert_images_keeps_entry paths st o n :
  o ∉ paths -> (o, n) ∈ image_mapping st ->
  (o, n) ∈ image_mapping (convert_images convert paths st).
Proof.
  revert st. induction paths as [|p paths IH]; intros st Ho Hin; [done|].
  rewrite convert_images_cons.
  apply IH; [by intros ?; apply Ho; right|].
  destruct (convert_image_cases convert st p)
    as [-> | [(data & _ & _ & _ & ->) | (data & png & _ & _ & _ & _ & ->)]];
    cbn [image_mapping]; [done..|].
  apply dict_set_elem_ne; [|done].
  intros ->. apply Ho. by left.
Qed.

(** What the loop does to a path onto which no image file of the tree
    is converted. *)
Lemma convert_images_lookup_kept t paths done q :
  done ++ paths ⊆ map fst t -> q ∉ paths ->
  (forall p data, p ∈ paths -> lookup_path p t = Some (File data) ->
     lower (suffix p) ∈ image_extensions -> png_path p <> q) ->
  lookup_path q
    (scratch (convert_images convert (done ++ paths) (RunState t [] [])))
    = lookup_path q
        (scratch (convert_images convert done (RunState t [] []))).
Proof.
  revert done. induction paths as [|p paths IH]; intros done Hsub Hq Hpng.
  - by rewrite app_nil_r.
  - apply not_elem_of_cons in Hq as [Hne Hq].
    replace (done ++ p :: paths) with ((done ++ [p]) ++ paths) in *
      by (by rewrite <- app_assoc).
    rewrite IH; [|done|done|intros p' data' Hin; apply Hpng; by right].
    rewrite convert_images_snoc.
    set (st := convert_images convert done (RunState t [] [])).
    destruct (convert_image_cases convert st p)
      as [-> | [(data & _ & _ & _ & ->)
               | (data & png & Hl & Hext & _ & _ & _)]]; [done..|].
    apply convert_image_lookup_other; [done|].
    destruct (file_from_start convert t done st p data eq_refl) as [data0 H0];
      [|done|].
    + apply Hsub. apply elem_of_app. left. apply elem_of_app. right. by left.
    + intros Heq. apply (Hpng p data0); [by left|done..].
Qed.

End ImagesMore.

(** X13.  What the loop does for an image that converts (its bytes
    convert and there is no directory at the PNG path): the PNG bytes are
    at the PNG path, the mapping sends the image to that path, and the
    conversion is logged.  An image with another extension than [.png]
    is removed; an image named [*.png] is overwritten in place; an
    image whose extension is [.png] in another case (as [.PNG]) stays in
    the tree beside the new file (paths that differ in case are
    different files).  No other path changes. *)
Theorem convert_image_success (convert : str -> option str) (st : run_state)
    (p data png : str) :
  lookup_path p (scratch st) = Some (File data) ->
  lower (suffix p) ∈ image_extensions ->
  convert data = Some png ->
  lookup_path (png_path p) (scratch st) <> Some Dir ->
  let st' := convert_image convert st p in
  lookup_path (png_path p) (scratch st') = Some (File png) /\
  (p, png_path p) ∈ image_mapping st' /\
  log st' = log st ++ [Converted p (png_path p)] /\
  (lower (suffix p) <> lit ".png" -> lookup_path p (scratch st') = None) /\
  (suffix p = lit ".png" -> png_path p = p) /\
  (lower (suffix p) = lit ".png" -> suffix p <> lit ".png" ->
     png_path p <> p /\ lookup_path p (scratch st') = Some (File data)) /\
  (forall q, q <> p -> q <> png_path p ->
     lookup_path q (scratch st') = lookup_path q (scratch st)).
Proof.
  intros Hl Hext Hc Hdir st'. subst st'.
  rewrite (convert_image_ok convert st p data png Hl Hext Hc Hdir).
  cbn [scratch image_mapping log]. split_and!.
  - case_decide as Hlow.
    + rewrite lookup_unlink_ne by (by apply png_path_moves, lower_png).
      apply lookup_write_file_eq.
    + apply lookup_write_file_eq.
  - apply dict_set_elem_eq.
  - done.
  - intros Hlow. rewrite decide_True by done. apply lookup_unlink_eq.
  - apply png_path_fixed.
  - intros Hlow Hs. split; [by apply png_path_moves|].
    rewrite decide_False by (by intros ?).
    rewrite lookup_write_file_ne; [done|].
    intros Heq. by apply (png_path_moves p).
  - intros q Hq Hq'. case_decide.
    + by rewrite lookup_unlink_ne, lookup_write_file_ne.
    + by rewrite lookup_write_file_ne.
Qed.

Lemma convert_image_success_witness :
  lookup_path (lit "OEBPS/cover.JPG")
    (scratch (convert_image copying_convert (RunState book_tree [] [])
                            (lit "OEBPS/cover.JPG"))) = None.
Proof.
  destruct (convert_image_success copying_convert (RunState book_tree [] [])
              (lit "OEBPS/cover.JPG") (lit "jpeg bytes") (lit "jpeg bytes"))
    as (_ & _ & _ & Hgone & _).
  - reflexivity.
  - in_literal.
  - reflexivity.
  - vm_compute. discriminate.
  - apply Hgone. vm_compute. discriminate.
Defined.


Section Conversions.

Variable convert : str -> option str.

Implicit Types (st : run_state) (p o n : str) (t : tree).



End Conversions.


(** ** The reference phase and the whole run *)

Section ReferencePhase.

Implicit Types (t : tree) (m : mapping) (p q ext : str).

Lemma rewrite_file_paths read rewriter m t path :
  map fst (rewrite_file read rewriter m t path) = map fst t.
Proof.
  unfold rewrite_file.
  destruct (lookup_path path t) as [[data|]|] eqn:Hl; [|done..].
  destruct (read data) as [text|]; [|done].
  destruct (rewriter text m) as [content [|]]; [|done].
  apply write_file_paths. by eapply lookup_path_in.
Qed.

Lemma rewrite_file_lookup_ne read rewriter m t path q :
  q <> path ->
  lookup_path q (rewrite_file read rewriter m t path) = lookup_path q t.
Proof.
  intros Hne. unfold rewrite_file.
  destruct (lookup_path path t) as [[data|]|] eqn:Hl; [|done..].
  destruct (read data) as [text|]; [|done].
  destruct (rewriter text m) as [content [|]]; [|done].
  by apply lookup_write_file_ne.
Qed.

(** What a rewriter leaves of a file. *)
Lemma rewrite_file_lookup_eq read rewriter m t path data :
  lookup_path path t = Some (File data) ->
  lookup_path path (rewrite_file read rewriter m t path)
    = Some (File
        match read data with
        | Some content =>
            if snd (rewriter content m) then fst (rewriter content m)
            else data
        | None => data
        end).
Proof.
  intros Hl. unfold rewrite_file. rewrite Hl.
  destruct (read data) as [text|]; [|done].
  destruct (rewriter text m) as [content [|]]; cbn [fst snd]; [|done].
  apply lookup_write_file_eq.
Qed.

Lemma rewrite_files_paths ext read rewriter m t :
  map fst (rewrite_files ext read rewriter m t) = map fst t.
Proof.
  unfold rewrite_files. generalize (map fst t) at 1. intros paths.
  revert t. induction paths as [|path paths IH]; intros t; [done|].
  cbn [fold_left]. rewrite IH.
  destruct (endswith (basename path) ext); [|done].
  apply rewrite_file_paths.
Qed.

Lemma rewrite_files_lookup_other ext read rewriter m t q :
  endswith (basename q) ext = false ->
  lookup_path q (rewrite_files ext read rewriter m t) = lookup_path q t.
Proof.
  intros Hq. unfold rewrite_files. generalize (map fst t). intros paths.
  revert t. induction paths as [|path paths IH]; intros t; [done|].
  cbn [fold_left]. rewrite IH.
  destruct (endswith (basename path) ext) eqn:Hext; [|done].
  apply rewrite_file_lookup_ne. intros ->. congruence.
Qed.

(** A file whose name ends with [ext] is rewritten once. *)
Lemma rewrite_files_lookup_self ext read rewriter m t q data :
  NoDup (map fst t) ->
  lookup_path q t = Some (File data) ->
  endswith (basename q) ext = true ->
  lookup_path q (rewrite_files ext read rewriter m t)
    = Some (File
        match read data with
        | Some content =>
            if snd (rewriter content m) then fst (rewriter content m)
            else data
        | None => data
        end).
Proof.
  intros Hnd Hl Hext. unfold rewrite_files.
  pose proof (lookup_path_in _ _ _ Hl) as Hin.
  revert Hnd Hin. generalize (map fst t). intros paths. revert t Hl.
  assert (forall paths t, q ∉ paths ->
            lookup_path q
              (fold_left
                 (fun t path =>
                    if endswith (basename path) ext
                    then rewrite_file read rewriter m t path else t)
                 paths t) = lookup_path q t) as Hrest.
  { clear. induction paths as [|path paths IH]; intros t Hq; [done|].
    apply not_elem_of_cons in Hq as [Hne Hq]. cbn [fold_left].
    rewrite IH by done.
    destruct (endswith (basename path) ext); [|done].
    by apply rewrite_file_lookup_ne. }
  induction paths as [|path paths IH]; intros t Hl Hnd Hin;
    [by apply elem_of_nil in Hin|].
  apply NoDup_cons in Hnd as [Hpath Hnd]. cbn [fold_left].
  destruct (decide (path = q)) as [->|Hne].
  - rewrite Hrest by done. rewrite Hext.
    by apply rewrite_file_lookup_eq.
  - apply elem_of_cons in Hin as [?|Hin]; [congruence|].
    apply IH; [|done..].
    destruct (endswith (basename path) ext); [|done].
    by rewrite rewrite_file_lookup_ne by congruence.
Qed.

Lemma rewrite_files_lookup_none ext read rewriter m t q :
  lookup_path q t = None ->
  lookup_path q (rewrite_files ext read rewriter m t) = None.
Proof.
  rewrite !lookup_path_None. by rewrite rewrite_files_paths.
Qed.

Variables (parse_items : str -> option (list attrs))
          (write_items : str -> list attrs -> str).

Lemma update_references_paths m t :
  map fst (update_references parse_items write_items m t) = map fst t.
Proof.
  unfold update_references. destruct m; [done|].
  by rewrite !rewrite_files_paths.
Qed.

Lemma update_references_lookup_other m t q :
  Forall (fun ext => endswith (basename q) ext = false) markup_extensions ->
  lookup_path q (update_references parse_items write_items m t)
    = lookup_path q t.
Proof.
  intros Hq. unfold markup_extensions in Hq.
  repeat (apply Forall_cons in Hq as [? Hq]).
  unfold update_references. destruct m; [done|].
  by rewrite !rewrite_files_lookup_other.
Qed.

Lemma update_references_lookup_none m t q :
  lookup_path q t = None ->
  lookup_path q (update_references parse_items write_items m t) = None.
Proof.
  rewrite !lookup_path_None. by rewrite update_references_paths.
Qed.

End ReferencePhase.

Section Process.

Variables (convert : str -> option str)
          (parse_items : str -> option (list attrs))
          (write_items : str -> list attrs -> str).

Implicit Types (t : tree) (p q : str).

Lemma process_epub_eq t :
  let st := convert_images convert (map fst t) (RunState t [] []) in
  let t' := update_references parse_items write_items (image_mapping st)
              (scratch st) in
  process_epub convert parse_items write_items (Some t)
    = Some (repack t',
            RunState t' (image_mapping st)
              (log st ++ match image_mapping st with
                         | [] => [NoImagesFound]
                         | _ :: _ => []
                         end)).
Proof.
  intros st t'. subst t'. unfold process_epub. cbn [mbind option_bind].
  fold st. destruct (image_mapping st) eqn:Hm; cbn [scratch image_mapping log].
  - done.
  - by rewrite Hm, app_nil_r.
Qed.

Lemma repack_file p data t :
  lookup_path p t = Some (File data) -> basename p <> lit "mimetype" ->
  ZipEntry p data ZIP_DEFLATED ∈ repack t.
Proof.
  intros Hl Hname. unfold repack. apply elem_of_app. right.
  apply repack_others_spec. exists data. cbn [arcname].
  split_and!; [by apply lookup_path_elem|done..].
Qed.

Lemma repack_absent p t :
  lookup_path p t = None -> p <> lit "mimetype" -> p <> lit "mimetype/" ->
  forall e, e ∈ repack t -> arcname e <> p.
Proof.
  intros Hl Hp1 Hp2 e He Heq. unfold repack in He.
  apply elem_of_app in He as [He|He].
  - apply repack_head_names in He as [He|He]; congruence.
  - apply repack_others_spec in He as (d & Hin & _).
    apply lookup_path_None in Hl. apply Hl.
    apply list_elem_of_fmap. exists (arcname e, File d). by rewrite Heq in *.
Qed.

Lemma png_name_not_markup s :
  Forall (fun ext => endswith (s ++ lit ".png") ext = false) markup_extensions.
Proof.
  unfold markup_extensions.
  repeat (apply Forall_cons; split); try apply Forall_nil_2;
    (destruct (endswith _ _) eqn:He; [|done]);
    apply endswith_spec in He as [r Hr];
    apply (f_equal (@rev ascii)) in Hr; rewrite !rev_app_distr in Hr;
    cbn in Hr; discriminate.
Qed.

Lemma png_name_not_mimetype s : s ++ lit ".png" <> lit "mimetype".
Proof.
  intros Hr. apply (f_equal (@rev ascii)) in Hr. rewrite rev_app_distr in Hr.
  cbn in Hr. discriminate.
Qed.

Lemma image_not_mimetype p :
  lower (suffix p) ∈ image_extensions ->
  p <> lit "mimetype" /\ p <> lit "mimetype/".
Proof.
  intros Hext. split; intros ->; revert Hext; not_in_literal.
Qed.

End Process.



(** X17.  A file that is no image, no markup file and not named [mimetype]
    goes through the run untouched: it is an entry of the new archive,
    compressed, under its path and with its bytes. *)
Theorem other_files_pass_through (convert : str -> option str)
    (parse_items : str -> option (list attrs))
    (write_items : str -> list attrs -> str) (t : tree) (p data : str) :
  lookup_path p t = Some (File data) ->
  lower (suffix p) ∉ image_extensions ->
  Forall (fun ext => endswith (basename p) ext = false) markup_extensions ->
  basename p <> lit "mimetype" ->
  exists entries st,
    process_epub convert parse_items write_items (Some t)
      = Some (entries, st) /\
    ZipEntry p data ZIP_DEFLATED ∈ entries /\
    lookup_path p (scratch st) = Some (File data).
Proof.
  intros Hl Himg Hmarkup Hname. rewrite process_epub_eq.
  eexists _, _. split; [reflexivity|]. cbn [scratch].
  assert (lookup_path p
            (update_references parse_items write_items
               (image_mapping (convert_images convert (map fst t)
                                 (RunState t [] [])))
               (scratch (convert_images convert (map fst t)
                           (RunState t [] []))))
          = Some (File data)) as Hfinal.
  { rewrite update_references_lookup_other by done.
    by rewrite convert_images_lookup_nonimage. }
  split; [|done]. by apply repack_file.
Qed.

Lemma other_files_pass_through_witness :
  exists entries st,
    process_epub copying_convert (fun _ => None) (fun data _ => data)
                 (Some book_tree) = Some (entries, st) /\
    ZipEntry (lit "OEBPS/font.ttf") (lit "font bytes") ZIP_DEFLATED ∈ entries /\
    lookup_path (lit "OEBPS/font.ttf") (scratch st) = Some (File (lit "font bytes")).
Proof.
  apply (other_files_pass_through copying_convert (fun _ => None)
           (fun data _ => data) book_tree).
  - reflexivity.
  - not_in_literal.
  - repeat constructor.
  - vm_compute. discriminate.
Defined.

(** X16.  The reference phase adds, removes and reorders no file, and leaves
    the files whose name ends with none of [.htm], [.html], [.xhtml],
    [.css] and [.opf] as they are; so references in other files, as the
    NCX table of contents, are never rewritten. *)
Theorem references_keep_files (parse_items : str -> option (list attrs))
    (write_items : str -> list attrs -> str) (m : mapping) (t : tree) :
  map fst (update_references parse_items write_items m t) = map fst t /\
  (forall q,
     Forall (fun ext => endswith (basename q) ext = false) markup_extensions ->
     lookup_path q (update_references parse_items write_items m t)
       = lookup_path q t).
Proof.
  split.
  - apply update_references_paths.
  - intros q Hq. by apply update_references_lookup_other.
Qed.

Lemma references_keep_files_witness :
  lookup_path (lit "OEBPS/toc.ncx")
    (update_references (fun _ => None) (fun data _ => data)
       [(lit "OEBPS/cover.JPG", lit "OEBPS/cover.png")] book_tree)
    = lookup_path (lit "OEBPS/toc.ncx") book_tree.
Proof.
  destruct (references_keep_files (fun _ => None) (fun data _ => data)
              [(lit "OEBPS/cover.JPG", lit "OEBPS/cover.png")] book_tree)
    as [_ Hother].
  apply Hother. repeat constructor.
Defined.

(** ** More on the rewriters *)

Section RewritersMore.

Implicit Types (s sub content : str) (p : pattern) (m : mapping).

Lemma fold_left_inv_in {A B : Type} (I : A -> Prop) (f : A -> B -> A)
    (l : list B) (a : A) :
  I a -> (forall a b, b ∈ l -> I a -> I (f a b)) -> I (fold_left f l a).
Proof.
  intros Ha Hf. revert a Ha. induction l as [|b l IH]; intros a Ha; [done|].
  cbn. apply IH.
  - intros a' b' Hb'. apply Hf. by right.
  - apply Hf; [by left|done].
Qed.

Lemma fold_left_inv {A B : Type} (I : A -> Prop) (f : A -> B -> A) (l : list B)
    (a : A) :
  I a -> (forall a b, I a -> I (f a b)) -> I (fold_left f l a).
Proof. intros Ha Hf. apply fold_left_inv_in; [done|]. intros ? ? _. apply Hf. Qed.

(** While [modified] is not set, the content is the one read. *)
Lemma rewrite_references_unmodified patterns repl content m :
  snd (rewrite_references patterns repl content m) = false ->
  fst (rewrite_references patterns repl content m) = content.
Proof.
  unfold rewrite_references.
  apply (fold_left_inv (fun st => snd st = false -> fst st = content)).
  - done.
  - intros st [old_path new_path] Hst.
    apply (fold_left_inv (fun st => snd st = false -> fst st = content));
      [done|].
    intros st' p Hst'. unfold apply_pattern. by case_decide.
Qed.

Lemma contains_drop sub s i :
  contains sub s = false -> startswith sub (drop i s) = false.
Proof.
  revert i. induction s as [|c s IH]; intros i; cbn [contains].
  - intros [H _]%orb_false_elim. by rewrite drop_nil.
  - intros [H Hs]%orb_false_elim. destruct i as [|i]; [done|].
    cbn [drop]. by apply IH.
Qed.

Lemma startswith_app_l s1 s2 s :
  startswith s1 s = false -> startswith (s1 ++ s2) s = false.
Proof.
  intros Hs. destruct (startswith (s1 ++ s2) s) eqn:Hs'; [|done].
  apply startswith_spec in Hs' as [r ->]. rewrite <- app_assoc in Hs.
  by rewrite startswith_app in Hs.
Qed.

Lemma match_at_prefix p s :
  startswith (pre p) s = false -> match_at p s = None.
Proof.
  intros Hs. destruct (match_at p s) as [[g r]|] eqn:Hm; [|done].
  apply match_at_sound in Hm as [-> _]. by rewrite startswith_app in Hs.
Qed.

(** A pattern whose literal start begins with [sub] changes no text
    that does not contain [sub]. *)
Lemma re_sub_not_contained p repl sub rest s :
  pre p = sub ++ rest -> contains sub s = false -> re_sub p repl s = s.
Proof.
  intros Hpre Hs. apply re_sub_none. intros i. apply match_at_prefix.
  rewrite Hpre. apply startswith_app_l. by apply contains_drop.
Qed.

Lemma rewrite_references_not_contained patterns repl sub content m :
  (forall old, Forall (fun p => exists rest, pre p = sub ++ rest)
                      (patterns old)) ->
  contains sub content = false ->
  rewrite_references patterns repl content m = (content, false).
Proof.
  intros Hpre Hs. unfold rewrite_references.
  apply (fold_left_inv (fun st => st = (content, false))); [done|].
  intros st [old_path new_path] ->.
  apply (fold_left_inv_in (fun st => st = (content, false))); [done|].
  intros st p Hp ->.
  pose proof (Hpre (basename old_path)) as Hall.
  rewrite Forall_forall in Hall. destruct (Hall p Hp) as [rest Hrest].
  unfold apply_pattern. cbn [fst].
  rewrite (re_sub_not_contained p _ sub rest content Hrest Hs).
  by rewrite decide_False by (by intros ?).
Qed.

End RewritersMore.

(** X5.  A rewriter that does not report a change has not changed the
    content: whenever the content changes, [modified] is set and the
    file is written back. *)
Theorem unmodified_unchanged (content : str) (m : mapping) :
  (snd (update_xml_references content m) = false ->
   fst (update_xml_references content m) = content) /\
  (snd (update_css_references content m) = false ->
   fst (update_css_references content m) = content).
Proof. split; apply rewrite_references_unmodified. Qed.

Lemma unmodified_unchanged_witness :
  fst (update_xml_references svg_cover cover_mapping) = svg_cover.
Proof.
  destruct (unmodified_unchanged svg_cover cover_mapping) as [Hxml _].
  apply Hxml. vm_compute. reflexivity.
Defined.

(** X6.  The HTML/XHTML rewriter looks at [src] attributes only and the CSS
    rewriter at [url()] tokens only: a text in which [src=] (resp.
    [url(]) does not occur is left as it is, and not written back,
    whatever the mapping.  So a reference made with [href] or
    [xlink:href], or with [@import] and a string, is never rewritten. *)
Theorem references_need_src_or_url (content : str) (m : mapping) :
  (contains (lit "src=") content = false ->
   update_xml_references content m = (content, false)) /\
  (contains (lit "url(") content = false ->
   update_css_references content m = (content, false)).
Proof.
  split; intros Hs.
  - apply (rewrite_references_not_contained _ _ (lit "src=")); [|done].
    intros old. unfold xml_patterns. repeat constructor; by eexists.
  - apply (rewrite_references_not_contained _ _ (lit "url(")); [|done].
    intros old. unfold css_patterns. repeat constructor; cbn [pre].
    + by eexists.
    + by eexists.
    + exists []. by rewrite app_nil_r.
Qed.

Lemma references_need_src_or_url_witness :
  update_xml_references svg_cover cover_mapping = (svg_cover, false) /\
  update_css_references import_rule cover_mapping = (import_rule, false).
Proof.
  destruct (references_need_src_or_url svg_cover cover_mapping) as [Hxml _].
  destruct (references_need_src_or_url import_rule cover_mapping) as [_ Hcss].
  split; [apply Hxml|apply Hcss]; vm_compute; reflexivity.
Defined.

(** ** More on the manifest *)

Section ManifestMore.

Implicit Types (m : mapping) (item : attrs) (k v href : str).

Lemma dict_get_absent k d item : k ∉ map fst item -> dict_get k d item = d.
Proof.
  induction item as [|[k0 v0] item IH]; [done|]. cbn. intros Hk.
  rewrite decide_False.
  - apply IH. intros Hin. apply Hk. by right.
  - intros ->. apply Hk. by left.
Qed.

Lemma dict_get_present k v item :
  dict_get k [] item = v -> v <> [] -> k ∈ map fst item.
Proof.
  intros Hget Hv. destruct (decide (k ∈ map fst item)) as [|Hk]; [done|].
  rewrite dict_get_absent in Hget by done. congruence.
Qed.

Lemma dict_set_present_keys k v item :
  k ∈ map fst item -> map fst (dict_set k v item) = map fst item.
Proof. intros Hk. rewrite dict_set_keys. by rewrite bool_decide_eq_true_2. Qed.

Lemma endswith_nil s : s <> [] -> endswith [] s = false.
Proof.
  intros Hs. destruct (endswith [] s) eqn:He; [|done].
  apply endswith_spec in He as [r Hr]. symmetry in Hr.
  by apply app_eq_nil in Hr as [_ ->].
Qed.

Lemma named_elem m e : named m -> e ∈ m -> basename e.1 <> [].
Proof. unfold named. rewrite Forall_forall. intros Hn. apply Hn. Qed.

Lemma update_item_no_href m item :
  named m -> dict_get (lit "href") [] item = [] ->
  update_item m item = (item, false).
Proof.
  intros Hn Hhref. unfold update_item. rewrite Hhref.
  apply update_item_with_none. apply Forall_forall. intros e He.
  apply endswith_nil. by apply named_elem with m.
Qed.

Lemma update_item_keys m item :
  named m -> map fst (fst (update_item m item)) = map fst item.
Proof.
  intros Hn. unfold update_item.
  set (href := dict_get (lit "href") [] item).
  set (mt := dict_get (lit "media-type") [] item).
  destruct (first_true (fun e => endswith href (basename e.1)) m)
    as [Hnone|(before & [o n] & after & Hm & Hb & He)].
  - by rewrite update_item_with_none.
  - cbn [fst] in He. rewrite Hm.
    rewrite (update_item_with_first _ _ _ _ _ _ _ Hb He). cbn [fst].
    assert (href <> []) as Hhref.
    { intros Heq. rewrite Heq, endswith_nil in He; [done|].
      apply (named_elem m (o, n)); [done|].
      rewrite Hm. apply elem_of_app. right. by left. }
    assert (lit "href" ∈ map fst item) as Hk
      by by apply (dict_get_present _ href).
    case_decide as Hmt.
    + rewrite !dict_set_present_keys; [done|done|].
      rewrite dict_set_present_keys by done.
      apply (dict_get_present _ mt); [done|]. by rewrite Hmt.
    + by rewrite dict_set_present_keys.
Qed.

Lemma update_item_modified m item :
  snd (update_item m item) = true <->
  exists e, e ∈ m /\
    endswith (dict_get (lit "href") [] item) (basename e.1) = true.
Proof.
  unfold update_item.
  set (href := dict_get (lit "href") [] item).
  destruct (first_true (fun e => endswith href (basename e.1)) m)
    as [Hnone|(before & [o n] & after & Hm & Hb & He)].
  - rewrite update_item_with_none by done. cbn [snd]. split; [done|].
    intros (e & Hin & He). rewrite Forall_forall in Hnone.
    by rewrite (Hnone e Hin) in He.
  - cbn [fst] in He. rewrite Hm.
    rewrite (update_item_with_first _ _ _ _ _ _ _ Hb He). cbn [snd].
    split; [|done]. intros _. exists (o, n). split; [|done].
    apply elem_of_app. right. by left.
Qed.

Lemma update_item_unmodified m item :
  snd (update_item m item) = false -> fst (update_item m item) = item.
Proof.
  unfold update_item.
  set (href := dict_get (lit "href") [] item).
  destruct (first_true (fun e => endswith href (basename e.1)) m)
    as [Hnone|(before & [o n] & after & Hm & Hb & He)].
  - by rewrite update_item_with_none.
  - cbn [fst] in He. rewrite Hm.
    by rewrite (update_item_with_first _ _ _ _ _ _ _ Hb He).
Qed.

End ManifestMore.

(** X7.  The manifest rewriter keeps the items, their order, and the names
    and the order of the attributes of every item (for a mapping with
    non-empty old file names, as the image loop builds): it only puts
    new values on [href] and [media-type].  An item without [href], or
    with an empty one, is left as it is. *)
Theorem manifest_shape_kept (items : list attrs) (m : mapping) :
  named m ->
  map (map fst) (fst (update_opf_manifest items m)) = map (map fst) items /\
  length (fst (update_opf_manifest items m)) = length items /\
  (forall item, dict_get (lit "href") [] item = [] ->
     update_item m item = (item, false)).
Proof.
  intros Hn. unfold update_opf_manifest. cbn [fst]. split_and!.
  - rewrite map_map. apply map_ext. intros item. by apply update_item_keys.
  - by rewrite length_map.
  - intros item Hhref. by apply update_item_no_href.
Qed.

Lemma manifest_shape_kept_witness :
  map (map fst) (fst (update_opf_manifest [cover_item; nameless_item]
                                          cover_mapping))
    = map (map fst) [cover_item; nameless_item].
Proof.
  destruct (manifest_shape_kept [cover_item; nameless_item] cover_mapping)
    as (Hkeys & _).
  - repeat constructor. vm_compute. discriminate.
  - exact Hkeys.
Defined.

(** X8.  The manifest is reported as modified, and written back, exactly
    when the [href] of some item ends with the old file name of some
    mapping entry (even if the new file name is the same); otherwise
    the items are unchanged. *)
Theorem manifest_modified_iff (items : list attrs) (m : mapping) :
  (snd (update_opf_manifest items m) = true <->
   exists item e, item ∈ items /\ e ∈ m /\
     endswith (dict_get (lit "href") [] item) (basename e.1) = true) /\
  (snd (update_opf_manifest items m) = false ->
   fst (update_opf_manifest items m) = items).
Proof.
  unfold update_opf_manifest. cbn [fst snd]. split.
  - rewrite existsb_exists. split.
    + intros (item & Hin & Hmod). apply update_item_modified in Hmod as (e & He & Hends).
      exists item, e. split_and!; [by apply list_elem_of_In|done..].
    + intros (item & e & Hin & He & Hends). exists item.
      split; [by apply list_elem_of_In|].
      apply update_item_modified. by exists e.
  - intros Hnone. rewrite <- (map_id items) at 2. apply map_ext_in.
    intros item Hin. apply update_item_unmodified.
    destruct (snd (update_item m item)) eqn:Hmod; [|done].
    assert (existsb (fun item => snd (update_item m item)) items = true)
      as Hex by (apply existsb_exists; by exists item).
    congruence.
Qed.

Lemma manifest_modified_iff_witness :
  fst (update_opf_manifest [nameless_item] cover_mapping) = [nameless_item].
Proof.
  destruct (manifest_modified_iff [nameless_item] cover_mapping) as [_ Hsame].
  apply Hsame. vm_compute. reflexivity.
Defined.

(** ** The parsed package document *)

Section Elements.

Implicit Types (e c M : element) (cs : list element) (T : str)
  (sel : str -> bool) (f : attrs -> attrs) (g : element -> element).

Lemma element_induction (P : element -> Prop) :
  (forall t a tx tl cs, Forall P cs -> P (Element t a tx tl cs)) ->
  forall e, P e.
Proof.
  intros H. fix IH 1. intros [t a tx tl cs]. apply H.
  revert cs. fix IHcs 1. intros [|c cs]; constructor; [apply IH|apply IHcs].
Qed.

Lemma tag_update_all sel f e : tag (update_all sel f e) = tag e.
Proof. by destruct e. Qed.

Lemma attrib_update_all sel f e :
  attrib (update_all sel f e)
    = if sel (tag e) then f (attrib e) else attrib e.
Proof. by destruct e. Qed.

Lemma flat_map_map {A B C : Type} (h : A -> B) (k : B -> list C) (l : list A) :
  flat_map k (map h l) = flat_map (fun x => k (h x)) l.
Proof. induction l as [|x l IH]; [done|]. cbn. by rewrite IH. Qed.

Lemma map_flat_map {A B C : Type} (h : B -> C) (k : A -> list B) (l : list A) :
  map h (flat_map k l) = flat_map (fun x => map h (k x)) l.
Proof. induction l as [|x l IH]; [done|]. cbn. by rewrite map_app, IH. Qed.

Lemma flat_map_ext_Forall {A B : Type} (h k : A -> list B) (l : list A) :
  Forall (fun x => h x = k x) l -> flat_map h l = flat_map k l.
Proof. induction 1 as [|x l Hx _ IH]; [done|]. cbn. by rewrite Hx, IH. Qed.

Lemma iter_update_all sel f e :
  iter (update_all sel f e) = map (update_all sel f) (iter e).
Proof.
  induction e as [t a tx tl cs IH] using element_induction.
  cbn [update_all iter map]. f_equal.
  rewrite flat_map_map, map_flat_map. by apply flat_map_ext_Forall.
Qed.

Lemma filter_map_tag sel' sel f (l : list element) :
  filter (fun d => sel' (tag d)) (map (update_all sel f) l)
    = map (update_all sel f) (filter (fun d => sel' (tag d)) l).
Proof.
  induction l as [|d l IH]; [done|]. cbn [map].
  rewrite !filter_cons, tag_update_all.
  destruct (decide (sel' (tag d))); cbn [map]; by rewrite IH.
Qed.

(** The elements a path finds below a rewritten element are the
    rewritten elements it found before. *)
Lemma findall_update_below T sel f M :
  findall T (update_below sel f M) = map (update_all sel f) (findall T M).
Proof.
  destruct M as [t a tx tl cs]. unfold findall. cbn [update_below children].
  rewrite flat_map_map.
  rewrite <- (flat_map_ext_Forall (fun x => map (update_all sel f) (iter x))).
  - rewrite <- map_flat_map. apply filter_map_tag.
  - apply Forall_forall. intros c _. by rewrite iter_update_all.
Qed.

Lemma tag_update_below sel f M : tag (update_below sel f M) = tag M.
Proof. by destruct M. Qed.

(** *** [update_first] *)

Lemma update_first_cons T g t a tx tl c cs :
  update_first T g (Element t a tx tl (c :: cs)) =
    if selects T (tag c) then Some (Element t a tx tl (g c :: cs))
    else
      match update_first T g c with
      | Some c' => Some (Element t a tx tl (c' :: cs))
      | None =>
          e' ← update_first T g (Element t a tx tl cs);
          Some (Element t a tx tl (c :: children e'))
      end.
Proof.
  cbn [update_first update_first_in]. destruct (selects T (tag c)); [done|].
  destruct (update_first T g c); [done|].
  by destruct (update_first_in T g (update_first T g) cs).
Qed.

Lemma update_first_nil T g t a tx tl :
  update_first T g (Element t a tx tl []) = None.
Proof. done. Qed.

Lemma tag_update_first T g e e' :
  update_first T g e = Some e' -> tag e' = tag e.
Proof.
  destruct e as [t a tx tl cs]. cbn [update_first].
  destruct (update_first_in T g (update_first T g) cs); [|done].
  by intros [= <-].
Qed.

Lemma findall_cons T t a tx tl c cs :
  findall T (Element t a tx tl (c :: cs))
    = (if selects T (tag c) then [c] else []) ++ findall T c
      ++ findall T (Element t a tx tl cs).
Proof.
  unfold findall. cbn [children flat_map].
  destruct c as [t' a' tx' tl' cs']. cbn [iter children tag].
  rewrite filter_app, filter_cons. cbn [tag].
  destruct (decide (selects T t')) as [Hs|Hs].
  - by rewrite (Is_true_true_1 _ Hs).
  - apply Is_true_false_1 in Hs. by rewrite Hs.
Qed.

Lemma update_first_none T g e :
  findall T e = [] -> update_first T g e = None.
Proof.
  induction e as [t a tx tl cs IH] using element_induction.
  induction IH as [|c cs Hc _ IHcs]; [done|].
  rewrite findall_cons, update_first_cons.
  destruct (selects T (tag c)); [done|]. cbn [app].
  intros [Hc' Hcs]%app_eq_nil.
  by rewrite (Hc Hc'), (IHcs Hcs).
Qed.

(** The element that [find] returns is the one that [update_first]
    replaces. *)
Lemma find_update_first T g e M :
  (forall c, tag (g c) = tag c) ->
  find T e = Some M ->
  exists e', update_first T g e = Some e' /\ find T e' = Some (g M).
Proof.
  intros Hg. revert M.
  induction e as [t a tx tl cs IH] using element_induction.
  induction IH as [|c cs Hc _ IHcs]; intros M; [done|].
  unfold find. rewrite findall_cons, update_first_cons.
  destruct (selects T (tag c)) eqn:Hsel.
  - cbn. intros [= <-]. eexists. split; [done|].
    rewrite findall_cons, Hg, Hsel. done.
  - cbn [app]. destruct (findall T c) as [|M0 rest] eqn:Hfc.
    + cbn [app]. intros HM.
      rewrite (update_first_none T g c Hfc).
      destruct (IHcs M HM) as (e' & He' & Hfind').
      rewrite He'. cbn. eexists. split; [done|].
      rewrite findall_cons, Hsel, Hfc. cbn [app].
      pose proof (tag_update_first _ _ _ _ He') as Htag.
      destruct e' as [t' a' tx' tl' cs']. cbn in Htag. subst t'.
      cbn [children].
      cbn [update_first] in He'.
      destruct (update_first_in T g (update_first T g) cs); [|done].
      cbn in He'. injection He' as <-. exact Hfind'.
    + cbn. intros [= <-].
      destruct (Hc M0) as (c' & Hc' & Hfind'); [by unfold find; rewrite Hfc|].
      rewrite Hc'. eexists. split; [done|].
      rewrite findall_cons, (tag_update_first _ _ _ _ Hc'), Hsel. cbn [app].
      unfold find in Hfind'. destruct (findall T c'); [done|].
      cbn in *. done.
Qed.

(** A manifest among the children of the root, with none before it:
    the subtrees beside it are not touched. *)
Lemma update_first_child T g t a tx tl before M after :
  Forall (fun d => selects T (tag d) = false) (flat_map iter before) ->
  selects T (tag M) = true ->
  update_first T g (Element t a tx tl (before ++ M :: after))
    = Some (Element t a tx tl (before ++ g M :: after)) /\
  find T (Element t a tx tl (before ++ M :: after)) = Some M.
Proof.
  intros Hbefore HM. induction before as [|c before IH].
  - cbn [app]. unfold find.
    rewrite update_first_cons, findall_cons, HM. done.
  - cbn [flat_map] in Hbefore. apply Forall_app in Hbefore as [Hc Hb].
    destruct (IH Hb) as [IH1 IH2].
    assert (selects T (tag c) = false) as Hsel.
    { destruct c. cbn [iter] in Hc. by apply Forall_cons in Hc as [? _]. }
    assert (findall T c = []) as Hfc.
    { unfold findall. destruct c as [t' a' tx' tl' cs']. cbn [iter children] in *.
      apply Forall_cons in Hc as [_ Hc].
      induction Hc as [|d l Hd _ IHl]; [done|].
      rewrite filter_cons, Hd. done. }
    cbn [app]. unfold find in *.
    rewrite update_first_cons, findall_cons, Hsel, Hfc.
    rewrite (update_first_none T g c Hfc). rewrite IH1. cbn. done.
Qed.

(** *** The outline *)

Lemma outline_attrs (a b : attrs) :
  map fst a = map fst b ->
  map (fun kv => (kv.1, @nil ascii)) a = map (fun kv => (kv.1, [])) b.
Proof.
  intros Hk.
  rewrite <- (map_map fst (fun k => (k, @nil ascii)) a).
  rewrite <- (map_map fst (fun k => (k, @nil ascii)) b).
  by rewrite Hk.
Qed.

Lemma outline_update_all sel f e :
  (forall a, map fst (f a) = map fst a) ->
  outline (update_all sel f e) = outline e.
Proof.
  intros Hf. induction e as [t a tx tl cs IH] using element_induction.
  cbn [update_all outline]. f_equal.
  - destruct (sel t); [|done]. by apply outline_attrs.
  - rewrite map_map. induction IH as [|c cs Hc _ IHcs]; [done|].
    cbn. by rewrite Hc, IHcs.
Qed.

Lemma outline_update_below sel f e :
  (forall a, map fst (f a) = map fst a) ->
  outline (update_below sel f e) = outline e.
Proof.
  intros Hf. destruct e as [t a tx tl cs]. cbn [update_below outline].
  f_equal. rewrite map_map. apply map_ext. intros c.
  by apply outline_update_all.
Qed.

Lemma outline_update_first T g e e' :
  (forall c, outline (g c) = outline c) ->
  update_first T g e = Some e' -> outline e' = outline e.
Proof.
  intros Hg. revert e'.
  induction e as [t a tx tl cs IH] using element_induction.
  induction IH as [|c cs Hc _ IHcs]; intros e'; [done|].
  rewrite update_first_cons. destruct (selects T (tag c)).
  - intros [= <-]. cbn [outline map]. by rewrite Hg.
  - destruct (update_first T g c) as [c'|].
    + intros [= <-]. cbn [outline map]. by rewrite (Hc c').
    + destruct (update_first T g (Element t a tx tl cs)) as [e0|]; [|done].
      cbn. intros [= <-]. specialize (IHcs e0 eq_refl).
      destruct e0 as [t0 a0 tx0 tl0 cs0]. cbn [outline map children] in *.
      injection IHcs as _ _ _ _ Hcs. by rewrite Hcs.
Qed.

(** *** The namespace of the root *)

Lemma before_brace_app uri rest :
  "}"%char ∉ uri -> before_brace (uri ++ "}"%char :: rest) = uri.
Proof.
  induction uri as [|c uri IH]; intros Hu; cbn.
  - by rewrite decide_True.
  - rewrite decide_False.
    + f_equal. apply IH. intros Hin. apply Hu. by right.
    + intros ->. apply Hu. by left.
Qed.

End Elements.

(** X9.  The namespace the handler looks for is the one in the tag of the
    root: for a root [{uri}local] (the namespace URI holding no [}]) it
    is [uri], and for a root without a namespace it is the OPF
    namespace [http://www.idpf.org/2007/opf]. *)
Theorem opf_namespace_of_root (uri local root_tag : str) :
  ("}"%char ∉ uri -> opf_namespace (qualified uri local) = uri) /\
  (startswith (lit "{") root_tag = false ->
   opf_namespace root_tag = default_namespace).
Proof.
  split.
  - intros Hu. unfold opf_namespace, qualified. rewrite startswith_app.
    change (lit "{" ++ uri ++ lit "}" ++ local)
      with ("{"%char :: uri ++ "}"%char :: local).
    cbn [before_brace]. rewrite decide_False by done. cbn [drop].
    by apply before_brace_app.
  - intros Hs. unfold opf_namespace. by rewrite Hs.
Qed.

Lemma opf_namespace_of_root_witness :
  opf_namespace (qualified default_namespace (lit "package"))
    = default_namespace.
Proof.
  destruct (opf_namespace_of_root default_namespace (lit "package") [])
    as [Huri _].
  apply Huri. not_in_literal.
Defined.

(** X10.  The manifest handler changes nothing in the document but values of
    attributes: the elements, their tags, their text, their order and
    the names and the order of their attributes stay (for a mapping
    with non-empty old file names); and a document without a manifest
    is returned as it is, unmodified. *)
Theorem opf_tree_outline_kept (root : element) (m : mapping) :
  named m ->
  outline (fst (update_opf_tree root m)) = outline root /\
  (find (manifest_tag root) root = None ->
   update_opf_tree root m = (root, false)).
Proof.
  intros Hn. unfold update_opf_tree. split.
  - destruct (find (manifest_tag root) root) as [M|]; [|done]. cbn [fst].
    destruct (update_first _ _ root) as [root'|] eqn:Hup; [|done]. cbn.
    apply (outline_update_first _ _ _ _ (fun c => outline_update_below _ _ c
             (fun a => update_item_keys m a Hn)) Hup).
  - by intros ->.
Qed.

Lemma opf_tree_outline_kept_witness :
  outline (fst (update_opf_tree sample_package cover_mapping))
    = outline sample_package.
Proof.
  destruct (opf_tree_outline_kept sample_package cover_mapping) as [Hout _].
  - repeat constructor. vm_compute. discriminate.
  - exact Hout.
Defined.

(** X11.  The items the handler rewrites are the items found in the manifest
    that [find] returns, each rewritten where it is as
    [update_opf_manifest] rewrites the list of their attributes, with
    the same [modified].  When the manifest is a child of the root with
    no manifest before it, the other children of the root, its own
    attributes and the manifest's own attributes are untouched. *)
Theorem opf_tree_items (root M : element) (m : mapping) :
  find (manifest_tag root) root = Some M ->
  let items := findall (item_tag root M) M in
  let M' := update_below (selects (item_tag root M))
              (fun a => fst (update_item m a)) M in
  snd (update_opf_tree root m)
    = snd (update_opf_manifest (map attrib items) m) /\
  find (manifest_tag root) (fst (update_opf_tree root m)) = Some M' /\
  map attrib (findall (item_tag root M) M')
    = fst (update_opf_manifest (map attrib items) m) /\
  (forall t a tx tl before after,
     root = Element t a tx tl (before ++ M :: after) ->
     Forall (fun d => selects (manifest_tag root) (tag d) = false)
            (flat_map iter before) ->
     fst (update_opf_tree root m)
       = Element t a tx tl (before ++ M' :: after) /\
     tag M' = tag M /\ attrib M' = attrib M).
Proof.
  intros Hfind items M'. unfold update_opf_tree. rewrite Hfind.
  cbn [fst snd]. fold items. fold M'.
  destruct (find_update_first (manifest_tag root)
              (update_below (selects (item_tag root M))
                 (fun a => fst (update_item m a))) root M)
    as (root' & Hup & Hfind'); [apply tag_update_below|done|].
  rewrite Hup. cbn [default from_option id]. split_and!.
  - unfold update_opf_manifest. cbn [snd].
    subst items. induction (findall _ M) as [|d l IH]; [done|].
    cbn. by rewrite IH.
  - exact Hfind'.
  - subst M'. rewrite findall_update_below. unfold update_opf_manifest.
    cbn [fst]. subst items. rewrite !map_map.
    apply map_ext_in. intros d Hd.
    rewrite attrib_update_all.
    apply list_elem_of_In in Hd. unfold findall in Hd.
    apply list_elem_of_filter in Hd as [Hsel _].
    by rewrite (Is_true_true_1 _ Hsel).
  - intros t a tx tl before after Hroot Hbefore.
    assert (selects (manifest_tag root) (tag M)) as HM.
    { unfold find, findall in Hfind.
      destruct (filter _ _) as [|M0 l] eqn:Hf; [done|].
      injection Hfind as ->.
      assert (M ∈ M :: l) as Hin by left. rewrite <- Hf in Hin.
      by apply list_elem_of_filter in Hin as [? _]. }
    apply Is_true_true_1 in HM.
    subst M'. clear Hfind Hfind' items.
    remember (manifest_tag root) as T eqn:HT.
    remember (item_tag root M) as I eqn:HI.
    clear HT HI. subst root.
    destruct (update_first_child T
                (update_below (selects I) (fun a => fst (update_item m a)))
                t a tx tl before M after Hbefore HM) as [Hup' _].
    rewrite Hup' in Hup. injection Hup as <-.
    split; [done|]. by destruct M.
Qed.

Lemma opf_tree_items_witness :
  map attrib
    (findall (item_tag sample_package sample_manifest)
       (update_below (selects (item_tag sample_package sample_manifest))
          (fun a => fst (update_item cover_mapping a)) sample_manifest))
    = fst (update_opf_manifest
             (map attrib (findall (item_tag sample_package sample_manifest)
                                  sample_manifest))
             cover_mapping).
Proof.
  destruct (opf_tree_items sample_package sample_manifest cover_mapping)
    as (_ & _ & Hitems & _).
  - vm_compute. reflexivity.
  - exact Hitems.
Defined.

(** ** The targets of the mapping *)

Section Targets.

Variable convert : str -> option str.

Implicit Types (st : run_state) (p o n : str).

Lemma png_path_not_other o p :
  lower (suffix o) <> lit ".png" -> stem p <> [] -> o <> png_path p.
Proof.
  intros Ho Hp ->. apply Ho. by rewrite suffix_png_path.
Qed.

(** Every new path of the mapping is a file of the tree, and every old
    path with another extension than [.png] is gone. *)
Lemma convert_image_targets st p :
  Forall pipeline_entry (image_mapping st) ->
  (forall o n, (o, n) ∈ image_mapping st ->
     (exists png, lookup_path n (scratch st) = Some (File png)) /\
     (lower (suffix o) <> lit ".png" -> lookup_path o (scratch st) = None)) ->
  forall o n, (o, n) ∈ image_mapping (convert_image convert st p) ->
    (exists png,
       lookup_path n (scratch (convert_image convert st p)) = Some (File png)) /\
    (lower (suffix o) <> lit ".png" ->
     lookup_path o (scratch (convert_image convert st p)) = None).
Proof.
  intros Hall Hinv o n.
  destruct (convert_image_cases convert st p)
    as [-> | [(data & _ & _ & _ & ->)
             | (data & png & Hl & Hext & _ & _ & ->)]];
    [by apply Hinv..|].
  cbn [image_mapping scratch].
  pose proof (image_stem_nonempty p Hext) as [Hstem _].
  intros [[= -> ->]|Hin]%dict_set_elem.
  - split.
    + exists png. case_decide as Hlow.
      * rewrite lookup_unlink_ne by (by apply png_path_moves, lower_png).
        apply lookup_write_file_eq.
      * apply lookup_write_file_eq.
    + intros Hlow. rewrite decide_True by done. apply lookup_unlink_eq.
  - destruct (Hinv o n Hin) as [[png0 Hn] Ho].
    rewrite Forall_forall in Hall. destruct (Hall _ Hin) as [Hexto Hpng].
    cbn [fst snd] in Hexto, Hpng.
    pose proof (image_stem_nonempty o Hexto) as [Hstemo _].
    assert (exists png1,
              lookup_path n (write_file (png_path p) png (scratch st))
                = Some (File png1)) as [png1 Hn1].
    { destruct (decide (n = png_path p)) as [->|Hne].
      - exists png. apply lookup_write_file_eq.
      - exists png0. by rewrite lookup_write_file_ne. }
    split.
    + exists png1. case_decide as Hlow; [|done].
      rewrite lookup_unlink_ne; [done|].
      rewrite Hpng. intros Heq. symmetry in Heq. revert Heq.
      by apply png_path_not_other.
    + intros Hlowo.
      assert (lookup_path o (write_file (png_path p) png (scratch st)) = None)
        as Ho1.
      { rewrite lookup_write_file_ne by (by apply png_path_not_other).
        by apply Ho. }
      case_decide as Hlow; [|done].
      destruct (decide (o = p)) as [->|Hne].
      * apply lookup_unlink_eq.
      * by rewrite lookup_unlink_ne.
Qed.

Lemma convert_images_targets paths st :
  Forall pipeline_entry (image_mapping st) ->
  (forall o n, (o, n) ∈ image_mapping st ->
     (exists png, lookup_path n (scratch st) = Some (File png)) /\
     (lower (suffix o) <> lit ".png" -> lookup_path o (scratch st) = None)) ->
  forall o n, (o, n) ∈ image_mapping (convert_images convert paths st) ->
    (exists png,
       lookup_path n (scratch (convert_images convert paths st))
         = Some (File png)) /\
    (lower (suffix o) <> lit ".png" ->
     lookup_path o (scratch (convert_images convert paths st)) = None).
Proof.
  revert st. induction paths as [|p paths IH]; intros st Hall Hinv; [done|].
  change (convert_images convert (p :: paths) st)
    with (convert_images convert paths (convert_image convert st p)).
  apply IH.
  - by apply convert_image_entries.
  - by apply convert_image_targets.
Qed.

End Targets.

(** X21.  Whatever the tree holds, the new archive agrees with the
    mapping the references are rewritten by: every new path of the
    mapping is an entry of the archive, and no entry has the path of a
    converted image with another extension than [.png], which was
    removed. *)
Theorem archive_agrees_with_mapping (convert : str -> option str)
    (parse_items : str -> option (list attrs))
    (write_items : str -> list attrs -> str) (t : tree)
    (entries : list zip_entry) (st : run_state) (o n : str) :
  process_epub convert parse_items write_items (Some t) = Some (entries, st) ->
  (o, n) ∈ image_mapping st ->
  n = png_path o /\
  (exists png, ZipEntry n png ZIP_DEFLATED ∈ entries) /\
  (lower (suffix o) <> lit ".png" ->
   forall e, e ∈ entries -> arcname e <> o).
Proof.
  rewrite process_epub_eq. intros [= <- <-]. cbn [image_mapping]. intros Hin.
  set (final := convert_images convert (map fst t) (RunState t [] [])) in *.
  assert (Forall pipeline_entry (image_mapping final)) as Hall
    by (apply convert_images_entries; constructor).
  destruct (convert_images_targets convert (map fst t) (RunState t [] []))
    with (o := o) (n := n) as [[png Hn] Ho].
  - constructor.
  - cbn. by intros ? ? ?%elem_of_nil.
  - exact Hin.
  - rewrite Forall_forall in Hall. destruct (Hall _ Hin) as [Hext Hpng].
    cbn [fst snd] in Hext, Hpng.
    split; [done|]. split.
    + exists png. apply repack_file.
      * rewrite update_references_lookup_other; [done|].
        rewrite Hpng, basename_png_path. apply png_name_not_markup.
      * rewrite Hpng, basename_png_path. apply png_name_not_mimetype.
    + intros Hlow. destruct (image_not_mimetype o Hext) as [Ho1 Ho2].
      apply repack_absent; [|done..].
      apply update_references_lookup_none. by apply Ho.
Qed.

Lemma archive_agrees_with_mapping_witness :
  exists png,
    ZipEntry (lit "images/a.png") png ZIP_DEFLATED
      ∈ (default ([], RunState [] [] [])
           (process_epub copying_convert (fun _ => None) (fun data _ => data)
                         (Some two_formats_tree))).1.
Proof.
  destruct (process_epub copying_convert (fun _ => None) (fun data _ => data)
              (Some two_formats_tree)) as [[entries st]|] eqn:Hrun;
    [|vm_compute in Hrun; discriminate].
  destruct (archive_agrees_with_mapping copying_convert (fun _ => None)
              (fun data _ => data) two_formats_tree entries st
              (lit "images/a.jpg") (lit "images/a.png") Hrun)
    as (_ & Hentry & _).
  - vm_compute in Hrun. injection Hrun as <- <-. left.
  - exact Hentry.
Defined.

(** ** The mapping of the image loop and the rewriters *)

Lemma pipeline_mapping_closed (m : mapping) :
  Forall pipeline_entry m -> closed_mapping m /\ named m.
Proof.
  intros Hall. rewrite Forall_forall in Hall. split.
  - intros e e' He He'. apply pipeline_entries_closed; by apply Hall.
  - apply Forall_forall. intros e He.
    destruct (Hall e He) as [Hext _]. by apply image_stem_nonempty in Hext as [_ ?].
Qed.

(** X22.  The mapping the image loop builds never renames twice: no new
    file name is the old file name of an entry that changes the name,
    and no old file name is empty.  So with this mapping the HTML/XHTML
    and the CSS rewriter change nothing when they are run again on
    their own output (for a reference in a text without other quotes or
    parentheses, and file names without such characters). *)
Theorem loop_mapping_settles (convert : str -> option str) (paths : list str)
    (t : tree) :
  let m := image_mapping (convert_images convert paths (RunState t [] [])) in
  closed_mapping m /\ named m /\
  (forall a q w b,
     q ∈ quotes -> free_of quotes a -> free_of quotes w -> free_of quotes b ->
     clean_names quotes m ->
     fst (update_xml_references
            (fst (update_xml_references (xml_doc a q w b) m)) m)
       = fst (update_xml_references (xml_doc a q w b) m)) /\
  (forall a form w b,
     form ∈ url_forms ->
     free_of delimiters a -> free_of delimiters w -> free_of delimiters b ->
     clean_names delimiters m ->
     fst (update_css_references
            (fst (update_css_references (css_doc a form w b) m)) m)
       = fst (update_css_references (css_doc a form w b) m)).
Proof.
  intros m.
  assert (Forall pipeline_entry m) as Hall
    by (apply convert_images_entries; constructor).
  destruct (pipeline_mapping_closed m Hall) as [Hc Hn].
  split_and!; [done..| |].
  - intros a q w b Hq Ha Hw Hb Hm. by apply xml_idempotent.
  - intros a form w b Hq Ha Hw Hb Hm. by apply css_idempotent.
Qed.

Lemma loop_mapping_settles_witness :
  named
    (image_mapping
       (convert_images copying_convert (map fst two_formats_tree)
          (RunState two_formats_tree [] []))).
Proof.
  destruct (loop_mapping_settles copying_convert (map fst two_formats_tree)
              two_formats_tree) as (_ & Hnamed & _).
  exact Hnamed.
Defined.

(** ** The names of the entries *)

Section Names.

Implicit Types (t : tree) (p q : str).

Lemma write_file_paths_new p data t :
  p ∉ map fst t -> map fst (write_file p data t) = map fst t ++ [p].
Proof.
  induction t as [|[p0 n0] t IH]; cbn; [done|].
  intros Hin. rewrite decide_False.
  - cbn. f_equal. apply IH. intros ?. apply Hin. by right.
  - intros ->. apply Hin. by left.
Qed.

Lemma write_file_NoDup p data t :
  NoDup (map fst t) -> NoDup (map fst (write_file p data t)).
Proof.
  intros Hnd. destruct (decide (p ∈ map fst t)) as [Hin|Hin].
  - by rewrite write_file_paths.
  - rewrite write_file_paths_new by done.
    apply NoDup_app. split_and!; [done| |apply NoDup_singleton].
    intros x Hx ->%list_elem_of_singleton. done.
Qed.

Lemma unlink_NoDup p t : NoDup (map fst t) -> NoDup (map fst (unlink p t)).
Proof.
  unfold unlink. induction t as [|[p0 n0] t IH]; [done|].
  cbn [map fst]. intros [Hp0 Hnd]%NoDup_cons.
  rewrite filter_cons. cbn [fst]. case_decide; [|by apply IH].
  cbn [map fst]. apply NoDup_cons. split; [|by apply IH].
  intros Hin. apply Hp0.
  apply list_elem_of_fmap in Hin as (e & -> & He).
  apply list_elem_of_filter in He as [_ He].
  apply list_elem_of_fmap. by exists e.
Qed.

Lemma convert_images_NoDup_paths convert paths st :
  NoDup (map fst (scratch st)) ->
  NoDup (map fst (scratch (convert_images convert paths st))).
Proof.
  revert st. induction paths as [|p paths IH]; intros st Hnd; [done|].
  change (convert_images convert (p :: paths) st)
    with (convert_images convert paths (convert_image convert st p)).
  apply IH.
  destruct (convert_image_cases convert st p)
    as [-> | [(data & _ & _ & _ & ->) | (data & png & _ & _ & _ & _ & ->)]];
    [done..|].
  cbn [scratch]. case_decide.
  - by apply unlink_NoDup, write_file_NoDup.
  - by apply write_file_NoDup.
Qed.

Lemma repack_others_names t :
  NoDup (map fst t) ->
  NoDup (map arcname
           (flat_map
              (fun e : str * node =>
                 match e.2 with
                 | File data =>
                     if decide (basename e.1 <> lit "mimetype")
                     then [ZipEntry e.1 data ZIP_DEFLATED] else []
                 | Dir => []
                 end) t)).
Proof.
  induction t as [|[p0 n0] t IH]; [constructor|].
  cbn [map fst flat_map snd]. intros [Hp0 Hnd]%NoDup_cons.
  assert (forall x, x ∈ map arcname
            (flat_map
               (fun e : str * node =>
                  match e.2 with
                  | File data =>
                      if decide (basename e.1 <> lit "mimetype")
                      then [ZipEntry e.1 data ZIP_DEFLATED] else []
                  | Dir => []
                  end) t) -> x ∈ map fst t) as Hsub.
  { intros x (e & -> & He)%list_elem_of_fmap.
    apply repack_others_spec in He as (d & Hin & _).
    apply list_elem_of_fmap. by exists (arcname e, File d). }
  destruct n0 as [data|]; [|by apply IH].
  case_decide; [|by apply IH].
  cbn [app map arcname]. apply NoDup_cons. split; [|by apply IH].
  intros Hin. by apply Hp0, Hsub.
Qed.

Lemma repack_NoDup t :
  NoDup (map fst t) -> lookup_path (lit "mimetype") t <> Some Dir ->
  NoDup (map arcname (repack t)).
Proof.
  intros Hnd Hdir. unfold repack. rewrite map_app. apply NoDup_app.
  split_and!.
  - destruct (lookup_path (lit "mimetype") t) as [[data|]|];
      [apply NoDup_singleton|done|constructor].
  - intros x Hx (e & -> & He)%list_elem_of_fmap.
    apply repack_others_spec in He as (d & _ & Hname & _).
    destruct (lookup_path (lit "mimetype") t) as [[data|]|];
      [|done|by apply elem_of_nil in Hx].
    apply list_elem_of_singleton in Hx. cbn in Hx.
    rewrite Hx in Hname. by apply Hname.
  - by apply repack_others_names.
Qed.

End Names.

(** X23.  When the paths of the extracted tree are distinct (and
    [mimetype] at the root is not a directory), no two entries of the
    new archive have the same name. *)
Theorem archive_names_unique (convert : str -> option str)
    (parse_items : str -> option (list attrs))
    (write_items : str -> list attrs -> str) (t : tree)
    (entries : list zip_entry) (st : run_state) :
  NoDup (map fst t) ->
  lookup_path (lit "mimetype") t <> Some Dir ->
  process_epub convert parse_items write_items (Some t) = Some (entries, st) ->
  NoDup (map arcname entries).
Proof.
  intros Hnd Hdir. rewrite process_epub_eq. intros [= <- _].
  apply repack_NoDup.
  - rewrite update_references_paths. by apply convert_images_NoDup_paths.
  - rewrite update_references_lookup_other by repeat constructor.
    rewrite convert_images_lookup_nonimage; [done|]. not_in_literal.
Qed.

Lemma archive_names_unique_witness :
  NoDup (map arcname
           (default ([], RunState [] [] [])
              (process_epub copying_convert (fun _ => None)
                            (fun data _ => data) (Some book_tree))).1).
Proof.
  destruct (process_epub copying_convert (fun _ => None) (fun data _ => data)
              (Some book_tree)) as [[entries st]|] eqn:Hrun;
    [|vm_compute in Hrun; discriminate].
  apply (archive_names_unique copying_convert (fun _ => None)
           (fun data _ => data) book_tree entries st).
  - vm_compute. repeat constructor; not_in_literal.
  - vm_compute. discriminate.
  - exact Hrun.
Defined.
(** ** Texts with several references *)

Section Occurrences.

Implicit Types (s t u v w x y rest : str) (c z : ascii) (p : pattern).

(** A literal that starts a text made of two parts lies in the first
    part or runs over into the second. *)
Lemma startswith_app_cases u x y :
  startswith u (x ++ y) = true ->
  startswith u x = true \/
  exists u2, u = x ++ u2 /\ u2 <> [] /\ startswith u2 y = true.
Proof.
  revert x. induction u as [|a u IH]; intros x; [by left|].
  destruct x as [|b x]; cbn [app].
  - intros H. right. by exists (a :: u).
  - cbn [startswith]. case_decide as Hab; [|done]. subst b.
    intros [H|(u2 & -> & Hne & H)]%IH; [by left|].
    right. by exists u2.
Qed.

Lemma drop_nonempty s i : (i < length s)%nat -> drop i s <> [].
Proof.
  intros Hi Heq. apply (f_equal length) in Heq.
  rewrite length_drop in Heq. cbn in Heq. lia.
Qed.

(** Before a token that begins with a character the literal holds only
    at its start, the literal starts nowhere in a text that does not
    contain it. *)
Lemma no_start_before u a0 u' t s i :
  u = a0 :: u' -> a0 ∉ u' -> contains u t = false ->
  (i < length t)%nat ->
  startswith u (drop i (t ++ a0 :: s)) = false.
Proof.
  intros Hu Ha0 Ht Hi.
  destruct (startswith u (drop i (t ++ a0 :: s))) eqn:Hs; [|done].
  exfalso. rewrite drop_app_le in Hs by lia.
  apply startswith_app_cases in Hs as [Hs|(u2 & Heq & Hne & Hs)].
  - by rewrite contains_drop in Hs.
  - pose proof (drop_nonempty t i Hi) as Hx.
    destruct (drop i t) as [|b x]; [done|].
    rewrite Hu in Heq. cbn [app] in Heq. injection Heq as -> ->.
    destruct u2 as [|c u2]; [done|]. cbn [startswith] in Hs.
    case_decide as Hc; [|done]. subst c. apply Ha0.
    apply elem_of_app. right. by left.
Qed.

(** Inside a stretch that lacks a character of the literal and ends with
    a character the literal has not, the literal does not start. *)
Lemma no_start_inside u c z x rest i :
  c ∈ u -> c ∉ x -> c <> z -> z ∉ u ->
  (i < length (x ++ [z]))%nat ->
  startswith u (drop i ((x ++ [z]) ++ rest)) = false.
Proof.
  intros Hcu Hcx Hcz Hzu Hi.
  destruct (startswith u (drop i ((x ++ [z]) ++ rest))) eqn:Hs; [|done].
  exfalso. rewrite drop_app_le in Hs by lia.
  rewrite length_app in Hi. cbn in Hi.
  rewrite drop_app_le in Hs by lia.
  apply startswith_app_cases in Hs as [Hs|(u2 & Heq & Hne & Hs)].
  - apply startswith_spec in Hs as [r Hr].
    assert (c ∈ drop i x ++ [z]) as Hin
      by (rewrite Hr; apply elem_of_app; by left).
    apply elem_of_app in Hin as [Hin|Hin%list_elem_of_singleton]; [|done].
    apply Hcx. rewrite <- (take_drop i x). apply elem_of_app. by right.
  - apply Hzu. rewrite Heq. apply elem_of_app. left.
    apply elem_of_app. right. by left.
Qed.

(** The substitution around a token: when the pattern can start neither
    in the text before the token nor inside it, the text is copied, the
    token is replaced if the pattern matches it, and the scan goes on
    behind it. *)
Lemma re_sub_segment p repl t tok rest g (fire : bool) :
  pre p <> [] ->
  (forall i, (i < length t)%nat ->
     startswith (pre p) (drop i (t ++ tok ++ rest)) = false) ->
  (forall i, (0 < i < length tok)%nat ->
     startswith (pre p) (drop i (tok ++ rest)) = false) ->
  match_at p (tok ++ rest) = (if fire then Some (g, rest) else None) ->
  re_sub p repl (t ++ tok ++ rest)
    = t ++ (if fire then repl g else tok) ++ re_sub p repl rest.
Proof.
  intros Hpre Hbefore Hinside Hstart.
  rewrite re_sub_skip
    by (intros i Hi; apply match_at_prefix; by apply Hbefore).
  f_equal. destruct fire.
  - by apply re_sub_match.
  - apply re_sub_skip. intros [|i] Hi; [done|].
    apply match_at_prefix, Hinside. lia.
Qed.

End Occurrences.

(** ** The [src] patterns on an attribute among others *)

Section SrcTokens.

Implicit Types (t w rest old new d : str) (q qp : ascii).

Lemma quote_cases q : q ∈ quotes -> q = dq \/ q = sq.
Proof. apply elem_of_quotes. Qed.

Lemma src_attribute_app q w rest :
  src_attribute q w ++ rest = lit "src=" ++ q :: w ++ q :: [] ++ rest.
Proof. unfold src_attribute. rewrite <- !app_assoc. cbn. by rewrite <- app_assoc. Qed.

Lemma src_not_before qp t q w rest i :
  qp ∈ quotes -> contains (lit "src=" ++ [qp]) t = false ->
  (i < length t)%nat ->
  startswith (lit "src=" ++ [qp]) (drop i (t ++ src_attribute q w ++ rest))
    = false.
Proof.
  intros Hqp Ht Hi.
  change (src_attribute q w ++ rest)
    with ("s"%char :: (lit "rc=" ++ q :: w ++ [q]) ++ rest).
  apply (no_start_before _ "s"%char (lit "rc=" ++ [qp])); [done| |done..].
  apply quote_cases in Hqp as [-> | ->]; not_in_literal.
Qed.

Lemma src_not_inside qp q w rest i :
  qp ∈ quotes -> q ∈ quotes -> free_of quotes w ->
  endswith w (lit "src=") = false ->
  (0 < i < length (src_attribute q w))%nat ->
  startswith (lit "src=" ++ [qp]) (drop i (src_attribute q w ++ rest)) = false.
Proof.
  intros Hqp Hq Hw Hends Hi.
  assert (qp ∉ w) as Hqw by by apply Hw.
  assert (q ∉ lit "src=") as Hqs
    by (apply quote_cases in Hq as [-> | ->]; not_in_literal).
  unfold src_attribute in *. rewrite length_app in Hi.
  cbn [length lit list_ascii_of_string] in Hi.
  destruct i as [|[|[|[|[|j]]]]]; [lia| | | | |].
  - done.
  - done.
  - done.
  - cbn. apply quote_cases in Hq as [-> | ->]; done.
  - change (drop (S (S (S (S (S j)))))
              ((lit "src=" ++ q :: w ++ [q]) ++ rest))
      with (drop j ((w ++ [q]) ++ rest)).
    rewrite length_app in Hi. cbn in Hi.
    destruct (startswith _ _) eqn:Hs; [|done]. exfalso.
    rewrite drop_app_le in Hs by (rewrite length_app; cbn; lia).
    rewrite drop_app_le in Hs by lia.
    apply startswith_app_cases in Hs as [Hs|(u2 & Heq & Hne & Hs)].
    + apply startswith_spec in Hs as [r Hr].
      destruct r as [|z r _] using rev_ind.
      * rewrite app_nil_r in Hr. apply app_inj_tail in Hr as [Hr _].
        assert (endswith w (lit "src=") = true) as Hyes.
        { apply endswith_spec. exists (take j w).
          by rewrite <- Hr, take_drop. }
        congruence.
      * rewrite !app_assoc in Hr. apply app_inj_tail in Hr as [Hr _].
        apply Hqw. rewrite <- (take_drop j w), Hr.
        apply elem_of_app. right. apply elem_of_app. left.
        apply elem_of_app. right. by left.
    + destruct u2 as [|z u2 _] using rev_ind; [done|].
      rewrite !app_assoc in Heq. apply app_inj_tail in Heq as [Heq _].
      apply Hqs. rewrite Heq. apply elem_of_app. left.
      apply elem_of_app. right. by left.
Qed.

Lemma src_other_quote qp q w rest :
  q <> qp ->
  startswith (lit "src=" ++ [qp]) (src_attribute q w ++ rest) = false.
Proof.
  intros Hne. unfold src_attribute.
  change (startswith [qp] ((q :: w ++ [q]) ++ rest) = false).
  cbn [app startswith]. by rewrite decide_False by congruence.
Qed.

(** The [src="..."] and [src='...'] patterns. *)
Lemma xml_star_token qp old new t q w rest :
  qp ∈ quotes -> q ∈ quotes ->
  contains (lit "src=" ++ [qp]) t = false ->
  free_of quotes w -> endswith w (lit "src=") = false -> qp ∉ old ->
  re_sub (Pattern (lit "src=" ++ [qp]) (Some qp) (slash :: old) [qp])
         (xml_repl old new) (t ++ src_attribute q w ++ rest)
    = t ++ (if bool_decide (q = qp) && endswith w (slash :: old)
            then src_attribute dq (replace old new w)
            else src_attribute q w)
        ++ re_sub (Pattern (lit "src=" ++ [qp]) (Some qp) (slash :: old) [qp])
                  (xml_repl old new) rest.
Proof.
  intros Hqp Hq Ht Hw Hends Hold.
  set (p := Pattern (lit "src=" ++ [qp]) (Some qp) (slash :: old) [qp]).
  assert (qp <> slash) as Hslash
    by (apply quote_cases in Hqp as [-> | ->]; done).
  rewrite (re_sub_segment p _ t (src_attribute q w) rest w
             (bool_decide (q = qp) && endswith w (slash :: old))).
  - by destruct (_ && _).
  - done.
  - intros i Hi. by apply src_not_before.
  - intros i Hi. by apply src_not_inside.
  - case_bool_decide as Heq; cbn [andb].
    + subst q. rewrite src_attribute_app.
      rewrite (match_reference p (lit "src=") qp qp [] w rest); try done.
      * by left.
      * intros [?|?]%elem_of_cons; [congruence|done].
      * by apply Hw.
    + apply match_at_prefix. by apply src_other_quote.
Qed.

(** The three patterns that spell the directory out. *)
Lemma xml_literal_token d old new t q w rest :
  q ∈ quotes -> contains (lit "src=" ++ [dq]) t = false ->
  free_of quotes w -> endswith w (lit "src=") = false ->
  dq ∉ d -> dq ∉ old ->
  re_sub (Pattern (lit "src=" ++ [dq]) None (d ++ slash :: old) [dq])
         (xml_repl old new) (t ++ src_attribute q w ++ rest)
    = t ++ (if bool_decide (q = dq) && bool_decide (w = d ++ slash :: old)
            then src_attribute dq (replace old new w)
            else src_attribute q w)
        ++ re_sub (Pattern (lit "src=" ++ [dq]) None (d ++ slash :: old) [dq])
                  (xml_repl old new) rest.
Proof.
  intros Hq Ht Hw Hends Hd Hold.
  set (p := Pattern (lit "src=" ++ [dq]) None (d ++ slash :: old) [dq]).
  assert (dq ∈ quotes) as Hdq by (by left).
  rewrite (re_sub_segment p _ t (src_attribute q w) rest w
             (bool_decide (q = dq) && bool_decide (w = d ++ slash :: old))).
  - by destruct (_ && _).
  - done.
  - intros i Hi. by apply src_not_before.
  - intros i Hi. by apply src_not_inside.
  - case_bool_decide as Heq; cbn [andb].
    + subst q. rewrite src_attribute_app.
      rewrite (match_reference p (lit "src=") dq dq [] w rest); try done.
      * by right.
      * by destruct d.
      * intros [?|[?|?]%elem_of_cons]%elem_of_app; done.
      * by apply Hw.
    + apply match_at_prefix. by apply src_other_quote.
Qed.

(** A spelled-out pattern does nothing to a settled value. *)
Lemma xml_literal_settled d old new t q w rest :
  q ∈ quotes -> contains (lit "src=" ++ [dq]) t = false ->
  free_of quotes w -> endswith w (lit "src=") = false ->
  dq ∉ d -> dq ∉ old -> settled old new w ->
  re_sub (Pattern (lit "src=" ++ [dq]) None (d ++ slash :: old) [dq])
         (xml_repl old new) (t ++ src_attribute q w ++ rest)
    = t ++ src_attribute q w
        ++ re_sub (Pattern (lit "src=" ++ [dq]) None (d ++ slash :: old) [dq])
                  (xml_repl old new) rest.
Proof.
  intros Hq Ht Hw Hends Hd Hold Hset.
  rewrite xml_literal_token by done.
  case_bool_decide as Hqd; [|done]. case_bool_decide as Hwd; [|done].
  cbn [andb]. subst q. by rewrite (Hset d Hwd).
Qed.

(** An attribute that an entry has rewritten is well-formed again. *)
Lemma endswith_src_segment d new :
  endswith new (lit "src=") = false ->
  endswith (d ++ slash :: new) (lit "src=") = false.
Proof.
  intros Hnew. destruct (endswith (d ++ slash :: new) _) eqn:He; [|done].
  apply endswith_final_segment in He; [congruence|not_in_literal].
Qed.

Lemma fired_plain old new w :
  old <> [] -> slash ∉ old -> endswith new (lit "src=") = false ->
  endswith w (slash :: old) = true ->
  endswith (replace old new w) (lit "src=") = false.
Proof.
  intros Hne Hold Hnew [d ->]%endswith_spec.
  rewrite replace_segment by done. by apply endswith_src_segment.
Qed.

(** The five patterns of one mapping entry, on an attribute among
    others. *)
Lemma xml_entry_token old new t q w rest :
  q ∈ quotes -> src_free t -> free_of quotes w ->
  endswith w (lit "src=") = false ->
  free_of quotes old -> free_of quotes new ->
  old <> [] -> slash ∉ old -> slash ∉ new ->
  endswith new (lit "src=") = false ->
  fold_left (fun content p => re_sub p (xml_repl old new) content)
            (xml_patterns old) (t ++ src_attribute q w ++ rest)
    = t ++ (if endswith w (slash :: old)
            then src_attribute dq (replace old new w)
            else src_attribute q w)
        ++ fold_left (fun content p => re_sub p (xml_repl old new) content)
                     (xml_patterns old) rest.
Proof.
  intros Hq Ht Hw Hplain Hold Hnew Hne Hso Hsn Hpn.
  pose proof (free_of_quotes _ Hold) as [Hod Hos].
  assert (dq ∈ quotes) as Hdq by (by left).
  assert (sq ∈ quotes) as Hsq by (right; by left).
  pose proof (Ht dq Hdq) as Htd. pose proof (Ht sq Hsq) as Hts.
  unfold xml_patterns. cbn [fold_left].
  change (lit "images/" ++ old) with (lit "images" ++ slash :: old).
  change (lit "../images/" ++ old) with (lit "../images" ++ slash :: old).
  change (lit "./images/" ++ old) with (lit "./images" ++ slash :: old).
  destruct (endswith w (slash :: old)) eqn:Hends.
  - pose proof (free_of_replace _ old new w Hw Hnew) as Hw'.
    pose proof (fired_plain old new w Hne Hso Hpn Hends) as Hplain'.
    pose proof (settled_replaced old new w Hne Hso Hsn Hends) as Hset.
    apply quote_cases in Hq as [-> | ->].
    + rewrite (xml_star_token dq) by done.
      rewrite bool_decide_eq_true_2, Hends by done. cbn [andb].
      rewrite (xml_star_token sq) by done.
      rewrite bool_decide_eq_false_2 by done. cbn [andb].
      rewrite !xml_literal_settled by (done || not_in_literal). done.
    + rewrite (xml_star_token dq) by (done || by apply Hw).
      rewrite bool_decide_eq_false_2 by done. cbn [andb].
      rewrite (xml_star_token sq) by done.
      rewrite bool_decide_eq_true_2, Hends by done. cbn [andb].
      rewrite !xml_literal_settled by (done || not_in_literal). done.
  - pose proof (settled_unmatched old new w Hends) as Hset.
    rewrite (xml_star_token dq) by done.
    rewrite Hends, andb_false_r.
    rewrite (xml_star_token sq) by done.
    rewrite Hends, andb_false_r.
    rewrite !xml_literal_settled by (done || not_in_literal). done.
Qed.

End SrcTokens.

(** ** The [url()] patterns on a token among others *)

Section UrlTokens.

Implicit Types (t w rest old new : str) (q qp : ascii) (form : option ascii).

Lemma url_token_inner form w rest :
  url_token form w ++ rest
    = lit "url" ++ "("%char :: inner_of form w ++ ")"%char :: [] ++ rest.
Proof.
  unfold url_token, inner_of. rewrite <- !app_assoc. cbn.
  by rewrite <- ?app_assoc.
Qed.

Lemma url_token_quoted q w rest :
  url_token (Some q) w ++ rest
    = lit "url(" ++ q :: w ++ q :: lit ")" ++ rest.
Proof.
  unfold url_token. rewrite <- !app_assoc. cbn. by rewrite <- ?app_assoc.
Qed.

Lemma inner_no_paren form w :
  form ∈ url_forms -> free_of delimiters w ->
  ("("%char ∉ inner_of form w) /\ (")"%char ∉ inner_of form w).
Proof.
  intros Hform (Hw1 & Hw2 & Hw3 & Hw4)%free_of_delimiters.
  apply elem_of_url_forms in Hform as [-> | [-> | ->]]; cbn [inner_of];
    [| |done];
    (split;
     intros [?|[?|?%list_elem_of_singleton]%elem_of_app]%elem_of_cons;
     done).
Qed.

Lemma css_repl_token old new w :
  css_repl old new w = url_token (Some dq) (replace old new w).
Proof.
  unfold css_repl, url_token. cbn [app]. by rewrite <- !app_assoc.
Qed.

Lemma url_not_before t form w rest i :
  url_free t -> (i < length t)%nat ->
  startswith (lit "url(") (drop i (t ++ url_token form w ++ rest)) = false.
Proof.
  intros Ht Hi.
  change (url_token form w ++ rest)
    with ("u"%char :: (lit "rl(" ++ inner_of form w ++ lit ")") ++ rest).
  apply (no_start_before _ "u"%char (lit "rl(")); [done| |done..].
  not_in_literal.
Qed.

Lemma url_not_inside form w rest i :
  form ∈ url_forms -> free_of delimiters w ->
  (0 < i < length (url_token form w))%nat ->
  startswith (lit "url(") (drop i (url_token form w ++ rest)) = false.
Proof.
  intros Hform Hw Hi.
  destruct (inner_no_paren form w Hform Hw) as [Hopen Hclose].
  unfold url_token in *. fold (inner_of form w) in *.
  rewrite length_app in Hi. cbn [length lit list_ascii_of_string] in Hi.
  destruct i as [|[|[|[|j]]]]; [lia|done|done|done|].
  change (drop (S (S (S (S j))))
            ((lit "url(" ++ inner_of form w ++ lit ")") ++ rest))
    with (drop j ((inner_of form w ++ [")"%char]) ++ rest)).
  apply (no_start_inside _ "("%char); [in_literal|done|done|not_in_literal|].
  change (lit ")") with [")"%char] in Hi. lia.
Qed.

(** The [url("...")] and [url('...')] patterns. *)
Lemma css_quoted_token qp old new t form w rest :
  qp ∈ quotes -> form ∈ url_forms -> url_free t ->
  free_of delimiters w -> qp ∉ old ->
  re_sub (Pattern (lit "url(" ++ [qp]) (Some qp) (slash :: old)
                  (qp :: lit ")"))
         (css_repl old new) (t ++ url_token form w ++ rest)
    = t ++ (if bool_decide (form = Some qp) && endswith w (slash :: old)
            then url_token (Some dq) (replace old new w)
            else url_token form w)
        ++ re_sub (Pattern (lit "url(" ++ [qp]) (Some qp) (slash :: old)
                           (qp :: lit ")"))
                  (css_repl old new) rest.
Proof.
  intros Hqp Hform Ht Hw Hold.
  set (p := Pattern (lit "url(" ++ [qp]) (Some qp) (slash :: old)
                    (qp :: lit ")")).
  assert (qp <> slash) as Hslash
    by (apply quote_cases in Hqp as [-> | ->]; done).
  assert (qp ∉ w) as Hqw.
  { apply Hw. apply quote_cases in Hqp as [-> | ->]; in_literal. }
  rewrite (re_sub_segment p _ t (url_token form w) rest w
             (bool_decide (form = Some qp) && endswith w (slash :: old))).
  - rewrite css_repl_token. by destruct (_ && _).
  - done.
  - intros i Hi. apply startswith_app_l. by apply url_not_before.
  - intros i Hi. apply startswith_app_l. by apply url_not_inside.
  - case_bool_decide as Heq; cbn [andb].
    + subst form. rewrite url_token_quoted.
      rewrite (match_reference p (lit "url(") qp qp (lit ")") w rest);
        try done.
      * by left.
      * intros [?|?]%elem_of_cons; [congruence|done].
    + apply match_at_prefix. unfold url_token.
      change (startswith [qp]
                ((match form with
                  | Some c => c :: w ++ [c]
                  | None => w
                  end ++ lit ")") ++ rest) = false).
      destruct form as [c|].
      * cbn [app startswith]. by rewrite decide_False by congruence.
      * change (lit ")") with [")"%char].
        destruct w as [|c w]; cbn [app startswith].
        -- rewrite decide_False; [done|].
           apply quote_cases in Hqp as [-> | ->]; done.
        -- rewrite decide_False; [done|]. intros ->. apply Hqw. by left.
Qed.

(** The [url(...)] pattern without quotes. *)
Lemma css_bare_token old new t form w rest :
  form ∈ url_forms -> url_free t -> free_of delimiters w ->
  free_of delimiters old ->
  re_sub (Pattern (lit "url(") (Some ")"%char) (slash :: old) (lit ")"))
         (css_repl old new) (t ++ url_token form w ++ rest)
    = t ++ (if bool_decide (form = None) && endswith w (slash :: old)
            then url_token (Some dq) (replace old new w)
            else url_token form w)
        ++ re_sub (Pattern (lit "url(") (Some ")"%char) (slash :: old)
                           (lit ")"))
                  (css_repl old new) rest.
Proof.
  intros Hform Ht Hw (Ho1 & Ho2 & Ho3 & Ho4)%free_of_delimiters.
  set (p := Pattern (lit "url(") (Some ")"%char) (slash :: old) (lit ")")).
  destruct (inner_no_paren form w Hform Hw) as [Hopen Hclose].
  rewrite (re_sub_segment p _ t (url_token form w) rest (inner_of form w)
             (bool_decide (form = None) && endswith w (slash :: old))).
  - destruct (_ && _) eqn:Hfire; [|done].
    apply andb_prop in Hfire as [->%bool_decide_eq_true _].
    cbn [inner_of]. by rewrite css_repl_token.
  - done.
  - intros i Hi. by apply url_not_before.
  - intros i Hi. by apply url_not_inside.
  - rewrite url_token_inner.
    rewrite (match_reference p (lit "url") "("%char ")"%char []
               (inner_of form w) rest); try done.
    + cbn [applies star body p].
      apply elem_of_url_forms in Hform as [-> | [-> | ->]]; cbn [inner_of].
      * by rewrite quoted_not_endswith.
      * by rewrite quoted_not_endswith.
      * rewrite bool_decide_eq_true_2 by done. cbn [andb].
        by destruct (endswith w (slash :: old)).
    + by left.
    + intros [?|?]%elem_of_cons; done.
Qed.

(** The three patterns of one mapping entry, on a token among others. *)
Lemma css_entry_token old new t form w rest :
  form ∈ url_forms -> url_free t -> free_of delimiters w ->
  free_of delimiters old -> free_of delimiters new ->
  fold_left (fun content p => re_sub p (css_repl old new) content)
            (css_patterns old) (t ++ url_token form w ++ rest)
    = t ++ (if endswith w (slash :: old)
            then url_token (Some dq) (replace old new w)
            else url_token form w)
        ++ fold_left (fun content p => re_sub p (css_repl old new) content)
                     (css_patterns old) rest.
Proof.
  intros Hform Ht Hw Hold Hnew.
  pose proof (free_of_delimiters _ Hold) as (Hod & Hos & _).
  assert (dq ∈ quotes) as Hdq by (by left).
  assert (sq ∈ quotes) as Hsq by (right; by left).
  assert (Some dq ∈ url_forms) as Hfd by (by left).
  unfold css_patterns. cbn [fold_left].
  destruct (endswith w (slash :: old)) eqn:Hends.
  - pose proof (free_of_replace _ old new w Hw Hnew) as Hw'.
    apply elem_of_url_forms in Hform as [-> | [-> | ->]].
    + rewrite (css_quoted_token dq) by done.
      rewrite bool_decide_eq_true_2, Hends by done. cbn [andb].
      rewrite (css_quoted_token sq) by done.
      rewrite bool_decide_eq_false_2 by done. cbn [andb].
      rewrite css_bare_token by done.
      rewrite bool_decide_eq_false_2 by done. done.
    + rewrite (css_quoted_token dq) by (done || (right; by left)).
      rewrite bool_decide_eq_false_2 by done. cbn [andb].
      rewrite (css_quoted_token sq) by (done || (right; by left)).
      rewrite bool_decide_eq_true_2, Hends by done. cbn [andb].
      rewrite css_bare_token by done.
      rewrite bool_decide_eq_false_2 by done. done.
    + rewrite (css_quoted_token dq) by (done || (right; right; by left)).
      rewrite bool_decide_eq_false_2 by done. cbn [andb].
      rewrite (css_quoted_token sq) by (done || (right; right; by left)).
      rewrite bool_decide_eq_false_2 by done. cbn [andb].
      rewrite css_bare_token by (done || (right; right; by left)).
      rewrite bool_decide_eq_true_2, Hends by done. done.
  - rewrite (css_quoted_token dq) by done.
    rewrite Hends, andb_false_r.
    rewrite (css_quoted_token sq) by done.
    rewrite Hends, andb_false_r.
    rewrite css_bare_token by done.
    by rewrite Hends, andb_false_r.
Qed.

End UrlTokens.

(** ** The rewriters on a document *)

Section Documents.

Context {Q : Type}.

Implicit Types (refs : list (reference Q)) (tail rest : str) (m : mapping).

Lemma render_cons (token : Q -> str -> str) r refs tail :
  render token (r :: refs) tail
    = lead r ++ token (delim r) (value r) ++ render token refs tail.
Proof. unfold render. cbn [flat_map]. by rewrite <- !app_assoc. Qed.

(** A function that goes through a reference and the text behind it
    goes through a document. *)
Lemma render_distributes (token : Q -> str -> str) (F : str -> str)
    (f : reference Q -> reference Q) (ok : reference Q -> Prop) refs tail :
  (forall r rest, ok r ->
     F (lead r ++ token (delim r) (value r) ++ rest)
       = lead (f r) ++ token (delim (f r)) (value (f r)) ++ F rest) ->
  F tail = tail -> Forall ok refs ->
  F (render token refs tail) = render token (map f refs) tail.
Proof.
  intros Hstep Htail Hrefs.
  induction Hrefs as [|r refs Hr Hrefs IH]; [done|].
  cbn [map]. rewrite !render_cons, Hstep by done. by rewrite IH.
Qed.

Lemma rewritten_cons (double : Q) e m r :
  rewritten double (e :: m) r
    = rewritten double m
        (Reference (lead r) (ref_step double (delim r, value r) e).1
                   (ref_step double (delim r, value r) e).2).
Proof.
  unfold rewritten. cbn [fold_left lead delim value].
  by rewrite <- surjective_pairing.
Qed.

Lemma rewritten_twice (double : Q) m r :
  named m -> closed_mapping m ->
  rewritten double m (rewritten double m r) = rewritten double m r.
Proof.
  intros Hn Hc. unfold rewritten. cbn [lead delim value].
  rewrite <- surjective_pairing. by rewrite ref_fold_idempotent.
Qed.

(** The rule of the rewriters holds of what the entries do to a
    reference. *)
Lemma rewritten_rule (double : Q) m r :
  named m -> rewrite_rule double m r (rewritten double m r).
Proof.
  intros Hn. unfold rewrite_rule, rewritten. cbn [lead delim value].
  split_and!.
  - done.
  - intros before old_path new_path after dir -> -> Hbefore Hafter.
    by rewrite ref_fold_first.
  - intros Hnone. by rewrite ref_fold_none.
  - intros Hbare. rewrite ref_fold_none; [done|].
    apply Forall_forall. intros e _. by apply fires_bare.
Qed.

Lemma rewritten_rules (double : Q) m refs :
  named m ->
  Forall2 (rewrite_rule double m) refs (map (rewritten double m) refs).
Proof.
  intros Hn. induction refs as [|r refs IH]; [constructor|].
  cbn [map]. constructor; [by apply rewritten_rule|done].
Qed.

End Documents.

Section XmlDocuments.

Implicit Types (refs : list (reference ascii)) (tail rest : str)
  (m : mapping).

Lemma re_sub_free p repl s :
  contains (pre p) s = false -> re_sub p repl s = s.
Proof.
  intros Hs. apply (re_sub_not_contained p repl (pre p) []); [|done].
  by rewrite app_nil_r.
Qed.

Lemma xml_pass_free m tail : src_free tail -> xml_pass m tail = tail.
Proof.
  intros Ht. unfold xml_pass.
  induction m as [|e m IH]; [done|]. cbn [fold_left].
  unfold xml_patterns. cbn [fold_left].
  do 5 (rewrite (re_sub_free _ _ tail)
          by (cbn [pre]; apply Ht; first [by left|right; by left])).
  done.
Qed.

Lemma well_formed_src_step e r :
  basename e.1 <> [] -> free_of quotes (basename e.2) ->
  endswith (basename e.2) (lit "src=") = false ->
  well_formed_src r ->
  well_formed_src
    (Reference (lead r) (ref_step dq (delim r, value r) e).1
               (ref_step dq (delim r, value r) e).2).
Proof.
  intros Hne Hnew Hplain (Ht & Hq & Hw & Hends).
  rewrite ref_step_eq. unfold fires.
  destruct (endswith (value r) (slash :: basename e.1)) eqn:Hf;
    cbn [fst snd]; [|done].
  split_and!; cbn [lead delim value].
  - done.
  - by left.
  - by apply free_of_replace.
  - apply fired_plain; [done|apply basename_no_slash|done..].
Qed.

Lemma xml_pass_token m : forall t q w rest,
  clean_names quotes m -> plain_names m ->
  well_formed_src (Reference t q w) ->
  xml_pass m (t ++ src_attribute q w ++ rest)
    = t ++ src_attribute (fold_left (ref_step dq) m (q, w)).1
                         (fold_left (ref_step dq) m (q, w)).2
        ++ xml_pass m rest.
Proof.
  induction m as [|e m IH]; intros t q w rest Hm Hp Hr; [done|].
  apply Forall_cons in Hm as [(Hne & Hold & Hnew) Hm].
  apply Forall_cons in Hp as [Hplain Hp].
  pose proof (well_formed_src_step e _ Hne Hnew Hplain Hr) as Hr'.
  destruct Hr as (Ht & Hq & Hw & Hends). cbn [lead delim value] in *.
  unfold xml_pass in *. cbn [fold_left].
  rewrite xml_entry_token by (done || apply basename_no_slash).
  rewrite ref_step_eq in Hr' |- *. unfold fires in *.
  destruct (endswith w (slash :: basename e.1)); cbn [fst snd] in Hr';
    by rewrite IH.
Qed.

Lemma well_formed_src_rewritten m r :
  clean_names quotes m -> plain_names m ->
  well_formed_src r -> well_formed_src (rewritten dq m r).
Proof.
  intros Hm Hp. revert r.
  induction m as [|e m IH]; intros r Hr.
  - by destruct r.
  - apply Forall_cons in Hm as [(Hne & Hold & Hnew) Hm].
    apply Forall_cons in Hp as [Hplain Hp].
    rewrite rewritten_cons. apply IH; [done..|].
    by apply well_formed_src_step.
Qed.

(** What [update_xml_references] does to a document: the entries of the
    mapping act on the value of every attribute in turn. *)
Lemma xml_document m refs tail :
  Forall well_formed_src refs -> src_free tail ->
  clean_names quotes m -> plain_names m ->
  fst (update_xml_references (xml_text refs tail) m)
    = xml_text (map (rewritten dq m) refs) tail.
Proof.
  intros Hrefs Htail Hm Hp. unfold update_xml_references.
  rewrite fst_rewrite_references. fold (xml_pass m (xml_text refs tail)).
  unfold xml_text.
  apply (render_distributes _ (xml_pass m) _ well_formed_src);
    [|by apply xml_pass_free|done].
  intros [t q w] rest Hr. cbn [lead delim value rewritten].
  by apply xml_pass_token.
Qed.

Lemma xml_document_idempotent m refs tail :
  Forall well_formed_src refs -> src_free tail ->
  clean_names quotes m -> plain_names m -> closed_mapping m ->
  fst (update_xml_references
         (fst (update_xml_references (xml_text refs tail) m)) m)
    = fst (update_xml_references (xml_text refs tail) m).
Proof.
  intros Hrefs Htail Hm Hp Hc.
  rewrite (xml_document m refs tail) by done.
  rewrite xml_document; [| |done..].
  - rewrite map_map. f_equal. apply map_ext. intros r.
    apply rewritten_twice; [by eapply clean_names_named|done].
  - apply Forall_map. eapply Forall_impl; [exact Hrefs|].
    intros r Hr. by apply well_formed_src_rewritten.
Qed.

End XmlDocuments.

Section CssDocuments.

Implicit Types (refs : list (reference (option ascii))) (tail rest : str)
  (m : mapping).

Lemma css_pass_free m tail : url_free tail -> css_pass m tail = tail.
Proof.
  intros Ht. unfold css_pass.
  induction m as [|e m IH]; [done|]. cbn [fold_left].
  unfold css_patterns. cbn [fold_left].
  rewrite (re_sub_not_contained _ _ (lit "url(") [dq] tail)
    by (done || exact Ht).
  rewrite (re_sub_not_contained _ _ (lit "url(") [sq] tail)
    by (done || exact Ht).
  by rewrite (re_sub_not_contained _ _ (lit "url(") [] tail)
    by (done || exact Ht).
Qed.

Lemma well_formed_url_step e r :
  free_of delimiters (basename e.2) ->
  well_formed_url r ->
  well_formed_url
    (Reference (lead r) (ref_step (Some dq) (delim r, value r) e).1
               (ref_step (Some dq) (delim r, value r) e).2).
Proof.
  intros Hnew (Ht & Hq & Hw).
  rewrite ref_step_eq. unfold fires.
  destruct (endswith (value r) (slash :: basename e.1)) eqn:Hf;
    cbn [fst snd]; [|done].
  split_and!; cbn [lead delim value].
  - done.
  - by left.
  - by apply free_of_replace.
Qed.

Lemma css_pass_token m : forall t form w rest,
  clean_names delimiters m ->
  well_formed_url (Reference t form w) ->
  css_pass m (t ++ url_token form w ++ rest)
    = t ++ url_token (fold_left (ref_step (Some dq)) m (form, w)).1
                     (fold_left (ref_step (Some dq)) m (form, w)).2
        ++ css_pass m rest.
Proof.
  induction m as [|e m IH]; intros t form w rest Hm Hr; [done|].
  apply Forall_cons in Hm as [(Hne & Hold & Hnew) Hm].
  pose proof (well_formed_url_step e _ Hnew Hr) as Hr'.
  destruct Hr as (Ht & Hq & Hw). cbn [lead delim value] in *.
  unfold css_pass in *. cbn [fold_left].
  rewrite css_entry_token by done.
  rewrite ref_step_eq in Hr' |- *. unfold fires in *.
  destruct (endswith w (slash :: basename e.1)); cbn [fst snd] in Hr';
    by rewrite IH.
Qed.

Lemma well_formed_url_rewritten m r :
  clean_names delimiters m ->
  well_formed_url r -> well_formed_url (rewritten (Some dq) m r).
Proof.
  intros Hm. revert r.
  induction m as [|e m IH]; intros r Hr.
  - by destruct r.
  - apply Forall_cons in Hm as [(Hne & Hold & Hnew) Hm].
    rewrite rewritten_cons. apply IH; [done|].
    by apply well_formed_url_step.
Qed.

(** What [update_css_references] does to a style sheet. *)
Lemma css_document m refs tail :
  Forall well_formed_url refs -> url_free tail ->
  clean_names delimiters m ->
  fst (update_css_references (css_text refs tail) m)
    = css_text (map (rewritten (Some dq) m) refs) tail.
Proof.
  intros Hrefs Htail Hm. unfold update_css_references.
  rewrite fst_rewrite_references. fold (css_pass m (css_text refs tail)).
  unfold css_text.
  apply (render_distributes _ (css_pass m) _ well_formed_url);
    [|by apply css_pass_free|done].
  intros [t form w] rest Hr. cbn [lead delim value rewritten].
  by apply css_pass_token.
Qed.

Lemma css_document_idempotent m refs tail :
  Forall well_formed_url refs -> url_free tail ->
  clean_names delimiters m -> closed_mapping m ->
  fst (update_css_references
         (fst (update_css_references (css_text refs tail) m)) m)
    = fst (update_css_references (css_text refs tail) m).
Proof.
  intros Hrefs Htail Hm Hc.
  rewrite (css_document m refs tail) by done.
  rewrite css_document; [| |done..].
  - rewrite map_map. f_equal. apply map_ext. intros r.
    apply rewritten_twice; [by eapply clean_names_named|done].
  - apply Forall_map. eapply Forall_impl; [exact Hrefs|].
    intros r Hr. by apply well_formed_url_rewritten.
Qed.

End CssDocuments.
(** ** The rewriters on whole documents *)

Section Checks.

Implicit Types (t : str) (m : mapping).

Lemma src_free_check t :
  contains (lit "src=" ++ [dq]) t || contains (lit "src=" ++ [sq]) t = false ->
  src_free t.
Proof.
  intros [Hd Hs]%orb_false_elim q [-> | ->]%elem_of_quotes; done.
Qed.

Lemma well_formed_src_check (r : reference ascii) :
  src_free (lead r) -> delim r ∈ quotes ->
  forallb (fun c => bool_decide (c ∉ value r)) quotes = true ->
  endswith (value r) (lit "src=") = false ->
  well_formed_src r.
Proof. intros Ht Hq Hw He. split_and!; [done..|by apply free_of_check|done]. Qed.

Lemma well_formed_url_check (r : reference (option ascii)) :
  contains (lit "url(") (lead r) = false -> delim r ∈ url_forms ->
  forallb (fun c => bool_decide (c ∉ value r)) delimiters = true ->
  well_formed_url r.
Proof. intros Ht Hq Hw. split_and!; [done..|by apply free_of_check]. Qed.

Lemma clean_names_check cs m :
  forallb (fun e =>
             bool_decide (basename e.1 <> []) &&
             forallb (fun c => bool_decide (c ∉ basename e.1)) cs &&
             forallb (fun c => bool_decide (c ∉ basename e.2)) cs) m = true ->
  clean_names cs m.
Proof.
  intros H. apply Forall_forall. intros e He.
  rewrite forallb_forall in H. apply list_elem_of_In, H in He.
  apply andb_prop in He as [[H1 H2]%andb_prop H3].
  split_and!; [by apply bool_decide_eq_true in H1|by apply free_of_check..].
Qed.

Lemma plain_names_check m :
  forallb (fun e => negb (endswith (basename e.2) (lit "src="))) m = true ->
  plain_names m.
Proof.
  intros H. apply Forall_forall. intros e He.
  rewrite forallb_forall in H. apply list_elem_of_In, H in He.
  by apply negb_true_iff in He.
Qed.

(** The new file names of the image loop end with [.png]. *)
Lemma pipeline_plain m : Forall pipeline_entry m -> plain_names m.
Proof.
  intros Hall. eapply Forall_impl; [exact Hall|].
  intros e [_ ->]. rewrite basename_png_path.
  destruct (endswith _ _) eqn:He; [|done].
  apply endswith_spec in He as [r Hr].
  apply (f_equal (@rev ascii)) in Hr. rewrite !rev_app_distr in Hr.
  cbn in Hr. discriminate.
Qed.

(** Under a closed mapping a reference is kept, or renamed by one entry
    to a value that only entries that keep the name accept. *)
Lemma rewritten_renamed {Q : Type} (double : Q) m (r : reference Q) :
  named m -> closed_mapping m -> renamed_by double m r (rewritten double m r).
Proof.
  intros Hn Hc. destruct r as [t x w]. unfold renamed_by, rewritten.
  cbn [lead delim value].
  destruct (first_firing w m) as [Hnone|(before & e & after & Hm & Hb & He)].
  - left. by rewrite ref_fold_none.
  - right.
    assert (e ∈ m) as Hin by (rewrite Hm; apply elem_of_app; right; by left).
    pose proof (named_elem m e Hn Hin) as Hne.
    destruct (fired_value w e Hne He) as (d & Hw & Hw').
    assert (forall e', e' ∈ m ->
              fires (replace (basename e.1) (basename e.2) w) e' = true ->
              keeps_name e') as Hkeep.
    { intros e' Hin' Hf. rewrite Hw' in Hf.
      apply fires_segment in Hf; [|apply basename_no_slash].
      unfold keeps_name. by apply (Hc e e'). }
    assert (fold_left (ref_step double) m (x, w)
              = (double, replace (basename e.1) (basename e.2) w)) as Hfix.
    { rewrite Hm. apply ref_fold_fires; [| done | done |].
      - unfold named in *. rewrite Hm in Hn.
        apply Forall_app in Hn as [_ Hn]. by apply Forall_cons in Hn as [_ Hn].
      - apply Forall_forall. intros e' Hin'.
        destruct (fires _ e') eqn:Hf; [right|by left].
        apply Hkeep; [|done]. rewrite Hm. apply elem_of_app. right. by right. }
    rewrite Hfix. cbn [fst snd]. exists e.1, e.2, d.
    split_and!; [by destruct e|done|by rewrite Hw'|].
    intros e' Hin' Hf. by apply Hkeep.
Qed.

Lemma rewritten_all_renamed {Q : Type} (double : Q) m
    (refs : list (reference Q)) :
  named m -> closed_mapping m ->
  Forall2 (renamed_by double m) refs (map (rewritten double m) refs).
Proof.
  intros Hn Hc. induction refs as [|r refs IH]; [constructor|].
  cbn [map]. constructor; [by apply rewritten_renamed|done].
Qed.

End Checks.

(** C6 (as amended).  In a document in which every [src=] that a quote
    follows starts an attribute whose value holds no quote and does not
    end with [src=] (any other text, attributes with their quotes
    included, may stand between the attributes), for a mapping whose
    file names hold no quote and whose new file names do not end with
    [src=]: the rewriter leaves the text between the attributes as it
    is, and rewrites every attribute by this rule.  When the value is a
    directory (of any form, [images], [./images] and [../images]
    included), a slash and the old file name of a mapping entry, the
    first such entry rewrites the value: every occurrence of the old
    file name in the directory is replaced, the final segment becomes
    the new file name, and the attribute is written between double
    quotes whatever the quotes were.  When no old file name follows a
    slash at the end of the value, and so when the value is a bare file
    name, the attribute is left as it is. *)
Theorem xml_reference_rewrite (m : mapping) (refs : list (reference ascii))
    (tail : str) :
  Forall well_formed_src refs -> src_free tail ->
  clean_names quotes m -> plain_names m ->
  exists refs',
    fst (update_xml_references (xml_text refs tail) m) = xml_text refs' tail /\
    Forall2
      (fun r r' =>
         lead r' = lead r /\
         (forall before old_path new_path after dir,
            m = before ++ (old_path, new_path) :: after ->
            value r = dir ++ slash :: basename old_path ->
            Forall (fun e => basename e.1 <> basename old_path) before ->
            Forall (fun e => basename e.1 = basename new_path -> keeps_name e)
                   after ->
            delim r' = dq /\
            value r' = replace (basename old_path) (basename new_path) dir
                         ++ slash :: basename new_path) /\
         (Forall (fun e => fires (value r) e = false) m ->
            delim r' = delim r /\ value r' = value r) /\
         (slash ∉ value r -> delim r' = delim r /\ value r' = value r))
      refs refs'.
Proof.
  intros Hrefs Htail Hm Hp. exists (map (rewritten dq m) refs). split.
  - by apply xml_document.
  - apply (rewritten_rules dq m refs). by eapply clean_names_named.
Qed.

Lemma xml_reference_rewrite_witness :
  fst (update_xml_references (xml_text two_images (lit "/>")) cover_mapping)
    = xml_text two_images_rewritten (lit "/>").
Proof.
  destruct (xml_reference_rewrite cover_mapping two_images (lit "/>"))
    as (refs' & Heq & Hrule).
  - repeat (apply Forall_cons; split); [| |apply Forall_nil_2];
      (apply well_formed_src_check;
       [apply src_free_check; vm_compute; reflexivity|in_literal
       |vm_compute; reflexivity..]).
  - apply src_free_check. vm_compute. reflexivity.
  - apply clean_names_check. vm_compute. reflexivity.
  - apply plain_names_check. vm_compute. reflexivity.
  - rewrite Heq. f_equal. unfold two_images in Hrule.
    apply Forall2_cons_inv_l in Hrule as (r1 & l1 & H1 & Hrule & ->).
    apply Forall2_cons_inv_l in Hrule as (r2 & l2 & H2 & Hrule & ->).
    apply Forall2_nil_inv_l in Hrule as ->.
    destruct r1 as [t1 q1 w1], r2 as [t2 q2 w2].
    destruct H1 as (Hl1 & Hf1 & _), H2 as (Hl2 & Hf2 & _).
    cbn [lead delim value] in *.
    destruct (Hf1 [] (lit "images/cover.jpg") (lit "images/cover.png") []
                  (lit "../images")) as [Hq1 Hw1];
      [reflexivity|reflexivity|constructor|constructor|].
    destruct (Hf2 [] (lit "images/cover.jpg") (lit "images/cover.png") []
                  (lit "images")) as [Hq2 Hw2];
      [reflexivity|reflexivity|constructor|constructor|].
    subst. reflexivity.
Defined.

(** C6 as stated fails on three counts: a single-quoted attribute comes
    out double-quoted, a bare file name is not matched, and an
    occurrence of the old file name in the directory is replaced too.
    The rule of the amended claim is for well-formed attributes: behind
    a value that ends with [src=] (as it is, or by a new file name) and
    inside a value that holds the other quote, the rewriter finds
    attributes of its own. *)
Lemma xml_quotes_and_bare_counterexample :
  update_xml_references (img_tag sq (lit "images/cover.jpg")) cover_mapping
    = (img_tag dq (lit "images/cover.png"), true) /\
  img_tag dq (lit "images/cover.png") <> img_tag sq (lit "images/cover.png") /\
  update_xml_references (img_tag dq (lit "cover.jpg")) cover_mapping
    = (img_tag dq (lit "cover.jpg"), false) /\
  update_xml_references (img_tag dq (lit "cover.jpg/cover.jpg")) cover_mapping
    = (img_tag dq (lit "cover.png/cover.png"), true) /\
  fst (update_xml_references src_in_value cover_mapping)
    = lit "<img src=" ++ [dq] ++ lit "x/src=" ++ [dq] ++ lit "y/cover.png" ++
      [dq] ++ lit "/>" /\
  fst (update_xml_references src_in_name src_mapping)
    = lit "<img src=" ++ [dq] ++ lit "x/zsrc=" ++ [dq] ++ lit "y/b.png" ++
      [dq] ++ lit "/>" /\
  fst (update_xml_references quote_in_value ba_mapping)
    = lit "<img src=" ++ [dq] ++ lit "x/b.jpg" ++ [dq] ++ lit "y/a.png" ++
      [dq] ++ lit "/>".
Proof.
  split_and!; [vm_compute; reflexivity|vm_compute; discriminate
              |vm_compute; reflexivity..].
Qed.

(** C7 (as amended).  The declaration of the scenario becomes
    [background: url("../images/bg.png");].  In a style sheet in which
    every [url(] starts a token (double-quoted, single-quoted or bare)
    whose value holds no quote and no parenthesis (any other text,
    quotes and parentheses included, may stand between the tokens), for
    a mapping whose file names hold none of these characters: the
    rewriter leaves the text between the tokens as it is, and rewrites
    every token by this rule.  When the value is a directory, a slash
    and the old file name of a mapping entry, the first such entry
    rewrites the value: every occurrence of the old file name in the
    directory is replaced, the final segment becomes the new file name,
    and the token is written in the double-quoted form.  When no old
    file name follows a slash at the end of the value, and so when the
    value is a bare file name, the token is left as it is. *)
Theorem css_reference_rewrite (m : mapping)
    (refs : list (reference (option ascii))) (tail : str) :
  Forall well_formed_url refs -> url_free tail ->
  clean_names delimiters m ->
  update_css_references (lit "background: url('../images/bg.jpg');") bg_mapping
    = (bg_rule (Some dq) (lit "../images/bg.png"), true) /\
  exists refs',
    fst (update_css_references (css_text refs tail) m) = css_text refs' tail /\
    Forall2
      (fun r r' =>
         lead r' = lead r /\
         (forall before old_path new_path after dir,
            m = before ++ (old_path, new_path) :: after ->
            value r = dir ++ slash :: basename old_path ->
            Forall (fun e => basename e.1 <> basename old_path) before ->
            Forall (fun e => basename e.1 = basename new_path -> keeps_name e)
                   after ->
            delim r' = Some dq /\
            value r' = replace (basename old_path) (basename new_path) dir
                         ++ slash :: basename new_path) /\
         (Forall (fun e => fires (value r) e = false) m ->
            delim r' = delim r /\ value r' = value r) /\
         (slash ∉ value r -> delim r' = delim r /\ value r' = value r))
      refs refs'.
Proof.
  intros Hrefs Htail Hm. split; [vm_compute; reflexivity|].
  exists (map (rewritten (Some dq) m) refs). split.
  - by apply css_document.
  - apply (rewritten_rules (Some dq) m refs). by eapply clean_names_named.
Qed.

Lemma css_reference_rewrite_witness :
  fst (update_css_references (css_text two_rules (lit "; }")) bg_mapping)
    = css_text two_rules_rewritten (lit "; }").
Proof.
  destruct (css_reference_rewrite bg_mapping two_rules (lit "; }"))
    as (_ & refs' & Heq & Hrule).
  - repeat (apply Forall_cons; split); [| |apply Forall_nil_2];
      (apply well_formed_url_check;
       [vm_compute; reflexivity|in_literal|vm_compute; reflexivity]).
  - vm_compute. reflexivity.
  - apply clean_names_check. vm_compute. reflexivity.
  - rewrite Heq. f_equal. unfold two_rules in Hrule.
    apply Forall2_cons_inv_l in Hrule as (r1 & l1 & H1 & Hrule & ->).
    apply Forall2_cons_inv_l in Hrule as (r2 & l2 & H2 & Hrule & ->).
    apply Forall2_nil_inv_l in Hrule as ->.
    destruct r1 as [t1 q1 w1], r2 as [t2 q2 w2].
    destruct H1 as (Hl1 & Hf1 & _), H2 as (Hl2 & Hf2 & _).
    cbn [lead delim value] in *.
    destruct (Hf1 [] (lit "images/bg.jpg") (lit "images/bg.png") []
                  (lit "../images")) as [Hq1 Hw1];
      [reflexivity|reflexivity|constructor|constructor|].
    destruct (Hf2 [] (lit "images/bg.jpg") (lit "images/bg.png") []
                  (lit "images")) as [Hq2 Hw2];
      [reflexivity|reflexivity|constructor|constructor|].
    subst. reflexivity.
Defined.

(** C7 as stated fails on two counts: a bare file name, whose final
    path segment is the old file name, is not matched in any of the
    three forms, and an occurrence of the old file name in the directory
    is replaced too.  The rule of the amended claim is for well-formed
    tokens: a value that holds a parenthesis is not matched although it
    ends with the old file name. *)
Lemma css_bare_counterexample :
  basename (lit "bg.jpg") = basename (lit "images/bg.jpg") /\
  update_css_references (bg_rule (Some dq) (lit "bg.jpg")) bg_mapping
    = (bg_rule (Some dq) (lit "bg.jpg"), false) /\
  update_css_references (bg_rule (Some sq) (lit "bg.jpg")) bg_mapping
    = (bg_rule (Some sq) (lit "bg.jpg"), false) /\
  update_css_references (bg_rule None (lit "bg.jpg")) bg_mapping
    = (bg_rule None (lit "bg.jpg"), false) /\
  update_css_references (bg_rule (Some dq) (lit "bg.jpg/bg.jpg")) bg_mapping
    = (bg_rule (Some dq) (lit "bg.png/bg.png"), true) /\
  update_css_references paren_in_value bg_mapping = (paren_in_value, false).
Proof. split_and!; vm_compute; reflexivity. Qed.

(** C3 (as amended).  Applied to its own output, a handler changes
    nothing further in these cases.  The HTML/XHTML and the CSS handler:
    on a document in which every [src=] that a quote follows (every
    [url(]) starts a well-formed attribute (token), whatever stands
    between them, for a mapping whose file names are not empty and hold
    no quote (and no parenthesis, for CSS; no new name ending with
    [src=], for HTML), when no new file name is the old file name of an
    entry that changes the name.  The manifest handler: for a mapping
    with non-empty old file names, when a new file name ends only with
    the old file names of entries that keep the name, on items whose
    [href], when it ends with an old file name, has it as its final
    segment. *)
Theorem handlers_idempotent (m : mapping) :
  closed_mapping m ->
  (forall refs tail,
     Forall well_formed_src refs -> src_free tail ->
     clean_names quotes m -> plain_names m ->
     fst (update_xml_references
            (fst (update_xml_references (xml_text refs tail) m)) m)
       = fst (update_xml_references (xml_text refs tail) m)) /\
  (forall refs tail,
     Forall well_formed_url refs -> url_free tail ->
     clean_names delimiters m ->
     fst (update_css_references
            (fst (update_css_references (css_text refs tail) m)) m)
       = fst (update_css_references (css_text refs tail) m)) /\
  (forall items,
     named m -> suffix_closed m ->
     Forall (fun item => whole_segment m (dict_get (lit "href") [] item))
            items ->
     fst (update_opf_manifest (fst (update_opf_manifest items m)) m)
       = fst (update_opf_manifest items m)).
Proof.
  intros Hc. split_and!.
  - intros refs tail Hrefs Htail Hm Hp. by apply xml_document_idempotent.
  - intros refs tail Hrefs Htail Hm. by apply css_document_idempotent.
  - intros items Hn Hs Hitems. by apply update_opf_manifest_idempotent.
Qed.

Lemma handlers_idempotent_witness :
  fst (update_xml_references
         (fst (update_xml_references (xml_text two_images (lit "/>"))
                                     cover_mapping))
         cover_mapping)
    = fst (update_xml_references (xml_text two_images (lit "/>"))
                                 cover_mapping).
Proof.
  destruct (handlers_idempotent cover_mapping) as (Hxml & _).
  - apply closed_mapping_check. vm_compute. reflexivity.
  - apply (Hxml two_images (lit "/>")).
    + repeat (apply Forall_cons; split); [| |apply Forall_nil_2];
        (apply well_formed_src_check;
         [apply src_free_check; vm_compute; reflexivity|in_literal
         |vm_compute; reflexivity..]).
    + apply src_free_check. vm_compute. reflexivity.
    + apply clean_names_check. vm_compute. reflexivity.
    + apply plain_names_check. vm_compute. reflexivity.
Defined.

(** C3 as stated fails for a mapping in which a new file name is the
    old file name of an earlier entry: the second pass renames again.
    It fails for a mapping of two images too, on an attribute or a
    token whose value holds the other quote: the first pass leaves an
    attribute that the second pass rewrites.  The manifest handler
    renames again even under a mapping of the image loop, for a file
    name that has its extension twice. *)
Lemma chain_mapping_counterexample :
  fst (update_xml_references (img_tag dq (lit "i/a.jpg")) chain_mapping)
    = img_tag dq (lit "i/b.jpg") /\
  fst (update_xml_references (img_tag dq (lit "i/b.jpg")) chain_mapping)
    = img_tag dq (lit "i/c.jpg") /\
  fst (update_css_references (bg_rule None (lit "i/a.jpg")) chain_mapping)
    = bg_rule (Some dq) (lit "i/b.jpg") /\
  fst (update_css_references (bg_rule (Some dq) (lit "i/b.jpg")) chain_mapping)
    = bg_rule (Some dq) (lit "i/c.jpg") /\
  closed_mapping ba_mapping /\
  fst (update_xml_references
         (fst (update_xml_references quote_in_value ba_mapping)) ba_mapping)
    <> fst (update_xml_references quote_in_value ba_mapping) /\
  fst (update_css_references
         (fst (update_css_references quote_in_url ba_mapping)) ba_mapping)
    <> fst (update_css_references quote_in_url ba_mapping) /\
  fst (update_opf_manifest [twice_item] twice_mapping)
    = [[(lit "href", lit "g.png.jpg"); (lit "media-type", lit "image/png")]] /\
  fst (update_opf_manifest
         [[(lit "href", lit "g.png.jpg"); (lit "media-type", lit "image/png")]]
         twice_mapping)
    = [[(lit "href", lit "g.png.png"); (lit "media-type", lit "image/png")]].
Proof.
  split_and!;
    [vm_compute; reflexivity..
    |apply closed_mapping_check; vm_compute; reflexivity
    |vm_compute; discriminate|vm_compute; discriminate
    |vm_compute; reflexivity|vm_compute; reflexivity].
Qed.

(** ** The path mapping *)

(** C8 (as amended).  The keys of the mapping built by the image loop
    are unique, and every entry sends an image file to the PNG path
    beside it.  When the rewriters apply this mapping to a markup file
    (a document or a style sheet with well-formed references, and file
    names without quotes or parentheses), every reference is either
    kept or renamed by an entry, and then ends with the entry's new
    file name; a renamed reference is accepted again only by entries
    that keep the name (their source is already named [*.png]). *)
Theorem mapping_invariants (convert : str -> option str) (paths : list str)
    (t : tree) :
  let m := image_mapping (convert_images convert paths (RunState t [] [])) in
  NoDup (map fst m) /\
  Forall pipeline_entry m /\
  (forall o n o' n', (o, n) ∈ m -> (o', n') ∈ m ->
     basename n = basename o' -> basename n' = basename o') /\
  (forall refs tail,
     Forall well_formed_src refs -> src_free tail -> clean_names quotes m ->
     exists refs',
       fst (update_xml_references (xml_text refs tail) m)
         = xml_text refs' tail /\
       Forall2 (renamed_by dq m) refs refs') /\
  (forall refs tail,
     Forall well_formed_url refs -> url_free tail ->
     clean_names delimiters m ->
     exists refs',
       fst (update_css_references (css_text refs tail) m)
         = css_text refs' tail /\
       Forall2 (renamed_by (Some dq) m) refs refs').
Proof.
  intros m.
  assert (Forall pipeline_entry m) as Hall
    by (apply convert_images_entries; constructor).
  destruct (pipeline_mapping_closed m Hall) as [Hc Hn].
  split_and!.
  - apply convert_images_NoDup. constructor.
  - done.
  - intros o n o' n' Hin Hin' Heq.
    apply (proj1 (Forall_forall _ _) Hall) in Hin, Hin'.
    by apply (pipeline_entries_closed (o, n) (o', n')).
  - intros refs tail Hrefs Htail Hm.
    exists (map (rewritten dq m) refs). split.
    + apply xml_document; [done..|]. by apply pipeline_plain.
    + by apply rewritten_all_renamed.
  - intros refs tail Hrefs Htail Hm.
    exists (map (rewritten (Some dq) m) refs). split.
    + by apply css_document.
    + by apply rewritten_all_renamed.
Qed.

Lemma mapping_invariants_witness :
  exists refs',
    fst (update_xml_references
           (xml_text [Reference (lit "<img ") sq (lit "images/a.jpg")]
                     (lit "/>"))
           (image_mapping
              (convert_images copying_convert (map fst two_formats_tree)
                 (RunState two_formats_tree [] []))))
      = xml_text refs' (lit "/>") /\
    Forall2
      (renamed_by dq
         (image_mapping
            (convert_images copying_convert (map fst two_formats_tree)
               (RunState two_formats_tree [] []))))
      [Reference (lit "<img ") sq (lit "images/a.jpg")] refs'.
Proof.
  destruct (mapping_invariants copying_convert (map fst two_formats_tree)
              two_formats_tree) as (_ & _ & _ & Hxml & _).
  apply Hxml.
  - repeat (apply Forall_cons; split); [|apply Forall_nil_2].
    apply well_formed_src_check;
      [apply src_free_check; vm_compute; reflexivity|in_literal
      |vm_compute; reflexivity..].
  - apply src_free_check. vm_compute. reflexivity.
  - apply clean_names_check. vm_compute. reflexivity.
Defined.

(** C8 as stated fails when an image exists in two formats: the
    reference to the JPEG is rewritten to [images/a.png], whose file
    name is the old file name of the mapping's second key. *)
Lemma rewritten_name_is_key_counterexample :
  image_mapping
    (convert_images copying_convert (map fst two_formats_tree)
       (RunState two_formats_tree [] []))
    = two_formats_mapping /\
  update_xml_references jpg_reference two_formats_mapping
    = (png_reference, true) /\
  basename (lit "images/a.png") ∈ map (fun e => basename e.1) two_formats_mapping.
Proof.
  split_and!; [vm_compute; reflexivity..|]. vm_compute. right. left.
Qed.
(** ** Images in the new archive *)

Section ImageNames.

Implicit Types (p name ext : str).


(** The part of a name after its last dot. *)
Lemma last_dot_unique (a b a' b' : str) :
  "."%char ∉ b -> "."%char ∉ b' ->
  a ++ "."%char :: b = a' ++ "."%char :: b' -> b = b'.
Proof.
  intros Hb Hb' Heq. apply (f_equal (@rev ascii)) in Heq.
  rewrite !rev_app_distr in Heq. cbn [rev] in Heq.
  rewrite <- !app_assoc in Heq. cbn [app] in Heq.
  apply first_occurrence_unique in Heq as [Heq _].
  - apply (f_equal (@rev ascii)) in Heq. by rewrite !rev_involutive in Heq.
  - intros Hin. apply Hb. apply list_elem_of_In, in_rev.
    by apply list_elem_of_In.
  - intros Hin. apply Hb'. apply list_elem_of_In, in_rev.
    by apply list_elem_of_In.
Qed.




End ImageNames.

Section Archive.

Variables (convert : str -> option str)
          (parse_items : str -> option (list attrs))
          (write_items : str -> list attrs -> str).

Implicit Types (t : tree) (p : str).

Lemma split_paths t p :
  NoDup (map fst t) -> p ∈ map fst t ->
  exists before after,
    map fst t = before ++ p :: after /\ p ∉ before /\ p ∉ after.
Proof.
  intros Hnd Hin.
  apply list_elem_of_split in Hin as (before & after & Hpaths).
  exists before, after. rewrite Hpaths in Hnd.
  apply NoDup_app in Hnd as (_ & Hbefore & Hnd).
  apply NoDup_cons in Hnd as [Hafter _].
  split_and!; [done| |done].
  intros Hin. apply (Hbefore p Hin). by left.
Qed.

(** The loop comes to an image onto whose path no other image is
    converted with the bytes it had. *)
Lemma image_at_its_turn t before p after data :
  map fst t = before ++ p :: after -> p ∉ before ->
  lookup_path p t = Some (File data) ->
  (forall p' d, lookup_path p' t = Some (File d) ->
     lower (suffix p') ∈ image_extensions -> p' <> p -> png_path p' <> p) ->
  lookup_path p (scratch (convert_images convert before (RunState t [] [])))
    = Some (File data).
Proof.
  intros Hpaths Hb Hl Halone.
  pose proof (convert_images_lookup_kept convert t before [] p) as Hkept.
  cbn [app] in Hkept. rewrite Hkept; [done| |done|].
  - rewrite Hpaths. intros x Hx. apply elem_of_app. by left.
  - intros p' d Hin Hl' Hext. apply (Halone p' d); [done..|].
    by intros ->.
Qed.

(** What the loop leaves of an image that converts and is
    undisturbed. *)
Lemma converted_image_final t p data png :
  NoDup (map fst t) ->
  lookup_path p t = Some (File data) ->
  lower (suffix p) ∈ image_extensions ->
  convert data = Some png ->
  lookup_path (png_path p) t <> Some Dir ->
  undisturbed p t ->
  let final := convert_images convert (map fst t) (RunState t [] []) in
  lookup_path (png_path p) (scratch final) = Some (File png) /\
  (p, png_path p) ∈ image_mapping final /\
  (lower (suffix p) <> lit ".png" -> lookup_path p (scratch final) = None).
Proof.
  intros Hnd Hl Hext Hc Hdir Halone final.
  pose proof (image_stem_nonempty p Hext) as [Hstem _].
  destruct (split_paths t p Hnd (lookup_path_in _ _ _ Hl))
    as (before & after & Hpaths & Hpb & Hpa).
  set (st1 := convert_images convert before (RunState t [] [])).
  assert (lookup_path p (scratch st1) = Some (File data)) as Hl1.
  { apply (image_at_its_turn t before p after data); [done..|].
    intros p' d Hl' Hext' Hne. by apply (Halone p' d). }
  assert (lookup_path (png_path p) (scratch st1) <> Some Dir) as Hdir1.
  { subst st1. by rewrite convert_images_dir. }
  assert (convert_images convert (before ++ [p]) (RunState t [] [])
          = RunState
              (let t' := write_file (png_path p) png (scratch st1) in
               if decide (lower (suffix p) <> lit ".png")
               then unlink p t' else t')
              (dict_set p (png_path p) (image_mapping st1))
              (log st1 ++ [Converted p (png_path p)])) as Hst2.
  { rewrite convert_images_snoc.
    by apply (convert_image_ok convert st1 p data png). }
  assert (map fst t = (before ++ [p]) ++ after) as Hpaths'
    by (by rewrite <- app_assoc).
  assert (png_path p ∉ after) as Hpng_after.
  { intros Hin.
    assert (png_path p <> p) as Hne by (by intros Heq; rewrite Heq in Hin).
    assert (png_path p ∈ map fst t) as Hint
      by (rewrite Hpaths; apply elem_of_app; right; by right).
    destruct (lookup_path (png_path p) t) as [[d|]|] eqn:Hlp.
    - destruct (Halone (png_path p) d Hlp) as [_ Hfix]; [|done|].
      + rewrite suffix_png_path by done. in_literal.
      + apply Hfix. apply png_path_fixed. by apply suffix_png_path.
    - done.
    - by apply lookup_path_None in Hlp. }
  subst final. rewrite Hpaths'. split_and!.
  - rewrite convert_images_lookup_kept.
    + rewrite Hst2. cbn [scratch]. case_decide as Hlow.
      * rewrite lookup_unlink_ne by (by apply png_path_moves, lower_png).
        apply lookup_write_file_eq.
      * apply lookup_write_file_eq.
    + by rewrite <- Hpaths'.
    + done.
    + intros p' d Hin Hl' Hext'. apply (Halone p' d); [done..|].
      by intros ->.
  - rewrite convert_images_app. apply convert_images_keeps_entry; [done|].
    rewrite Hst2. cbn [image_mapping]. apply dict_set_elem_eq.
  - intros Hlow. rewrite convert_images_lookup_kept.
    + rewrite Hst2. cbn [scratch]. rewrite decide_True by done.
      apply lookup_unlink_eq.
    + by rewrite <- Hpaths'.
    + done.
    + intros p' d Hin Hl' Hext'. apply (Halone p' d); [done..|].
      by intros ->.
Qed.

(** The same, in the new archive. *)
Lemma converted_image_archived t p data png :
  NoDup (map fst t) ->
  lookup_path p t = Some (File data) ->
  lower (suffix p) ∈ image_extensions ->
  convert data = Some png ->
  lookup_path (png_path p) t <> Some Dir ->
  undisturbed p t ->
  forall entries st,
    process_epub convert parse_items write_items (Some t)
      = Some (entries, st) ->
    ZipEntry (png_path p) png ZIP_DEFLATED ∈ entries /\
    (p, png_path p) ∈ image_mapping st /\
    (lower (suffix p) <> lit ".png" ->
     forall e, e ∈ entries -> arcname e <> p).
Proof.
  intros Hnd Hl Hext Hc Hdir Halone entries st.
  rewrite process_epub_eq. intros [= <- <-]. cbn [image_mapping].
  destruct (converted_image_final t p data png Hnd Hl Hext Hc Hdir Halone)
    as (Hpng & Hm & Hgone).
  pose proof (image_stem_nonempty p Hext) as [Hstem _].
  split_and!.
  - apply repack_file.
    + rewrite update_references_lookup_other; [done|].
      rewrite basename_png_path. apply png_name_not_markup.
    + rewrite basename_png_path. apply png_name_not_mimetype.
  - done.
  - intros Hlow.
    destruct (image_not_mimetype p Hext) as [Hp1 Hp2].
    apply repack_absent; [|done..].
    apply update_references_lookup_none. by apply Hgone.
Qed.


End Archive.

(** X18.  An image that converts (its bytes convert and there is no
    directory at its PNG path), and onto whose path and PNG path no
    other image file of the tree is converted, is in the new archive as
    its PNG: the entry at the PNG path holds the converted bytes, the
    mapping sends the image to that path, and, unless the image was
    named [*.png] (in any case), no entry has the path of the original.
    Files that are no images, and directories, do not matter, whatever
    their names. *)
Theorem converted_image_in_archive (convert : str -> option str)
    (parse_items : str -> option (list attrs))
    (write_items : str -> list attrs -> str) (t : tree) (p data png : str) :
  NoDup (map fst t) ->
  lookup_path p t = Some (File data) ->
  lower (suffix p) ∈ image_extensions ->
  convert data = Some png ->
  lookup_path (png_path p) t <> Some Dir ->
  undisturbed p t ->
  exists entries st,
    process_epub convert parse_items write_items (Some t)
      = Some (entries, st) /\
    ZipEntry (png_path p) png ZIP_DEFLATED ∈ entries /\
    (p, png_path p) ∈ image_mapping st /\
    (lower (suffix p) <> lit ".png" ->
     forall e, e ∈ entries -> arcname e <> p).
Proof.
  intros Hnd Hl Hext Hc Hdir Halone.
  destruct (process_epub convert parse_items write_items (Some t))
    as [[entries st]|] eqn:Hrun; [|by rewrite process_epub_eq in Hrun].
  exists entries, st. split; [done|].
  by apply (converted_image_archived convert parse_items write_items t p data
              png).
Qed.

Lemma converted_image_in_archive_witness :
  exists entries st,
    process_epub copying_convert (fun _ => None) (fun data _ => data)
                 (Some chapter_tree) = Some (entries, st) /\
    ZipEntry (png_path (lit "OEBPS/ch1.jpg")) (lit "jpeg bytes") ZIP_DEFLATED
      ∈ entries /\
    (lit "OEBPS/ch1.jpg", png_path (lit "OEBPS/ch1.jpg"))
      ∈ image_mapping st /\
    (lower (suffix (lit "OEBPS/ch1.jpg")) <> lit ".png" ->
     forall e, e ∈ entries -> arcname e <> lit "OEBPS/ch1.jpg").
Proof.
  apply (converted_image_in_archive copying_convert (fun _ => None)
           (fun data _ => data) chapter_tree (lit "OEBPS/ch1.jpg")
           (lit "jpeg bytes") (lit "jpeg bytes")).
  - vm_compute. repeat constructor; not_in_literal.
  - reflexivity.
  - in_literal.
  - reflexivity.
  - vm_compute. discriminate.
  - intros p' d Hl%lookup_path_elem Hext Hne. vm_compute in Hl.
    repeat (apply elem_of_cons in Hl as [[= -> ->]|Hl]);
      first [done|revert Hext; not_in_literal
            |split; vm_compute; discriminate|by apply elem_of_nil in Hl].
Defined.


(** ** Markup files in the reference phase *)

Section Markup.

Variables (parse_items : str -> option (list attrs))
          (write_items : str -> list attrs -> str).

Implicit Types (t : tree) (m : mapping) (p name e : str).

Lemma ending_unique name e e' :
  "."%char ∉ e -> "."%char ∉ e' ->
  endswith name ("."%char :: e) = true ->
  endswith name ("."%char :: e') = true -> e = e'.
Proof.
  intros He He' [r Hr]%endswith_spec [r' Hr']%endswith_spec.
  rewrite Hr in Hr'. by apply (last_dot_unique r e r' e').
Qed.

Lemma other_ending name e e' :
  "."%char ∉ e -> "."%char ∉ e' -> e <> e' ->
  endswith name ("."%char :: e) = true ->
  endswith name ("."%char :: e') = false.
Proof.
  intros He He' Hne Hends.
  destruct (endswith name ("."%char :: e')) eqn:He2; [|done].
  exfalso. apply Hne. by apply (ending_unique name).
Qed.

(** Text mode reads no carriage return, and reads a text without
    carriage returns as it is. *)
Lemma universal_newlines_no_return (s : str) :
  "013"%char ∉ universal_newlines s.
Proof.
  induction s as [|c s IH]; [by intros ?%elem_of_nil|].
  cbn [universal_newlines]. case_decide as Hc.
  - destruct s as [|c' s']; [not_in_literal|].
    case_decide as Hc'; [done|].
    intros [?|?]%elem_of_cons; done.
  - intros [?|?]%elem_of_cons; [congruence|done].
Qed.

Lemma universal_newlines_plain (s : str) :
  "013"%char ∉ s -> universal_newlines s = s.
Proof.
  induction s as [|c s IH]; [done|]. intros Hs.
  cbn [universal_newlines]. rewrite decide_False.
  - f_equal. apply IH. intros ?. apply Hs. by right.
  - intros ->. apply Hs. by left.
Qed.

(** The pass that rewrites a file, among the five of the reference
    phase. *)
Lemma update_references_htm m t p data :
  NoDup (map fst t) -> m <> [] ->
  lookup_path p t = Some (File data) ->
  endswith (basename p) (lit ".htm") = true ->
  lookup_path p (update_references parse_items write_items m t)
    = lookup_path p (rewrite_files (lit ".htm") read_text
                       update_xml_references m t).
Proof.
  intros Hnd Hm Hl Hext. unfold update_references.
  destruct m as [|e m]; [done|].
  assert (forall e', "."%char ∉ e' -> lit "htm" <> e' ->
            endswith (basename p) ("."%char :: e') = false) as Hother.
  { intros e' He' Hne.
    by apply (other_ending (basename p) (lit "htm")); [not_in_literal|..]. }
  by rewrite !(rewrite_files_lookup_other _ _ _ _ _ p)
    by (apply Hother; [not_in_literal|done]).
Qed.

Lemma update_references_html m t p data :
  NoDup (map fst t) -> m <> [] ->
  lookup_path p t = Some (File data) ->
  endswith (basename p) (lit ".html") = true ->
  lookup_path p (update_references parse_items write_items m t)
    = lookup_path p (rewrite_files (lit ".html") read_text
                       update_xml_references m t).
Proof.
  intros Hnd Hm Hl Hext. unfold update_references.
  destruct m as [|e m]; [done|].
  set (t1 := rewrite_files (lit ".htm") _ _ _ t).
  assert (forall e', "."%char ∉ e' -> lit "html" <> e' ->
            endswith (basename p) ("."%char :: e') = false) as Hother.
  { intros e' He' Hne.
    by apply (other_ending (basename p) (lit "html")); [not_in_literal|..]. }
  rewrite !(rewrite_files_lookup_other _ _ _ _ _ p)
    by (apply Hother; [not_in_literal|done]).
  assert (lookup_path p t1 = Some (File data)) as Hl1.
  { subst t1. rewrite rewrite_files_lookup_other; [done|].
    apply Hother; [not_in_literal|done]. }
  rewrite !rewrite_files_lookup_self with (data := data); try done.
  subst t1. by rewrite rewrite_files_paths.
Qed.

Lemma update_references_xhtml m t p data :
  NoDup (map fst t) -> m <> [] ->
  lookup_path p t = Some (File data) ->
  endswith (basename p) (lit ".xhtml") = true ->
  lookup_path p (update_references parse_items write_items m t)
    = lookup_path p (rewrite_files (lit ".xhtml") read_text
                       update_xml_references m t).
Proof.
  intros Hnd Hm Hl Hext. unfold update_references.
  destruct m as [|e m]; [done|].
  set (t1 := rewrite_files (lit ".htm") _ _ _ t).
  set (t2 := rewrite_files (lit ".html") _ _ _ t1).
  assert (forall e', "."%char ∉ e' -> lit "xhtml" <> e' ->
            endswith (basename p) ("."%char :: e') = false) as Hother.
  { intros e' He' Hne.
    by apply (other_ending (basename p) (lit "xhtml")); [not_in_literal|..]. }
  rewrite !(rewrite_files_lookup_other _ _ _ _ _ p)
    by (apply Hother; [not_in_literal|done]).
  assert (lookup_path p t2 = Some (File data)) as Hl2.
  { subst t2 t1. rewrite !rewrite_files_lookup_other; [done|..];
      (apply Hother; [not_in_literal|done]). }
  rewrite !rewrite_files_lookup_self with (data := data); try done.
  subst t2 t1. by rewrite !rewrite_files_paths.
Qed.

Lemma update_references_css m t p data :
  NoDup (map fst t) -> m <> [] ->
  lookup_path p t = Some (File data) ->
  endswith (basename p) (lit ".css") = true ->
  lookup_path p (update_references parse_items write_items m t)
    = lookup_path p (rewrite_files (lit ".css") read_text
                       update_css_references m t).
Proof.
  intros Hnd Hm Hl Hext. unfold update_references.
  destruct m as [|e m]; [done|].
  set (t1 := rewrite_files (lit ".htm") _ _ _ t).
  set (t2 := rewrite_files (lit ".html") _ _ _ t1).
  set (t3 := rewrite_files (lit ".xhtml") _ _ _ t2).
  assert (forall e', "."%char ∉ e' -> lit "css" <> e' ->
            endswith (basename p) ("."%char :: e') = false) as Hother.
  { intros e' He' Hne.
    by apply (other_ending (basename p) (lit "css")); [not_in_literal|..]. }
  rewrite !(rewrite_files_lookup_other _ _ _ _ _ p)
    by (apply Hother; [not_in_literal|done]).
  assert (lookup_path p t3 = Some (File data)) as Hl3.
  { subst t3 t2 t1. rewrite !rewrite_files_lookup_other; [done|..];
      (apply Hother; [not_in_literal|done]). }
  rewrite !rewrite_files_lookup_self with (data := data); try done.
  subst t3 t2 t1. by rewrite !rewrite_files_paths.
Qed.

End Markup.

(** X24.  What the reference phase leaves of a markup file, when the
    paths of the tree are distinct and some image was converted.  A page
    ([.htm], [.html], [.xhtml]) or a style sheet ([.css]) whose bytes
    are not UTF-8 is left as it is: it cannot be read, and its
    references are not rewritten.  Otherwise the rewriter works on the
    text that text mode reads, which holds no carriage return (a text
    without carriage returns is read as it is), and the file is replaced
    by the rewritten text when the rewriter reports a change: so a
    rewritten file has Unix line ends, and a file without a change keeps
    its bytes. *)
Theorem markup_file_rewritten (parse_items : str -> option (list attrs))
    (write_items : str -> list attrs -> str) (m : mapping) (t : tree)
    (p data : str) :
  NoDup (map fst t) -> m <> [] ->
  lookup_path p t = Some (File data) ->
  (Exists (fun ext => endswith (basename p) ext = true)
          [lit ".htm"; lit ".html"; lit ".xhtml"] ->
   lookup_path p (update_references parse_items write_items m t)
     = Some (File
         match read_text data with
         | Some content =>
             if snd (update_xml_references content m)
             then fst (update_xml_references content m) else data
         | None => data
         end)) /\
  (endswith (basename p) (lit ".css") = true ->
   lookup_path p (update_references parse_items write_items m t)
     = Some (File
         match read_text data with
         | Some content =>
             if snd (update_css_references content m)
             then fst (update_css_references content m) else data
         | None => data
         end)) /\
  (read_text data = None <-> utf8_valid data = false) /\
  (forall content, read_text data = Some content ->
     "013"%char ∉ content /\ ("013"%char ∉ data -> content = data)).
Proof.
  intros Hnd Hm Hl. split_and!.
  - intros Hext. apply Exists_cons in Hext as [Hext|Hext];
      [|apply Exists_cons in Hext as [Hext|Hext];
        [|apply Exists_cons in Hext as [Hext|Hext];
          [|by apply Exists_nil in Hext]]].
    + rewrite (update_references_htm _ _ m t p data) by done.
      by apply rewrite_files_lookup_self.
    + rewrite (update_references_html _ _ m t p data) by done.
      by apply rewrite_files_lookup_self.
    + rewrite (update_references_xhtml _ _ m t p data) by done.
      by apply rewrite_files_lookup_self.
  - intros Hext. rewrite (update_references_css _ _ m t p data) by done.
    by apply rewrite_files_lookup_self.
  - unfold read_text. by destruct (utf8_valid data).
  - intros content. unfold read_text.
    destruct (utf8_valid data); [|done]. intros [= <-]. split.
    + apply universal_newlines_no_return.
    + apply universal_newlines_plain.
Qed.

Lemma markup_file_rewritten_witness :
  lookup_path (lit "page.xhtml")
    (update_references (fun _ => None) (fun data _ => data) a_mapping
                       pages_tree)
    = Some (File (lit "<img src=" ++ [dq] ++ lit "images/a.png" ++ [dq] ++
                  lit "/>" ++ ["010"%char])) /\
  lookup_path (lit "latin.html")
    (update_references (fun _ => None) (fun data _ => data) a_mapping
                       pages_tree)
    = lookup_path (lit "latin.html") pages_tree.
Proof.
  split.
  - destruct (markup_file_rewritten (fun _ => None) (fun data _ => data)
                a_mapping pages_tree (lit "page.xhtml")
                (lit "<img src=" ++ [dq] ++ lit "images/a.jpg" ++ [dq] ++
                 lit "/>" ++ ["013"%char; "010"%char])) as (Hxml & _).
    + vm_compute. repeat constructor; not_in_literal.
    + done.
    + reflexivity.
    + rewrite Hxml; [vm_compute; reflexivity|].
      do 2 apply Exists_cons_tl. apply Exists_cons_hd.
      vm_compute. reflexivity.
  - destruct (markup_file_rewritten (fun _ => None) (fun data _ => data)
                a_mapping pages_tree (lit "latin.html")
                (lit "<p>caf" ++ ["233"%char] ++ lit "</p><img src=" ++ [dq] ++
                 lit "images/a.jpg" ++ [dq] ++ lit "/>")) as (Hxml & _).
    + vm_compute. repeat constructor; not_in_literal.
    + done.
    + reflexivity.
    + rewrite Hxml; [vm_compute; reflexivity|].
      apply Exists_cons_tl. apply Exists_cons_hd.
      vm_compute. reflexivity.
Defined.
